(** * Request-governance stack of the soccer dashboard: a shallow embedding

    The development follows the TypeScript sources of the client-side
    traffic-shaping layer: the token bucket, the two queueing limiters with
    their circuit breakers, the response cache, the request deduplicator,
    the monitor and the error classification of the API client.

    Conventions.
    - [Date.now()] is an explicit argument [now : Z] (milliseconds).
    - JavaScript numbers are IEEE-754 doubles.  In the token bucket and in
      the monitor a number is the rational value of the double, and every
      arithmetic operation of the source rounds its exact result to the
      nearest double, ties to even ([Double.round]); [Math.floor],
      [Math.ceil], [Math.min] and the comparisons are exact.  NaN, the
      infinities and the sign of zero are outside the model.  The backoff
      and retry delays are computed over the rationals.  Counters and
      timestamps are whole numbers below 2^53 and are [Z].
    - Mutation of [this] is explicit state passing: a method returns the
      new object next to its result. *)

From Stdlib Require Import ZArith QArith Qround Qminmax Qpower Qabs List Ascii String Lia Lqa.
From Stdlib Require Import Sorting.Sorted Permutation.
From stdpp Require Import gmap strings.
Import ListNotations.

Local Open Scope Z_scope.

(* ===================================================================== *)
(** ** Double-precision arithmetic *)
(* ===================================================================== *)

Module Double.

(** The exponent of the smallest positive double, [2^-1074]. *)
Definition emin : Z := -1074.

Definition pow2 (k : Z) : Q := (2 ^ k)%Q.

(** The nearest whole number, the even one of two equally near. *)
Definition rne (s : Q) : Z :=
  let f := Qfloor s in
  match (s - inject_Z f ?= 1 # 2)%Q with
  | Lt => f
  | Gt => f + 1
  | Eq => if Z.even f then f else f + 1
  end.

(** [floor(log2 q)] of a positive rational. *)
Definition ilog2 (q : Q) : Z :=
  let k := Z.log2 (Qnum q) - Z.log2 (Zpos (Qden q)) in
  if Qle_bool (pow2 k) q then k else k - 1.

(** The exponent of the unit in the last place of the doubles next to a
    positive [q]: 53 significant bits, not below [emin]. *)
Definition exponent (q : Q) : Z := Z.max emin (ilog2 q - 52).

Definition roundPositive (q : Q) : Q :=
  let e := exponent q in (inject_Z (rne (q / pow2 e)) * pow2 e)%Q.

(** The double nearest to a rational, ties to even. *)
Definition round (q : Q) : Q :=
  match Qnum q with
  | Z0 => 0%Q
  | Zpos _ => Qred (roundPositive q)
  | Zneg _ => Qred (- roundPositive (- q))
  end.

(** [x + y], [x - y], [x * y] and [x / y] on doubles. *)
Definition add (x y : Q) : Q := round (x + y).
Definition sub (x y : Q) : Q := round (x - y).
Definition mul (x y : Q) : Q := round (x * y).
Definition div (x y : Q) : Q := round (x / y).

(** The rational is the value of a double. *)
Definition isDouble (q : Q) : Prop := (round q == q)%Q.

End Double.

(* ===================================================================== *)
(** ** tokenBucketRateLimiter.ts *)
(* ===================================================================== *)

Module TokenBucket.

Record TokenBucketConfig := {
  cfg_capacity : Q;
  cfg_refillRate : Q;
  cfg_refillInterval : Z;
  cfg_initialTokens : option Q
}.

Record TokenBucketRateLimiter := {
  tokens : Q;
  lastRefill : Z;
  capacity : Q;
  refillRate : Q;
  refillInterval : Z
}.

(** [this.tokens = config.initialTokens ?? config.capacity] *)
Definition constructor (now : Z) (config : TokenBucketConfig) : TokenBucketRateLimiter :=
  {| tokens := match cfg_initialTokens config with
               | Some t => t
               | None => cfg_capacity config
               end;
     lastRefill := now;
     capacity := cfg_capacity config;
     refillRate := cfg_refillRate config;
     refillInterval := cfg_refillInterval config |}.

Definition set_tokens (b : TokenBucketRateLimiter) (t : Q) : TokenBucketRateLimiter :=
  {| tokens := t; lastRefill := lastRefill b; capacity := capacity b;
     refillRate := refillRate b; refillInterval := refillInterval b |}.

(** [(timePassed / 1000) * this.refillRate], a quotient and a product of
    doubles; [timePassed] is the difference of two timestamps. *)
Definition accrued (now : Z) (b : TokenBucketRateLimiter) : Q :=
  let timePassed := now - lastRefill b in
  Double.mul (Double.div (inject_Z timePassed) 1000) (refillRate b).

(** [Math.floor((timePassed / 1000) * this.refillRate)] *)
Definition tokensToAdd (now : Z) (b : TokenBucketRateLimiter) : Z :=
  Qfloor (accrued now b).

Definition refillTokens (now : Z) (b : TokenBucketRateLimiter) : TokenBucketRateLimiter :=
  let add := tokensToAdd now b in
  if 0 <? add then
    {| tokens := Qmin (capacity b) (Double.add (tokens b) (inject_Z add));
       lastRefill := now;
       capacity := capacity b;
       refillRate := refillRate b;
       refillInterval := refillInterval b |}
  else b.

Definition canConsume (now : Z) (n : Q) (b : TokenBucketRateLimiter)
  : bool * TokenBucketRateLimiter :=
  let b' := refillTokens now b in
  (Qle_bool n (tokens b'), b').

Definition consume (now : Z) (n : Q) (b : TokenBucketRateLimiter)
  : bool * TokenBucketRateLimiter :=
  let '(ok, b') := canConsume now n b in
  if ok then (true, set_tokens b' (Double.sub (tokens b') n)) else (false, b').

Definition getAvailableTokens (now : Z) (b : TokenBucketRateLimiter)
  : Q * TokenBucketRateLimiter :=
  let b' := refillTokens now b in (tokens b', b').

(** [x < y] on numbers, as a boolean. *)
Definition Qlt_bool (x y : Q) : bool := negb (Qle_bool y x).

(** [Math.ceil(tokensNeeded * timePerToken)] with [tokensNeeded = 1] and
    [timePerToken = 1000 / this.refillRate]. *)
Definition advertisedWait (b : TokenBucketRateLimiter) : Z :=
  let tokensNeeded := 1%Q in
  let timePerToken := Double.div 1000 (refillRate b) in
  Qceiling (Double.mul tokensNeeded timePerToken).

Definition getTimeUntilNextToken (b : TokenBucketRateLimiter) : Z :=
  if Qlt_bool 0 (tokens b) then 0 else advertisedWait b.

(** The refill timer and other callers run [refillTokens] at arbitrary
    instants between two consumptions. *)
Definition refillsAt (ts : list Z) (b : TokenBucketRateLimiter) : TokenBucketRateLimiter :=
  fold_left (fun acc u => refillTokens u acc) ts b.

(** [SPORTRADAR_RATE_LIMITS]; the trial rate is the double [1 / 90]. *)
Definition SPORTRADAR_RATE_LIMITS_trial : TokenBucketConfig :=
  {| cfg_capacity := 1; cfg_refillRate := Double.div 1 90; cfg_refillInterval := 1000;
     cfg_initialTokens := Some 1%Q |}.

Definition SPORTRADAR_RATE_LIMITS_production : TokenBucketConfig :=
  {| cfg_capacity := 10; cfg_refillRate := 5; cfg_refillInterval := 200;
     cfg_initialTokens := Some 5%Q |}.

(** The refill formula in the words of the specification: the elapsed
    seconds times the rate, fractions included, capped at the capacity. *)
Definition continuousRefill (now : Z) (b : TokenBucketRateLimiter) : Q :=
  Qmin (capacity b)
       (tokens b + (inject_Z (now - lastRefill b) / 1000) * refillRate b)%Q.

(** The exact product of the elapsed seconds and the rate. *)
Definition exactAccrual (now : Z) (b : TokenBucketRateLimiter) : Q :=
  (inject_Z (now - lastRefill b) / 1000 * refillRate b)%Q.

(** A token count that is a whole, non-negative number. *)
Definition wholeTokens (b : TokenBucketRateLimiter) : Prop :=
  exists k : Z, 0 <= k /\ (tokens b == inject_Z k)%Q.

(** The rate is one at which the advertised wait accrues a whole token:
    the product that a refill computes once [advertisedWait] has passed
    reaches 1.  This holds for the rates 1/90 and 5 of the shipped
    configurations and fails for a rate such as 1/161, where 161 times the
    double 1/161 is below 1. *)
Definition waitAccruesToken (b : TokenBucketRateLimiter) : Prop :=
  (1 <= Double.mul (Double.div (inject_Z (advertisedWait b)) 1000) (refillRate b))%Q.

(** A bucket of capacity 1, empty, with the given rate. *)
Definition emptyBucket (rate : Q) : TokenBucketRateLimiter :=
  {| tokens := 0; lastRefill := 0; capacity := 1; refillRate := rate;
     refillInterval := 1000 |}.

End TokenBucket.

(* ===================================================================== *)
(** ** advancedRateLimiter.ts *)
(* ===================================================================== *)

Module AdvancedRateLimiter.

(** What a rejected promise carries: [error.status] and [error.message]. *)
Record RequestError := {
  status : option Z;
  message : option string
}.

(** How a call of [requestFn] settles. *)
Inductive Settled :=
| Fulfilled (value : Z)
| Failed (error : RequestError).

(** The closures [resolve], [reject] and [requestFn] of a queued request
    are represented by the identity [requestId] of the caller they belong
    to. *)
Record QueuedRequest := {
  requestId : nat;
  retryCount : Z;
  timestamp : Z
}.

Record AdvancedRateLimiter := {
  tokenBucket : TokenBucket.TokenBucketRateLimiter;
  requestQueue : list QueuedRequest;
  isProcessing : bool;
  circuitBreakerFailures : Z;
  circuitBreakerThreshold : Z;
  circuitBreakerResetTime : Z;
  lastCircuitBreakerTrip : Z;
  maxRetries : Z
}.

(** Observable effects of the limiter on its callers. *)
Inductive Event :=
| Executed (id : nat)                       (* request.requestFn() was called *)
| Resolved (id : nat) (value : Z)           (* request.resolve(result) *)
| Rejected (id : nat) (error : RequestError)(* request.reject(error) *)
| RetryScheduled (r : QueuedRequest).       (* setTimeout(() => unshift(request)) *)

(** The constructor ignores [requestsPerSecond] and [bucketCapacity]: the
    bucket is always built from the trial limits. *)
Definition constructor (now : Z) (requestsPerSecond : Q) (bucketCapacity : Q)
    (maxRetries_arg : Z) : AdvancedRateLimiter :=
  {| tokenBucket := TokenBucket.constructor now TokenBucket.SPORTRADAR_RATE_LIMITS_trial;
     requestQueue := [];
     isProcessing := false;
     circuitBreakerFailures := 0;
     circuitBreakerThreshold := 5;
     circuitBreakerResetTime := 300000;
     lastCircuitBreakerTrip := 0;
     maxRetries := maxRetries_arg |}.

Definition set_breaker (st : AdvancedRateLimiter) (failures trip : Z) : AdvancedRateLimiter :=
  {| tokenBucket := tokenBucket st;
     requestQueue := requestQueue st;
     isProcessing := isProcessing st;
     circuitBreakerFailures := failures;
     circuitBreakerThreshold := circuitBreakerThreshold st;
     circuitBreakerResetTime := circuitBreakerResetTime st;
     lastCircuitBreakerTrip := trip;
     maxRetries := maxRetries st |}.

Definition set_queue (st : AdvancedRateLimiter) (q : list QueuedRequest) : AdvancedRateLimiter :=
  {| tokenBucket := tokenBucket st;
     requestQueue := q;
     isProcessing := isProcessing st;
     circuitBreakerFailures := circuitBreakerFailures st;
     circuitBreakerThreshold := circuitBreakerThreshold st;
     circuitBreakerResetTime := circuitBreakerResetTime st;
     lastCircuitBreakerTrip := lastCircuitBreakerTrip st;
     maxRetries := maxRetries st |}.

Definition set_bucket (st : AdvancedRateLimiter) (b : TokenBucket.TokenBucketRateLimiter)
  : AdvancedRateLimiter :=
  {| tokenBucket := b;
     requestQueue := requestQueue st;
     isProcessing := isProcessing st;
     circuitBreakerFailures := circuitBreakerFailures st;
     circuitBreakerThreshold := circuitBreakerThreshold st;
     circuitBreakerResetTime := circuitBreakerResetTime st;
     lastCircuitBreakerTrip := lastCircuitBreakerTrip st;
     maxRetries := maxRetries st |}.

Definition set_processing (st : AdvancedRateLimiter) (p : bool) : AdvancedRateLimiter :=
  {| tokenBucket := tokenBucket st;
     requestQueue := requestQueue st;
     isProcessing := p;
     circuitBreakerFailures := circuitBreakerFailures st;
     circuitBreakerThreshold := circuitBreakerThreshold st;
     circuitBreakerResetTime := circuitBreakerResetTime st;
     lastCircuitBreakerTrip := lastCircuitBreakerTrip st;
     maxRetries := maxRetries st |}.

Definition isCircuitBreakerOpen (now : Z) (st : AdvancedRateLimiter)
  : bool * AdvancedRateLimiter :=
  if circuitBreakerThreshold st <=? circuitBreakerFailures st then
    let timeSinceTrip := now - lastCircuitBreakerTrip st in
    if timeSinceTrip <? circuitBreakerResetTime st then (true, st)
    else (false, set_breaker st 0 0)
  else (false, st).

(** ASCII part of [String.prototype.toLowerCase]. *)
Definition lowerAscii (c : ascii) : ascii :=
  let n := nat_of_ascii c in
  if ((65 <=? n)%nat && (n <=? 90)%nat)%bool then ascii_of_nat (n + 32) else c.

Fixpoint toLowerCase (s : string) : string :=
  match s with
  | EmptyString => EmptyString
  | String c s' => String (lowerAscii c) (toLowerCase s')
  end.

(** [s.includes(needle)] *)
Fixpoint includes (needle s : string) : bool :=
  if String.prefix needle s then true
  else match s with
       | EmptyString => false
       | String _ s' => includes needle s'
       end.

(** [error.status === 429 ||
     (error.message && error.message.toLowerCase().includes("rate limit"))] *)
Definition isRateLimitError (error : RequestError) : bool :=
  (match status error with
   | Some s => s =? 429
   | None => false
   end
   || match message error with
      | Some m => includes "rate limit" (toLowerCase m)
      | None => false
      end)%bool.

(** The tail of [handleRequestError]: the failure is counted against the
    breaker and the trip time is stamped while the count is at or above
    the threshold. *)
Definition recordFailure (now : Z) (st : AdvancedRateLimiter) : AdvancedRateLimiter :=
  let failures := circuitBreakerFailures st + 1 in
  if circuitBreakerThreshold st <=? failures
  then set_breaker st failures now
  else set_breaker st failures (lastCircuitBreakerTrip st).

(** [handleRequestError].  The backoff delay computed for a retry only
    decides when the timer fires; the re-queueing itself is the separate
    step [retryFires]. *)
Definition handleRequestError (now : Z) (request : QueuedRequest) (error : RequestError)
    (st : AdvancedRateLimiter) : list Event * AdvancedRateLimiter :=
  if (isRateLimitError error && (retryCount request <? maxRetries st))%bool then
    ([RetryScheduled {| requestId := requestId request;
                        retryCount := retryCount request + 1;
                        timestamp := timestamp request |}], st)
  else
    ([Rejected (requestId request) error], recordFailure now st).

(** The success branch of the drain loop: [this.circuitBreakerFailures = 0]. *)
Definition recordSuccess (st : AdvancedRateLimiter) : AdvancedRateLimiter :=
  set_breaker st 0 (lastCircuitBreakerTrip st).

(** [waitForToken]: poll [consume(1)], sleeping [getTimeUntilNextToken()]
    after each refusal.  The timer is taken to fire exactly when due; the
    result is the instant at which the token was obtained.  [None] when the
    bound on polls is exhausted. *)
Fixpoint waitForToken (polls : nat) (now : Z) (b : TokenBucket.TokenBucketRateLimiter)
  : option (Z * TokenBucket.TokenBucketRateLimiter) :=
  match polls with
  | O => None
  | S polls' =>
      let '(ok, b') := TokenBucket.consume now 1 b in
      if ok then Some (now, b')
      else waitForToken polls' (now + TokenBucket.getTimeUntilNextToken b') b'
  end.

(** The body of the [while] loop of [processQueue] for the request that
    was shifted off the queue.  [run] tells how the request's call
    settles. *)
Definition processRequest (run : QueuedRequest -> Settled) (polls : nat) (now : Z)
    (request : QueuedRequest) (st : AdvancedRateLimiter)
  : option (list Event * Z * AdvancedRateLimiter) :=
  match waitForToken polls now (tokenBucket st) with
  | None => None
  | Some (now', b') =>
      let st1 := set_bucket st b' in
      match run request with
      | Fulfilled v =>
          Some ([Executed (requestId request); Resolved (requestId request) v],
                now', recordSuccess st1)
      | Failed e =>
          let '(evs, st2) := handleRequestError now' request e st1 in
          Some (Executed (requestId request) :: evs, now', st2)
      end
  end.

(** [while (this.requestQueue.length > 0) { shift; ... }], run to the end
    of the queue it finds. *)
Fixpoint drain (run : QueuedRequest -> Settled) (polls : nat) (now : Z)
    (queue : list QueuedRequest) (st : AdvancedRateLimiter)
  : option (list Event * Z * AdvancedRateLimiter) :=
  match queue with
  | [] => Some ([], now, st)
  | request :: rest =>
      match processRequest run polls now request (set_queue st rest) with
      | None => None
      | Some (evs, now', st') =>
          match drain run polls now' rest st' with
          | None => None
          | Some (evs', now'', st'') => Some (evs ++ evs', now'', st'')
          end
      end
  end.

Definition processQueue (run : QueuedRequest -> Settled) (polls : nat) (now : Z)
    (st : AdvancedRateLimiter) : option (list Event * Z * AdvancedRateLimiter) :=
  if (isProcessing st || (length (requestQueue st) =? 0)%nat)%bool then Some ([], now, st)
  else
    match drain run polls now (requestQueue st) (set_processing st true) with
    | None => None
    | Some (evs, now', st') => Some (evs, now', set_processing st' false)
    end.

Definition circuitOpenError : RequestError :=
  {| status := None;
     message := Some "Circuit breaker is open. Too many consecutive failures."%string |}.

(** [makeRequest]: the breaker is consulted on admission only. *)
Definition makeRequest (run : QueuedRequest -> Settled) (polls : nat) (now : Z)
    (id : nat) (st : AdvancedRateLimiter)
  : option (list Event * Z * AdvancedRateLimiter) :=
  let '(open, st1) := isCircuitBreakerOpen now st in
  if open then Some ([Rejected id circuitOpenError], now, st1)
  else
    let queuedRequest := {| requestId := id; retryCount := 0; timestamp := now |} in
    processQueue run polls now (set_queue st1 (requestQueue st1 ++ [queuedRequest])).

(** The retry timer: [this.requestQueue.unshift(request); this.processQueue()]. *)
Definition retryFires (run : QueuedRequest -> Settled) (polls : nat) (now : Z)
    (request : QueuedRequest) (st : AdvancedRateLimiter)
  : option (list Event * Z * AdvancedRateLimiter) :=
  processQueue run polls now (set_queue st (request :: requestQueue st)).

(** Failure recordings in a row, one at each of the given instants. *)
Definition recordFailures (times : list Z) (st : AdvancedRateLimiter) : AdvancedRateLimiter :=
  fold_left (fun acc t => recordFailure t acc) times st.

(** A call of [handleRequestError]: the instant, the request whose call
    failed and the error it failed with. *)
Record FailedCall := {
  failedAt : Z;
  failedRequest : QueuedRequest;
  failure : RequestError
}.

(** The error is counted against the breaker: it is not a rate-limit
    error of a request that has retries left.  (Such an error is retried
    and leaves the breaker alone.) *)
Definition counted (st : AdvancedRateLimiter) (c : FailedCall) : bool :=
  negb (isRateLimitError (failure c)
        && (retryCount (failedRequest c) <? maxRetries st)).

(** Calls of [handleRequestError] in a row, no success in between. *)
Definition handleFailures (calls : list FailedCall) (st : AdvancedRateLimiter)
  : AdvancedRateLimiter :=
  fold_left (fun acc c =>
               snd (handleRequestError (failedAt c) (failedRequest c) (failure c) acc))
            calls st.

Definition wasExecuted (id : nat) (evs : list Event) : bool :=
  existsb (fun e => match e with Executed i => (i =? id)%nat | _ => false end) evs.

(** A bucket the limiter can wait on: whole token count, room for one
    token, a positive rate at which the advertised wait accrues a token
    (the trial rate, the only one the constructor uses, is such a rate),
    last refilled no later than [now]. *)
Definition bucketReady (now : Z) (b : TokenBucket.TokenBucketRateLimiter) : Prop :=
  (1 <= TokenBucket.capacity b)%Q /\ (0 < TokenBucket.refillRate b)%Q /\
  TokenBucket.wholeTokens b /\ TokenBucket.waitAccruesToken b /\
  TokenBucket.lastRefill b <= now.

(** A scenario: every call answers with a server error. *)
Definition serverError : RequestError :=
  {| status := Some 500; message := Some "Request failed with status code 500"%string |}.

Definition alwaysFails (_ : QueuedRequest) : Settled := Failed serverError.

Definition queued (id : nat) : QueuedRequest :=
  {| requestId := id; retryCount := 0; timestamp := 0 |}.

(** The call of request [id] failed at instant [t] with a server error. *)
Definition serverErrorAt (t : Z) (id : nat) : FailedCall :=
  {| failedAt := t; failedRequest := queued id; failure := serverError |}.

(** The limiter of the API client, created at instant 0. *)
Definition clientLimiter : AdvancedRateLimiter := constructor 0 (Double.div 1 90) 1 1.

End AdvancedRateLimiter.

(* ===================================================================== *)
(** ** EnhancedRateLimiter: priority scheduling *)
(* ===================================================================== *)

Module EnhancedRateLimiter.

(** A queue entry; [caller] stands for the closures [execute], [resolve]
    and [reject]. *)
Record Request := {
  priority : Z;
  caller : nat;
  endpoint : string;
  timestamp : Z
}.

(** The fields [scheduleRequest] reads or writes. *)
Record EnhancedRateLimiter := {
  requestQueue : list Request;
  circuitBreakerOpen : bool;
  circuitBreakerOpenTime : Z;
  circuitBreakerTimeout : Z
}.

Definition initial : EnhancedRateLimiter :=
  {| requestQueue := [];
     circuitBreakerOpen := false;
     circuitBreakerOpenTime := 0;
     circuitBreakerTimeout := 300000 |}.

(** [Array.prototype.findIndex]; [None] is the JavaScript [-1]. *)
Fixpoint findIndex {A : Type} (p : A -> bool) (l : list A) : option nat :=
  match l with
  | [] => None
  | x :: l' => if p x then Some O
               else match findIndex p l' with
                    | Some i => Some (S i)
                    | None => None
                    end
  end.

(** [l.splice(i, 0, x)] *)
Definition splice0 {A : Type} (i : nat) (x : A) (l : list A) : list A :=
  firstn i l ++ x :: skipn i l.

(** [Array.prototype.shift] *)
Definition shift {A : Type} (l : list A) : option A * list A :=
  match l with
  | [] => (None, [])
  | x :: l' => (Some x, l')
  end.

(** The queue insertion of [scheduleRequest]. *)
Definition enqueue (request : Request) (queue : list Request) : list Request :=
  match findIndex (fun r => priority r <? priority request) queue with
  | None => queue ++ [request]
  | Some insertIndex => splice0 insertIndex request queue
  end.

(** [scheduleRequest]; [None] is the immediately rejected promise of an
    open breaker. *)
Definition scheduleRequest (now : Z) (requestFn : nat) (endpoint_arg : string)
    (priority_arg : Z) (st : EnhancedRateLimiter) : option EnhancedRateLimiter :=
  if (circuitBreakerOpen st
      && (now - circuitBreakerOpenTime st <? circuitBreakerTimeout st))%bool
  then None
  else
    let request := {| priority := priority_arg; caller := requestFn;
                      endpoint := endpoint_arg; timestamp := now |} in
    Some {| requestQueue := enqueue request (requestQueue st);
            circuitBreakerOpen := circuitBreakerOpen st;
            circuitBreakerOpenTime := circuitBreakerOpenTime st;
            circuitBreakerTimeout := circuitBreakerTimeout st |}.

(** A call of [scheduleRequest]: the instant and the three arguments. *)
Record Call := {
  at_time : Z;
  call_fn : nat;
  call_endpoint : string;
  call_priority : Z
}.

Definition requestOf (c : Call) : Request :=
  {| priority := call_priority c; caller := call_fn c;
     endpoint := call_endpoint c; timestamp := at_time c |}.

Fixpoint scheduleAll (calls : list Call) (st : EnhancedRateLimiter)
  : option EnhancedRateLimiter :=
  match calls with
  | [] => Some st
  | c :: calls' =>
      match scheduleRequest (at_time c) (call_fn c) (call_endpoint c) (call_priority c) st with
      | None => None
      | Some st' => scheduleAll calls' st'
      end
  end.

(** The order in which the drain loop takes requests off a queue that
    receives no further insertions: one [shift] per round. *)
Fixpoint dispatchOrder (rounds : nat) (queue : list Request) : list Request :=
  match rounds with
  | O => []
  | S rounds' =>
      match shift queue with
      | (Some r, queue') => r :: dispatchOrder rounds' queue'
      | (None, _) => []
      end
  end.

Definition dispatched (st : EnhancedRateLimiter) : list Request :=
  dispatchOrder (length (requestQueue st)) (requestQueue st).

(** The insertion of [enqueue] as one pass over the queue: before the
    first entry of lower priority, or at the end. *)
Fixpoint insertBeforeLower (request : Request) (queue : list Request) : list Request :=
  match queue with
  | [] => [request]
  | r :: queue' =>
      if priority r <? priority request then request :: r :: queue'
      else r :: insertBeforeLower request queue'
  end.

Definition hasPriority (p : Z) (r : Request) : bool := priority r =? p.

(** A call for the competitions endpoint by caller [who] with priority [p]. *)
Definition callWith (t : Z) (who : nat) (p : Z) : Call :=
  {| at_time := t; call_fn := who; call_endpoint := "/competitions.json"; call_priority := p |}.

(** Higher priority first. *)
Definition notBelow (a b : Request) : Prop := priority b <= priority a.

End EnhancedRateLimiter.

(* ===================================================================== *)
(** ** CacheManager *)
(* ===================================================================== *)

Module CacheManager.

Record CacheEntry := {
  data : Z;
  timestamp : Z;
  expiresAt : Z;
  accessCount : Z;
  lastAccessed : Z
}.

Record CacheConfig := {
  defaultTTL : Z;
  maxSize : Z;
  compressionEnabled : bool
}.

(** A JavaScript [Map<string, CacheEntry>]: iteration follows insertion
    order and [set] on a present key keeps its place, so the map is a
    list of bindings with distinct keys. *)
Definition JsMap := list (string * CacheEntry).

Fixpoint map_get (key : string) (m : JsMap) : option CacheEntry :=
  match m with
  | [] => None
  | (k, e) :: m' => if String.eqb key k then Some e else map_get key m'
  end.

Fixpoint map_set (key : string) (entry : CacheEntry) (m : JsMap) : JsMap :=
  match m with
  | [] => [(key, entry)]
  | (k, e) :: m' =>
      if String.eqb key k then (k, entry) :: m' else (k, e) :: map_set key entry m'
  end.

Fixpoint map_delete (key : string) (m : JsMap) : JsMap :=
  match m with
  | [] => []
  | (k, e) :: m' => if String.eqb key k then m' else (k, e) :: map_delete key m'
  end.

Definition map_size (m : JsMap) : Z := Z.of_nat (length m).

Record CacheManager := {
  cache : JsMap;
  config : CacheConfig
}.

Definition defaultConfig : CacheConfig :=
  {| defaultTTL := 5 * 60 * 1000; maxSize := 1000; compressionEnabled := false |}.

Definition with_cache (c : CacheManager) (m : JsMap) : CacheManager :=
  {| cache := m; config := config c |}.

(** The scan of [evictOldest]: the pair [(oldestKey, oldestTime)] after the
    [for] loop, started from [('', Date.now())]. *)
Definition scanStep (acc : string * Z) (kv : string * CacheEntry) : string * Z :=
  if lastAccessed (snd kv) <? snd acc then (fst kv, lastAccessed (snd kv)) else acc.

Definition oldestScan (now : Z) (m : JsMap) : string * Z :=
  fold_left scanStep m (EmptyString, now).

(** [if (oldestKey)]: the empty string is falsy. *)
Definition truthy (s : string) : bool :=
  match s with EmptyString => false | _ => true end.

Definition evictOldest (now : Z) (m : JsMap) : JsMap :=
  let oldestKey := fst (oldestScan now m) in
  if truthy oldestKey then map_delete oldestKey m else m.

(** [set].  [now] is the clock read at the top of [set], [now_evict] the
    one read inside [evictOldest]; [ttl] is [None] when omitted.  The write
    to [localStorage] does not touch the map. *)
Definition set (now now_evict : Z) (key : string) (value : Z) (ttl : option Z)
    (c : CacheManager) : CacheManager :=
  let timeToLive := match ttl with
                    | Some t => if t =? 0 then defaultTTL (config c) else t
                    | None => defaultTTL (config c)
                    end in
  let m := if maxSize (config c) <=? map_size (cache c)
           then evictOldest now_evict (cache c) else cache c in
  let entry := {| data := value; timestamp := now; expiresAt := now + timeToLive;
                  accessCount := 0; lastAccessed := now |} in
  with_cache c (map_set key entry m).

Definition get (now : Z) (key : string) (c : CacheManager) : option Z * CacheManager :=
  match map_get key (cache c) with
  | None => (None, c)
  | Some entry =>
      if expiresAt entry <? now then (None, with_cache c (map_delete key (cache c)))
      else
        let entry' := {| data := data entry; timestamp := timestamp entry;
                         expiresAt := expiresAt entry;
                         accessCount := accessCount entry + 1;
                         lastAccessed := now |} in
        (Some (data entry), with_cache c (map_set key entry' (cache c)))
  end.

Definition has (now : Z) (key : string) (c : CacheManager) : bool * CacheManager :=
  match map_get key (cache c) with
  | None => (false, c)
  | Some entry =>
      if expiresAt entry <? now then (false, with_cache c (map_delete key (cache c)))
      else (true, c)
  end.

Definition delete (key : string) (c : CacheManager) : bool * CacheManager :=
  match map_get key (cache c) with
  | None => (false, c)
  | Some _ => (true, with_cache c (map_delete key (cache c)))
  end.

Definition clear (c : CacheManager) : CacheManager := with_cache c [].

Definition cleanupExpired (now : Z) (c : CacheManager) : CacheManager :=
  with_cache c (List.filter (fun kv => negb (expiresAt (snd kv) <? now)) (cache c)).

(** An empty cache with the given bound. *)
Definition emptyCache (bound : Z) : CacheManager :=
  {| cache := [];
     config := {| defaultTTL := 5 * 60 * 1000; maxSize := bound;
                  compressionEnabled := false |} |}.

(** All entries were last touched before [now]. *)
Definition touchedBefore (now : Z) (m : JsMap) : Prop :=
  Forall (fun kv => lastAccessed (snd kv) < now) m.

(** No binding is stored under the empty key. *)
Definition keysNonEmpty (m : JsMap) : Prop :=
  Forall (fun kv => truthy (fst kv) = true) m.

End CacheManager.

(* ===================================================================== *)
(** ** RequestDeduplicator *)
(* ===================================================================== *)

Module RequestDeduplicator.

(** How a promise settles. *)
Inductive Outcome :=
| Value (v : Z)
| Error (e : Z).

(** [promise] is the identity of the promise built by
    [requestFn().finally(...)]. *)
Record PendingRequest := {
  promise : nat;
  timestamp : Z
}.

(** The deduplicator and the promises it has created.  Entry [i] of
    [issued] is promise [i]: the key its [finally] callback captured and
    its outcome once settled.  Every entry is one call of a factory. *)
Record RequestDeduplicator := {
  pendingRequests : gmap string PendingRequest;
  issued : list (string * option Outcome)
}.

Definition requestTTL : Z := 30000.

Definition empty : RequestDeduplicator :=
  {| pendingRequests := ∅; issued := [] |}.

(** Entries with [now - request.timestamp > requestTTL] are deleted. *)
Definition cleanupExpiredRequests (now : Z) (m : gmap string PendingRequest)
  : gmap string PendingRequest :=
  filter (fun kr : string * PendingRequest => now - timestamp (snd kr) <= requestTTL) m.

(** [deduplicate(key, requestFn)]: the promise whose outcome the caller
    receives, and the new state.  The clock reads of one call give the
    same instant. *)
Definition deduplicate (now : Z) (key : string) (st : RequestDeduplicator)
  : nat * RequestDeduplicator :=
  let pending := cleanupExpiredRequests now (pendingRequests st) in
  match pending !! key with
  | Some existing =>
      (promise existing, {| pendingRequests := pending; issued := issued st |})
  | None =>
      let p := length (issued st) in
      (p, {| pendingRequests := <[key := {| promise := p; timestamp := now |}]> pending;
             issued := issued st ++ [(key, None)] |})
  end.

(** The underlying future of promise [p] settles: the [finally] callback
    deletes the key it captured, then the promise takes the outcome. *)
Definition settle (p : nat) (o : Outcome) (st : RequestDeduplicator) : RequestDeduplicator :=
  match issued st !! p with
  | Some (key, None) =>
      {| pendingRequests := delete key (pendingRequests st);
         issued := <[p := (key, Some o)]> (issued st) |}
  | _ => st
  end.

(** What a caller awaiting promise [p] has received. *)
Definition received (p : nat) (st : RequestDeduplicator) : option Outcome :=
  match issued st !! p with
  | Some (_, o) => o
  | None => None
  end.

(** How often a factory was called for [key]. *)
Definition invocations (key : string) (st : RequestDeduplicator) : nat :=
  length (List.filter (fun ko : string * option Outcome => String.eqb key (fst ko)) (issued st)).

(** What happens between two calls. *)
Inductive Op :=
| Call (now : Z) (key : string)
| Settle (p : nat) (o : Outcome).

Definition step (op : Op) (st : RequestDeduplicator) : RequestDeduplicator :=
  match op with
  | Call now key => snd (deduplicate now key st)
  | Settle p o => settle p o st
  end.

Definition run (ops : list Op) (st : RequestDeduplicator) : RequestDeduplicator :=
  fold_left (fun acc op => step op acc) ops st.

(** The key captured by promise [p]. *)
Definition keyOf (p : nat) (st : RequestDeduplicator) : option string :=
  fst <$> issued st !! p.

(** An intervening operation that leaves the registration made for [key]
    at instant [t1] alone: a call no later than [requestTTL] after [t1],
    or the settling of a promise of another key. *)
Definition quiet (key : string) (t1 : Z) (st : RequestDeduplicator) (op : Op) : Prop :=
  match op with
  | Call now _ => now - t1 <= requestTTL
  | Settle p _ => keyOf p st <> Some key
  end.

Fixpoint allQuiet (key : string) (t1 : Z) (ops : list Op) (st : RequestDeduplicator) : Prop :=
  match ops with
  | [] => True
  | op :: ops' => quiet key t1 st op /\ allQuiet key t1 ops' (step op st)
  end.

(** What a registering call leaves behind: the key is registered for
    promise [p] since [t1], the promise is still pending, and [n]
    factories were called for the key. *)
Definition registered (key : string) (p : nat) (t1 : Z) (n : nat)
    (st : RequestDeduplicator) : Prop :=
  pendingRequests st !! key = Some {| promise := p; timestamp := t1 |} /\
  issued st !! p = Some (key, None) /\
  invocations key st = n.

End RequestDeduplicator.

(* ===================================================================== *)
(** ** APIMonitor *)
(* ===================================================================== *)

Module APIMonitor.

Inductive Status := success | error | rate_limited.

Definition Status_eqb (a b : Status) : bool :=
  match a, b with
  | success, success | error, error | rate_limited, rate_limited => true
  | _, _ => false
  end.

(** The [Error] handed to [recordRequest]: its message and, for an
    [APIError], its status. *)
Record ErrorInfo := {
  error_message : string;
  error_status : option Z
}.

Record LastError := {
  le_message : string;
  le_status : option Z;
  le_timestamp : Z;
  le_endpoint : string
}.

Record HistoryEntry := {
  h_endpoint : string;
  h_status : Status;
  h_responseTime : Z;
  h_timestamp : Z;
  h_error : option string
}.

Record APIMetrics := {
  totalRequests : Z;
  successfulRequests : Z;
  failedRequests : Z;
  rateLimitHits : Z;
  averageResponseTime : Q;
  lastError : option LastError;
  requestHistory : list HistoryEntry
}.

Definition maxHistorySize : nat := 100.

Definition zeroed : APIMetrics :=
  {| totalRequests := 0;
     successfulRequests := 0;
     failedRequests := 0;
     rateLimitHits := 0;
     averageResponseTime := 0;
     lastError := None;
     requestHistory := [] |}.

(** [recordRequest(endpoint, startTime, status, error?)] at instant [now].
    The running average is updated in double arithmetic: a product, a sum
    and a quotient, each rounded. *)
Definition recordRequest (now : Z) (endpoint : string) (startTime : Z) (status : Status)
    (err : option ErrorInfo) (m : APIMetrics) : APIMetrics :=
  let responseTime := now - startTime in
  let total := totalRequests m + 1 in
  let successful := if Status_eqb status success
                    then successfulRequests m + 1 else successfulRequests m in
  let failed := if Status_eqb status success
                then failedRequests m else failedRequests m + 1 in
  let hits := if Status_eqb status rate_limited
              then rateLimitHits m + 1 else rateLimitHits m in
  let totalResponseTime :=
    Double.add (Double.mul (averageResponseTime m) (inject_Z (total - 1)))
               (inject_Z responseTime) in
  let history :=
    {| h_endpoint := endpoint; h_status := status; h_responseTime := responseTime;
       h_timestamp := now; h_error := option_map error_message err |}
    :: requestHistory m in
  {| totalRequests := total;
     successfulRequests := successful;
     failedRequests := failed;
     rateLimitHits := hits;
     averageResponseTime := Double.div totalResponseTime (inject_Z total);
     lastError := match err with
                  | Some e => Some {| le_message := error_message e;
                                      le_status := error_status e;
                                      le_timestamp := now;
                                      le_endpoint := endpoint |}
                  | None => lastError m
                  end;
     requestHistory := if (maxHistorySize <? length history)%nat
                       then firstn maxHistorySize history else history |}.

(** One call of [recordRequest]. *)
Record Recording := {
  r_now : Z;
  r_endpoint : string;
  r_startTime : Z;
  r_status : Status;
  r_error : option ErrorInfo
}.

Definition duration (r : Recording) : Z := r_now r - r_startTime r.

Definition record (m : APIMetrics) (r : Recording) : APIMetrics :=
  recordRequest (r_now r) (r_endpoint r) (r_startTime r) (r_status r) (r_error r) m.

Definition recordAll (rs : list Recording) (m : APIMetrics) : APIMetrics :=
  fold_left record rs m.

Definition sumDurations (rs : list Recording) : Z :=
  fold_right (fun r acc => duration r + acc) 0 rs.

(** Arithmetic mean of the durations of [rs]. *)
Definition meanDuration (rs : list Recording) : Q :=
  (inject_Z (sumDurations rs) / inject_Z (Z.of_nat (length rs)))%Q.

Definition successes (rs : list Recording) : list Recording :=
  List.filter (fun r => Status_eqb (r_status r) success) rs.

(** A successful call that took [d] milliseconds. *)
Definition took (d : Z) : Recording :=
  {| r_now := d; r_endpoint := "/competitions.json"; r_startTime := 0;
     r_status := success; r_error := None |}.

End APIMonitor.

(* ===================================================================== *)
(** ** sportradarAPI.ts: key validation and error classification *)
(* ===================================================================== *)

Module SportradarAPI.

Record APIError := {
  message : string;
  status : option Z;
  code : option string;
  retryAfter : option (option Z)   (* [Some None] is [NaN] *)
}.

(** A JavaScript string as its UTF-16 code units. *)
Definition JsString := list N.

(** WhiteSpace and LineTerminator code points, as stripped by
    [String.prototype.trim]. *)
Definition isWhiteSpace (c : N) : bool :=
  ((c =? 9) || (c =? 10) || (c =? 11) || (c =? 12) || (c =? 13) || (c =? 32)
   || (c =? 160) || (c =? 5760) || ((8192 <=? c) && (c <=? 8202))
   || (c =? 8232) || (c =? 8233) || (c =? 8239) || (c =? 8287)
   || (c =? 12288) || (c =? 65279))%N%bool.

Fixpoint trimStart (s : JsString) : JsString :=
  match s with
  | [] => []
  | c :: s' => if isWhiteSpace c then trimStart s' else s
  end.

Definition trimEnd (s : JsString) : JsString := rev (trimStart (rev s)).

Definition trim (s : JsString) : JsString := trimEnd (trimStart s).

Definition isEmpty (s : JsString) : bool :=
  match s with [] => true | _ => false end.

(** Empty, or nothing but white space. *)
Definition blank (s : JsString) : bool := forallb isWhiteSpace s.

(** What the client does besides building objects.  The constructor
    creates the limiter, fetches the three singletons, logs and calls
    [axios.create]; [HttpGet] is the only effect that reaches the network
    and belongs to [request]. *)
Inductive Effect :=
| NewRateLimiter
| GetInstance (service : string)
| ConsoleError (text : string)
| AxiosCreate (baseURL : string)
| HttpGet (url : string).

Definition services : list Effect :=
  [NewRateLimiter; GetInstance "APIMonitor"; GetInstance "CacheManager";
   GetInstance "RequestDeduplicator"].

Definition isHttpGet (e : Effect) : bool :=
  match e with HttpGet _ => true | _ => false end.

Record Client := {
  apiKey : JsString;
  client_baseURL : string;
  client_timeout : Z
}.

(** [import.meta.env] *)
Record Env := {
  isDevelopment : bool;
  envBaseURL : option string
}.

Definition fallbackBaseURL : string := "https://api.sportradar.com/soccer/trial/v4/en".

(** [a || b] on optional strings: undefined and the empty string are falsy. *)
Definition orElse (a : option string) (b : string) : string :=
  match a with
  | Some EmptyString | None => b
  | Some s => s
  end.

(** [new SportradarAPI(apiKey, baseURL)]: the effects performed and either
    the thrown [APIError] or the client.  Logging in development mode and
    the pictogram that opens each logged text are left out. *)
Definition constructor (env : Env) (key : JsString) (baseURL : option string)
  : list Effect * (APIError + Client) :=
  if (isEmpty key || isEmpty (trim key))%bool then
    (services ++ [ConsoleError "API Key Error: No API key provided"],
     inl {| message := "API key is required"; status := None;
            code := Some "MISSING_API_KEY"%string; retryAfter := None |})
  else if (length key <? 20)%nat then
    (services ++ [ConsoleError "API Key Error: Invalid format - too short"],
     inl {| message := "Invalid API key format"; status := None;
            code := Some "INVALID_API_KEY_FORMAT"%string; retryAfter := None |})
  else
    let defaultBaseURL :=
      orElse baseURL
             (if isDevelopment env then "/api/sportradar"%string
              else orElse (envBaseURL env) fallbackBaseURL) in
    (services ++ [AxiosCreate defaultBaseURL],
     inr {| apiKey := key; client_baseURL := defaultBaseURL; client_timeout := 30000 |}).

Definition thrownCode (r : list Effect * (APIError + Client)) : option string :=
  match snd r with
  | inl e => code e
  | inr _ => None
  end.

Definition accepted (r : list Effect * (APIError + Client)) : bool :=
  match snd r with inl _ => false | inr _ => true end.

Definition noHttpRequest (r : list Effect * (APIError + Client)) : bool :=
  negb (existsb isHttpGet (fst r)).

(** [error.response] of an axios error. *)
Record AxiosResponse := {
  resp_status : Z;
  resp_statusText : string;
  resp_data_message : option string;
  resp_data_code : option string;
  resp_headers : gmap string string
}.

Record AxiosError := {
  ax_message : string;
  ax_code : option string;
  ax_response : option AxiosResponse;
  ax_request : bool;                     (* [error.request] is set *)
  ax_config_url : string
}.

(** [error.code === s] *)
Definition codeIs (c : option string) (s : string) : bool :=
  match c with
  | Some x => String.eqb x s
  | None => false
  end.

Section Interceptor.

(** [Number.parseInt] on a header value; [None] is [NaN]. *)
Variable Number_parseInt : string -> option Z.

(** [headers["retry-after"] ? Number.parseInt(...) : undefined] *)
Definition retryAfterOf (r : AxiosResponse) : option (option Z) :=
  match resp_headers r !! "retry-after"%string with
  | Some EmptyString | None => None
  | Some h => Some (Number_parseInt h)
  end.

(** The rejection handler of the response interceptor: the [APIError]
    it throws. *)
Definition onRejected (e : AxiosError) : APIError :=
  match ax_response e with
  | Some r =>
      let st := resp_status r in
      if st =? 401 then
        {| message := "Unauthorized: Invalid API key or incorrect authentication method";
           status := Some st; code := Some "INVALID_API_KEY"%string; retryAfter := None |}
      else if st =? 403 then
        {| message := "Forbidden: API key lacks required permissions";
           status := Some st; code := Some "INSUFFICIENT_PERMISSIONS"%string;
           retryAfter := None |}
      else if st =? 429 then
        {| message := "Rate limit exceeded: Too many requests";
           status := Some st; code := Some "RATE_LIMIT"%string;
           retryAfter := retryAfterOf r |}
      else if st =? 404 then
        {| message := "Resource not found: " ++ ax_config_url e
                      ++ " - Check endpoint URL and competition ID";
           status := Some st; code := Some "NOT_FOUND"%string; retryAfter := None |}
      else if st =? 500 then
        {| message := "Server error: Sportradar API is experiencing issues";
           status := Some st; code := Some "SERVER_ERROR"%string; retryAfter := None |}
      else if st =? 503 then
        {| message := "Service unavailable: API temporarily down";
           status := Some st; code := Some "SERVICE_UNAVAILABLE"%string;
           retryAfter := retryAfterOf r |}
      else
        {| message := "API Error: " ++ orElse (resp_data_message r) (resp_statusText r);
           status := Some st; code := resp_data_code r; retryAfter := None |}
  | None =>
      if ax_request e then
        if codeIs (ax_code e) "ECONNABORTED" then
          {| message := "Request timeout: API took too long to respond";
             status := None; code := Some "TIMEOUT"%string; retryAfter := None |}
        else if codeIs (ax_code e) "ENOTFOUND" then
          {| message := "Network error: Unable to reach API server";
             status := None; code := Some "DNS_ERROR"%string; retryAfter := None |}
        else
          {| message := "Network error: Unable to connect to API";
             status := None; code := Some "NETWORK_ERROR"%string; retryAfter := None |}
      else
        {| message := "API Error: " ++ ax_message e;
           status := None; code := Some "UNKNOWN"%string; retryAfter := None |}
  end.

End Interceptor.

(** The taxonomy in the words of the specification, for an outcome that
    carries a response. *)
Definition specCodeOfStatus (st : Z) : string :=
  if st =? 401 then "INVALID_API_KEY"
  else if st =? 403 then "INSUFFICIENT_PERMISSIONS"
  else if st =? 429 then "RATE_LIMIT"
  else if st =? 404 then "NOT_FOUND"
  else if st =? 503 then "SERVICE_UNAVAILABLE"
  else if ((500 <=? st) && (st <=? 599))%bool then "SERVER_ERROR"
  else "UNKNOWN".

(** A 502 answer of a gateway, without a JSON body. *)
Definition badGateway : AxiosError :=
  {| ax_message := "Request failed with status code 502";
     ax_code := Some "ERR_BAD_RESPONSE"%string;
     ax_response := Some {| resp_status := 502;
                            resp_statusText := "Bad Gateway";
                            resp_data_message := None;
                            resp_data_code := None;
                            resp_headers := ∅ |};
     ax_request := true;
     ax_config_url := "/competitions.json" |}.

Definition productionEnv : Env := {| isDevelopment := false; envBaseURL := None |}.

End SportradarAPI.

(* ===================================================================== *)
(** ** Token bucket: sequences of calls *)
(* ===================================================================== *)

Module TokenBucketOps.

(** A call on the bucket: the refill timer, or one of the public methods. *)
Inductive Op :=
| Refill (now : Z)
| CanConsume (now : Z) (n : Q)
| Consume (now : Z) (n : Q)
| GetAvailableTokens (now : Z).

Definition apply (op : Op) (b : TokenBucket.TokenBucketRateLimiter)
  : TokenBucket.TokenBucketRateLimiter :=
  match op with
  | Refill now => TokenBucket.refillTokens now b
  | CanConsume now n => snd (TokenBucket.canConsume now n b)
  | Consume now n => snd (TokenBucket.consume now n b)
  | GetAvailableTokens now => snd (TokenBucket.getAvailableTokens now b)
  end.

Definition run (ops : list Op) (b : TokenBucket.TokenBucketRateLimiter)
  : TokenBucket.TokenBucketRateLimiter :=
  fold_left (fun acc op => apply op acc) ops b.

(** The amount of a draw is not negative. *)
Definition nonNegativeDraw (op : Op) : Prop :=
  match op with
  | Consume _ n => (0 <= n)%Q
  | _ => True
  end.

(** The token count lies between 0 and the capacity; both are doubles,
    as every number of the code is. *)
Definition withinBounds (b : TokenBucket.TokenBucketRateLimiter) : Prop :=
  (0 <= TokenBucket.tokens b)%Q /\ (TokenBucket.tokens b <= TokenBucket.capacity b)%Q /\
  Double.isDouble (TokenBucket.tokens b) /\ Double.isDouble (TokenBucket.capacity b).

End TokenBucketOps.

(* ===================================================================== *)
(** ** advancedRateLimiter.ts: backoff and retries *)
(* ===================================================================== *)

Module AdvancedRateLimiterRetries.

Import AdvancedRateLimiter.

(** The value of [error.retryAfter || error.headers?.["retry-after"]]: a
    whole number (the [retryAfter] of an [APIError]), a header text, or
    nothing. *)
Inductive RetryAfter :=
| NoRetryAfter
| RetryNumber (n : Z)
| RetryText (s : string).

(** Truthiness of that value: 0 and the empty text are falsy. *)
Definition retryAfterGiven (r : RetryAfter) : bool :=
  match r with
  | NoRetryAfter => false
  | RetryNumber n => negb (n =? 0)
  | RetryText s => match s with EmptyString => false | _ => true end
  end.

(** [error.status === 429 || error.message?.includes('429') ||
     error.message?.includes('Rate limit')] *)
Definition is429Error (error : RequestError) : bool :=
  (match status error with
   | Some s => s =? 429
   | None => false
   end
   || match message error with
      | Some m => includes "429" m || includes "Rate limit" m
      | None => false
      end)%bool.

Definition baseDelay (error : RequestError) : Q :=
  if is429Error error then 120000 else 30000.

Definition maxDelay (error : RequestError) : Q :=
  if is429Error error then 900000 else 300000.

(** [calculateBackoffDelay(retryCount, error)]; [jitter] is the value of
    [Math.random() * 1000], [Number_parseInt] reads a header text ([None]
    is [NaN], which is also the result then). *)
Definition calculateBackoffDelay (Number_parseInt : string -> option Z) (jitter : Q)
    (retryCount : Z) (error : RequestError) (retryAfter : RetryAfter) : option Q :=
  if retryAfterGiven retryAfter then
    match retryAfter with
    | RetryNumber n => Some (inject_Z n * 1000)%Q
    | RetryText s => option_map (fun n => (inject_Z n * 1000)%Q) (Number_parseInt s)
    | NoRetryAfter => None
    end
  else
    let exponentialDelay := (baseDelay error * 2 ^ retryCount)%Q in
    Some (Qmin (exponentialDelay + jitter) (maxDelay error))%Q.

(** The retry the last event of an attempt has scheduled, if any. *)
Definition scheduledRetry (evs : list Event) : option QueuedRequest :=
  match List.last evs (Executed O) with
  | RetryScheduled r => Some r
  | _ => None
  end.

(** A request followed to its end: whenever an attempt schedules a retry,
    the timer fires [delay] later and the request re-enters an otherwise
    idle limiter through [retryFires].  [None] when [rounds] retries were
    not enough or a wait for a token did not end. *)
Fixpoint settleRetries (rounds : nat) (run : QueuedRequest -> Settled) (polls : nat)
    (delay : QueuedRequest -> Z)
    (result : option (list Event * Z * AdvancedRateLimiter))
  : option (list Event * Z * AdvancedRateLimiter) :=
  match result with
  | None => None
  | Some (evs, now, st) =>
      match scheduledRetry evs with
      | None => Some (evs, now, st)
      | Some r =>
          match rounds with
          | O => None
          | S rounds' =>
              match settleRetries rounds' run polls delay
                      (retryFires run polls (now + delay r) r st) with
              | None => None
              | Some (evs', now', st') => Some (evs ++ evs', now', st')
              end
          end
      end
  end.

Definition makeRequestToTheEnd (rounds : nat) (run : QueuedRequest -> Settled)
    (polls : nat) (delay : QueuedRequest -> Z) (now : Z) (id : nat)
    (st : AdvancedRateLimiter) : option (list Event * Z * AdvancedRateLimiter) :=
  settleRetries rounds run polls delay (makeRequest run polls now id st).

(** How often the call of request [id] was made. *)
Definition executions (id : nat) (evs : list Event) : nat :=
  length (List.filter (fun e => match e with Executed i => (i =? id)%nat | _ => false end) evs).

(** An idle limiter whose bucket can be waited on again and again: nothing
    queued, no drain running, and a bucket that is ready with a whole
    capacity. *)
Definition idle (now : Z) (st : AdvancedRateLimiter) : Prop :=
  requestQueue st = [] /\ isProcessing st = false /\
  bucketReady now (tokenBucket st) /\
  exists c : Z, (TokenBucket.capacity (tokenBucket st) == inject_Z c)%Q.

(** A scenario: every call is answered with status 429. *)
Definition tooManyRequests : RequestError :=
  {| status := Some 429; message := Some "Request failed with status code 429"%string |}.

Definition alwaysRateLimited (_ : QueuedRequest) : Settled := Failed tooManyRequests.

Definition alwaysSucceeds (_ : QueuedRequest) : Settled := Fulfilled 1.

End AdvancedRateLimiterRetries.

(* ===================================================================== *)
(** ** EnhancedRateLimiter: admission, headers and retry delays *)
(* ===================================================================== *)

Module EnhancedLimiter.

Inductive ApiTier := trial | production | unknown.

(** A JavaScript number that holds a whole value or [NaN] ([None]). *)
Definition Num := option Z.

(** The limiter without its queue.  [remainingRequests] and [resetTime]
    are [None] for [null]. *)
Record State := {
  requests : list Z;
  maxRequests : Num;
  timeWindow : Z;
  retryCount : Z;
  remainingRequests : option Num;
  resetTime : option Num;
  lastHeaderUpdate : Z;
  circuitBreakerOpen : bool;
  circuitBreakerOpenTime : Z;
  consecutiveFailures : Z;
  maxConsecutiveFailures : Z;
  circuitBreakerTimeout : Z;
  apiTier : ApiTier;
  minimumRequestInterval : Z
}.

(** The state after the constructor, i.e. after
    [detectAndConfigureApiTier]. *)
Definition initial : State :=
  {| requests := [];
     maxRequests := Some 1;
     timeWindow := 120000;
     retryCount := 0;
     remainingRequests := None;
     resetTime := None;
     lastHeaderUpdate := 0;
     circuitBreakerOpen := false;
     circuitBreakerOpenTime := 0;
     consecutiveFailures := 0;
     maxConsecutiveFailures := 3;
     circuitBreakerTimeout := 300000;
     apiTier := trial;
     minimumRequestInterval := 120000 |}.

(** [headers[a] || headers[b]]: an absent or empty value is falsy. *)
Definition headerOr (headers : gmap string string) (a b : string) : option string :=
  match headers !! a with
  | Some EmptyString | None => headers !! b
  | Some v => Some v
  end.

Definition ApiTier_eqb (a b : ApiTier) : bool :=
  match a, b with
  | trial, trial | production, production | unknown, unknown => true
  | _, _ => false
  end.

Section WithParseInt.

(** [parseInt] on a header text; [None] is [NaN]. *)
Variable parseInt : string -> Num.

(** [Math.min(limitNum, cap)] *)
Definition minNum (n : Num) (cap : Z) : Num := option_map (fun z => Z.min z cap) n.

(** [limitNum <= 10]; false for [NaN]. *)
Definition leNum (n : Num) (bound : Z) : bool :=
  match n with Some z => z <=? bound | None => false end.

Definition updateFromHeaders (now : Z) (headers : gmap string string) (st : State) : State :=
  let remaining := headerOr headers "x-ratelimit-remaining" "x-rate-limit-remaining" in
  let reset := headerOr headers "x-ratelimit-reset" "x-rate-limit-reset" in
  let limit := headerOr headers "x-ratelimit-limit" "x-rate-limit-limit" in
  let detect := match limit with
                | Some _ => ApiTier_eqb (apiTier st) unknown
                | None => false
                end in
  let limitNum := match limit with Some l => parseInt l | None => None end in
  {| requests := requests st;
     maxRequests := if detect
                    then (if leNum limitNum 10 then minNum limitNum 1 else minNum limitNum 50)
                    else maxRequests st;
     timeWindow := if detect
                   then (if leNum limitNum 10 then 120000 else 60000)
                   else timeWindow st;
     retryCount := retryCount st;
     remainingRequests := match remaining with
                          | Some r => Some (parseInt r)
                          | None => remainingRequests st
                          end;
     resetTime := match reset with
                  | Some r => Some (option_map (fun z => z * 1000) (parseInt r))
                  | None => resetTime st
                  end;
     lastHeaderUpdate := match remaining with
                         | Some _ => now
                         | None => lastHeaderUpdate st
                         end;
     circuitBreakerOpen := circuitBreakerOpen st;
     circuitBreakerOpenTime := circuitBreakerOpenTime st;
     consecutiveFailures := consecutiveFailures st;
     maxConsecutiveFailures := maxConsecutiveFailures st;
     circuitBreakerTimeout := circuitBreakerTimeout st;
     apiTier := if detect
                then (if leNum limitNum 10 then trial else production)
                else apiTier st;
     minimumRequestInterval := minimumRequestInterval st |}.

(** [recordRequest(headers?)] *)
Definition recordRequest (now : Z) (headers : option (gmap string string)) (st : State)
  : State :=
  let st1 := {| requests := requests st ++ [now];
                maxRequests := maxRequests st;
                timeWindow := timeWindow st;
                retryCount := 0;
                remainingRequests := remainingRequests st;
                resetTime := resetTime st;
                lastHeaderUpdate := lastHeaderUpdate st;
                circuitBreakerOpen := circuitBreakerOpen st;
                circuitBreakerOpenTime := circuitBreakerOpenTime st;
                consecutiveFailures := 0;
                maxConsecutiveFailures := maxConsecutiveFailures st;
                circuitBreakerTimeout := circuitBreakerTimeout st;
                apiTier := apiTier st;
                minimumRequestInterval := minimumRequestInterval st |} in
  let st2 := match headers with
             | Some h => updateFromHeaders now h st1
             | None => st1
             end in
  {| requests := requests st2;
     maxRequests := maxRequests st2;
     timeWindow := timeWindow st2;
     retryCount := retryCount st2;
     remainingRequests :=
       match remainingRequests st2 with
       | Some n => Some (option_map (fun z => Z.max 0 (z - 1)) n)
       | None => None
       end;
     resetTime := resetTime st2;
     lastHeaderUpdate := lastHeaderUpdate st2;
     circuitBreakerOpen := circuitBreakerOpen st2;
     circuitBreakerOpenTime := circuitBreakerOpenTime st2;
     consecutiveFailures := consecutiveFailures st2;
     maxConsecutiveFailures := maxConsecutiveFailures st2;
     circuitBreakerTimeout := circuitBreakerTimeout st2;
     apiTier := apiTier st2;
     minimumRequestInterval := minimumRequestInterval st2 |}.

End WithParseInt.

Definition set_breaker (st : State) (open : bool) (openTime failures : Z) : State :=
  {| requests := requests st;
     maxRequests := maxRequests st;
     timeWindow := timeWindow st;
     retryCount := retryCount st;
     remainingRequests := remainingRequests st;
     resetTime := resetTime st;
     lastHeaderUpdate := lastHeaderUpdate st;
     circuitBreakerOpen := open;
     circuitBreakerOpenTime := openTime;
     consecutiveFailures := failures;
     maxConsecutiveFailures := maxConsecutiveFailures st;
     circuitBreakerTimeout := circuitBreakerTimeout st;
     apiTier := apiTier st;
     minimumRequestInterval := minimumRequestInterval st |}.

Definition set_requests (st : State) (rs : list Z) : State :=
  {| requests := rs;
     maxRequests := maxRequests st;
     timeWindow := timeWindow st;
     retryCount := retryCount st;
     remainingRequests := remainingRequests st;
     resetTime := resetTime st;
     lastHeaderUpdate := lastHeaderUpdate st;
     circuitBreakerOpen := circuitBreakerOpen st;
     circuitBreakerOpenTime := circuitBreakerOpenTime st;
     consecutiveFailures := consecutiveFailures st;
     maxConsecutiveFailures := maxConsecutiveFailures st;
     circuitBreakerTimeout := circuitBreakerTimeout st;
     apiTier := apiTier st;
     minimumRequestInterval := minimumRequestInterval st |}.

Definition set_retryCount (st : State) (n : Z) : State :=
  {| requests := requests st;
     maxRequests := maxRequests st;
     timeWindow := timeWindow st;
     retryCount := n;
     remainingRequests := remainingRequests st;
     resetTime := resetTime st;
     lastHeaderUpdate := lastHeaderUpdate st;
     circuitBreakerOpen := circuitBreakerOpen st;
     circuitBreakerOpenTime := circuitBreakerOpenTime st;
     consecutiveFailures := consecutiveFailures st;
     maxConsecutiveFailures := maxConsecutiveFailures st;
     circuitBreakerTimeout := circuitBreakerTimeout st;
     apiTier := apiTier st;
     minimumRequestInterval := minimumRequestInterval st |}.

(** [Math.max(...this.requests, 0)] *)
Definition latestRequest (rs : list Z) : Z := fold_right Z.max 0 rs.

(** [this.requests.length < this.maxRequests]; false against [NaN]. *)
Definition belowMax (rs : list Z) (m : Num) : bool :=
  match m with Some z => Z.of_nat (length rs) <? z | None => false end.

(** [this.remainingRequests <= 0] on a value that is not [null]. *)
Definition exhausted (remaining : option Num) : bool :=
  match remaining with
  | Some (Some z) => z <=? 0
  | _ => false
  end.

Definition isSet {A : Type} (o : option A) : bool :=
  match o with Some _ => true | None => false end.

(** [canMakeRequest()] *)
Definition canMakeRequest (now : Z) (st : State) : bool * State :=
  let breakerBlocks :=
    (circuitBreakerOpen st
     && negb (circuitBreakerTimeout st <? now - circuitBreakerOpenTime st))%bool in
  if breakerBlocks then (false, st)
  else
    let st1 := if circuitBreakerOpen st
               then set_breaker st false (circuitBreakerOpenTime st) 0
               else st in
    if (isSet (remainingRequests st1) && (now - lastHeaderUpdate st1 <? 30000)
        && exhausted (remainingRequests st1))%bool
    then (false, st1)
    else
      let timeSinceLastRequest := now - latestRequest (requests st1) in
      if ((0 <? Z.of_nat (length (requests st1)))
          && (timeSinceLastRequest <? minimumRequestInterval st1))%bool
      then (false, st1)
      else
        let kept := List.filter (fun time => now - time <? timeWindow st1) (requests st1) in
        (belowMax kept (maxRequests st1), set_requests st1 kept).

(** [recordFailure()] *)
Definition recordFailure (now : Z) (st : State) : State :=
  let failures := consecutiveFailures st + 1 in
  if maxConsecutiveFailures st <=? failures
  then set_breaker st true now failures
  else set_breaker st (circuitBreakerOpen st) (circuitBreakerOpenTime st) failures.

(** Truthiness of a number: not [NaN] and not 0. *)
Definition truthyNum (n : Num) : option Z :=
  match n with
  | Some z => if z =? 0 then None else Some z
  | None => None
  end.

(** [getRetryDelay(retryAfterHeader?, isRateLimitError)]; the argument is
    [None] when omitted and [jitter] is [Math.random() * 10000]. *)
Definition getRetryDelay (now : Z) (jitter : Q) (retryAfterHeader : option Num)
    (isRateLimitError : bool) (st : State) : Q * State :=
  match match retryAfterHeader with Some n => truthyNum n | None => None end with
  | Some seconds => (inject_Z (seconds * 1000), st)
  | None =>
      if isRateLimitError then
        match match resetTime st with Some n => truthyNum n | None => None end with
        | Some reset =>
            if now <? reset then (inject_Z ((reset - now) + 30000), st)
            else (Qmin 300000 (120000 * 2 ^ retryCount st), st)
        | None => (Qmin 300000 (120000 * 2 ^ retryCount st), st)
        end
      else
        let baseDelay := 30000%Q in
        let exponentialDelay := (baseDelay * 2 ^ retryCount st)%Q in
        let maxDelay := 300000%Q in
        ((Qmin exponentialDelay maxDelay + jitter)%Q,
         set_retryCount st (retryCount st + 1))
  end.

(** The limiter seen by [scheduleRequest], with its queue. *)
Definition withQueue (queue : list EnhancedRateLimiter.Request) (st : State)
  : EnhancedRateLimiter.EnhancedRateLimiter :=
  {| EnhancedRateLimiter.requestQueue := queue;
     EnhancedRateLimiter.circuitBreakerOpen := circuitBreakerOpen st;
     EnhancedRateLimiter.circuitBreakerOpenTime := circuitBreakerOpenTime st;
     EnhancedRateLimiter.circuitBreakerTimeout := circuitBreakerTimeout st |}.

(** A call on the limiter. *)
Inductive Op :=
| UpdateFromHeaders (now : Z) (headers : gmap string string)
| CanMakeRequest (now : Z)
| RecordRequest (now : Z) (headers : option (gmap string string))
| RecordFailure (now : Z)
| GetRetryDelay (now : Z) (jitter : Q) (retryAfterHeader : option Num)
    (isRateLimitError : bool).

Definition apply (parseInt : string -> Num) (op : Op) (st : State) : State :=
  match op with
  | UpdateFromHeaders now h => updateFromHeaders parseInt now h st
  | CanMakeRequest now => snd (canMakeRequest now st)
  | RecordRequest now h => recordRequest parseInt now h st
  | RecordFailure now => recordFailure now st
  | GetRetryDelay now j r b => snd (getRetryDelay now j r b st)
  end.

Definition run (parseInt : string -> Num) (ops : list Op) (st : State) : State :=
  fold_left (fun acc op => apply parseInt op acc) ops st.

Definition recordFailures (times : list Z) (st : State) : State :=
  fold_left (fun acc t => recordFailure t acc) times st.

End EnhancedLimiter.

(* ===================================================================== *)
(** ** CacheManager: time to live, API responses, persistence *)
(* ===================================================================== *)

Module CacheManagerApi.

Import CacheManager.

(** [ttl || this.config.defaultTTL] *)
Definition timeToLiveOf (ttl : option Z) (c : CacheManager) : Z :=
  match ttl with
  | Some t => if t =? 0 then defaultTTL (config c) else t
  | None => defaultTTL (config c)
  end.

(** The keys of a [Map] are distinct. *)
Definition distinctKeys (m : JsMap) : Prop := List.NoDup (map fst m).

Definition includes := AdvancedRateLimiter.includes.

(** [getTTLForEndpoint] of the cache manager. *)
Definition getTTLForEndpoint (endpoint : string) (c : CacheManager) : Z :=
  if includes "/competitions" endpoint then 24 * 60 * 60 * 1000
  else if includes "/standings" endpoint then 60 * 60 * 1000
  else if includes "/live/" endpoint then 30 * 1000
  else if includes "/schedules/" endpoint then 60 * 60 * 1000
  else if includes "/statistics" endpoint then 12 * 60 * 60 * 1000
  else defaultTTL (config c).

(** [setCachedApiResponse(endpoint, data, customTTL?)] *)
Definition setCachedApiResponse (now now_evict : Z) (endpoint : string) (value : Z)
    (customTTL : option Z) (c : CacheManager) : CacheManager :=
  let ttl := match customTTL with
             | Some t => if t =? 0 then getTTLForEndpoint endpoint c else t
             | None => getTTLForEndpoint endpoint c
             end in
  set now now_evict ("api:" ++ endpoint) value (Some ttl) c.

(** [getCachedApiResponse(endpoint)] *)
Definition getCachedApiResponse (now : Z) (endpoint : string) (c : CacheManager)
  : option Z * CacheManager :=
  get now ("api:" ++ endpoint) c.

(** [persistToStorage]: the array written under [sportradar_cache].
    [JSON.stringify] and [JSON.parse] are taken to be inverse to each other
    on the entries. *)
Definition persistToStorage (now : Z) (c : CacheManager) : JsMap :=
  List.filter (fun kv => now <=? expiresAt (snd kv)) (cache c).

(** [loadFromStorage] on the array read back. *)
Definition loadFromStorage (now : Z) (saved : JsMap) (c : CacheManager) : CacheManager :=
  with_cache c
    (fold_left (fun m kv => if now <=? expiresAt (snd kv)
                            then map_set (fst kv) (snd kv) m else m)
               saved (cache c)).

Definition isSome {A : Type} (o : option A) : bool :=
  match o with Some _ => true | None => false end.

End CacheManagerApi.

(* ===================================================================== *)
(** ** APIMonitor: what is read off the metrics *)
(* ===================================================================== *)

Module APIMonitorQueries.

Import APIMonitor.

(** The loop of [getConsecutiveRateLimits]: it counts from the head of the
    history and stops at the first entry that is not [rate_limited]. *)
Fixpoint leadingRateLimits (history : list HistoryEntry) : Z :=
  match history with
  | [] => 0
  | request :: rest =>
      if Status_eqb (h_status request) rate_limited
      then 1 + leadingRateLimits rest
      else 0
  end.

Definition getConsecutiveRateLimits (m : APIMetrics) : Z :=
  leadingRateLimits (requestHistory m).

(** [(successfulRequests / totalRequests) * 100], a quotient and a product
    of doubles. *)
Definition getSuccessRate (m : APIMetrics) : Q :=
  if totalRequests m =? 0 then 0%Q
  else Double.mul (Double.div (inject_Z (successfulRequests m))
                              (inject_Z (totalRequests m))) 100.

Definition getRateLimitRate (m : APIMetrics) : Q :=
  if totalRequests m =? 0 then 0%Q
  else Double.mul (Double.div (inject_Z (rateLimitHits m))
                              (inject_Z (totalRequests m))) 100.

Definition shouldPauseRequests (m : APIMetrics) : bool :=
  (3 <=? getConsecutiveRateLimits m) || TokenBucket.Qlt_bool 50 (getRateLimitRate m).

Definition isFailure (request : HistoryEntry) : bool :=
  Status_eqb (h_status request) error || Status_eqb (h_status request) rate_limited.

(** [getRecentErrors(limit)] for a limit that is a natural number. *)
Definition getRecentErrors (limit : nat) (m : APIMetrics) : list HistoryEntry :=
  firstn limit (List.filter isFailure (requestHistory m)).

Definition resetMetrics (m : APIMetrics) : APIMetrics := zeroed.

(** The history entry that [recordRequest] builds for a recording. *)
Definition entryOf (r : Recording) : HistoryEntry :=
  {| h_endpoint := r_endpoint r;
     h_status := r_status r;
     h_responseTime := duration r;
     h_timestamp := r_now r;
     h_error := option_map error_message (r_error r) |}.

Definition rateLimited (now startTime : Z) : Recording :=
  {| r_now := now; r_endpoint := "/competitions.json"; r_startTime := startTime;
     r_status := rate_limited;
     r_error := Some {| error_message := "Rate limit exceeded: Too many requests";
                        error_status := Some 429 |} |}.

Definition succeeded (now startTime : Z) : Recording :=
  {| r_now := now; r_endpoint := "/competitions.json"; r_startTime := startTime;
     r_status := success; r_error := None |}.

End APIMonitorQueries.

(* ===================================================================== *)
(** ** SportradarAPI: request, time to live, the shared instance *)
(* ===================================================================== *)

Module SportradarClient.

Import SportradarAPI.

Definition includes := AdvancedRateLimiter.includes.

(** [getTTLForEndpoint] of the client. *)
Definition getTTLForEndpoint (endpoint : string) : Z :=
  if includes "/live/" endpoint then 120000
  else if includes "/schedules/" endpoint then 8 * 60 * 60 * 1000
  else if includes "/competitions" endpoint then 24 * 60 * 60 * 1000
  else if includes "/standings" endpoint then 4 * 60 * 60 * 1000
  else if includes "/statistics" endpoint then 12 * 60 * 60 * 1000
  else 60 * 60 * 1000.

(** What [rateLimiter.makeRequest(...)] rejects with: an [APIError] of the
    response interceptor, or another [Error] such as the limiter's own. *)
Inductive Thrown :=
| ApiError (e : APIError)
| OtherError (text : string).

(** [error instanceof APIError && error.code === "RATE_LIMIT"] *)
Definition isRateLimitError (t : Thrown) : bool :=
  match t with
  | ApiError e => codeIs (code e) "RATE_LIMIT"
  | OtherError _ => false
  end.

(** The error as [APIMonitor.recordRequest] reads it. *)
Definition errorInfo (t : Thrown) : APIMonitor.ErrorInfo :=
  match t with
  | ApiError e => {| APIMonitor.error_message := message e;
                     APIMonitor.error_status := status e |}
  | OtherError text => {| APIMonitor.error_message := text;
                          APIMonitor.error_status := None |}
  end.

(** The two singletons the request body works on. *)
Record Services := {
  cache : CacheManager.CacheManager;
  monitor : APIMonitor.APIMetrics
}.

(** The clock reads of one run of the request body. *)
Record Clock := {
  startTime : Z;
  atCacheRead : Z;
  atCacheWrite : Z;
  atEviction : Z;
  atRecord : Z
}.

(** What one run of the request body did. *)
Record Outcome := {
  result : Thrown + Z;
  askedLimiter : bool;
  services : Services
}.

(** Truthiness of the data of a response.  The data is modelled by a
    number; 0 stands for the falsy values ([0], the empty string, [null],
    [false]), every other number for an object or another truthy value. *)
Definition truthy (data : Z) : bool := negb (data =? 0).

(** [if (cachedData)]: the cached data when there is one and it is truthy. *)
Definition served (cachedData : option Z) : option Z :=
  match cachedData with
  | Some data => if truthy data then Some data else None
  | None => None
  end.

(** The function that [request] hands to [deduplicate].  [answer] is what
    [rateLimiter.makeRequest] settles to if it is asked.  Validation and
    logging in development mode are left out. *)
Definition requestFn (clk : Clock) (endpoint : string) (answer : Thrown + Z) (s : Services)
  : Outcome :=
  let (cachedData, cache1) :=
    CacheManagerApi.getCachedApiResponse (atCacheRead clk) endpoint (cache s) in
  match served cachedData with
  | Some data =>
      {| result := inr data;
         askedLimiter := false;
         services :=
           {| cache := cache1;
              monitor := APIMonitor.recordRequest (atRecord clk) endpoint (startTime clk)
                           APIMonitor.success None (monitor s) |} |}
  | None =>
      match answer with
      | inr data =>
          {| result := inr data;
             askedLimiter := true;
             services :=
               {| cache := CacheManagerApi.setCachedApiResponse
                             (atCacheWrite clk) (atEviction clk) endpoint data
                             (Some (getTTLForEndpoint endpoint)) cache1;
                  monitor := APIMonitor.recordRequest (atRecord clk) endpoint (startTime clk)
                               APIMonitor.success None (monitor s) |} |}
      | inl err =>
          {| result := inl err;
             askedLimiter := true;
             services :=
               {| cache := cache1;
                  monitor := APIMonitor.recordRequest (atRecord clk) endpoint (startTime clk)
                               (if isRateLimitError err
                                then APIMonitor.rate_limited else APIMonitor.error)
                               (Some (errorInfo err)) (monitor s) |} |}
      end
  end.

(** The status of the newest history entry. *)
Definition lastRecorded (s : Services) : option APIMonitor.Status :=
  match APIMonitor.requestHistory (monitor s) with
  | e :: _ => Some (APIMonitor.h_status e)
  | [] => None
  end.

(** The statuses for which the interceptor fixes the code itself. *)
Definition fixedCode (st : Z) : bool :=
  (st =? 401) || (st =? 403) || (st =? 429) || (st =? 404) || (st =? 500) || (st =? 503).

(** [getAPIInstance(apiKey, baseURL)] on the module variable
    [apiInstance]: the effects, what is returned or thrown, and the
    variable afterwards. *)
Definition getAPIInstance (env : Env) (key : JsString) (baseURL : option string)
    (apiInstance : option Client)
  : list Effect * (APIError + Client) * option Client :=
  let create :=
    let (effects, r) := constructor env key baseURL in
    match r with
    | inl e => (effects, inl e, apiInstance)
    | inr c => (effects, inr c, Some c)
    end in
  match apiInstance with
  | Some inst =>
      if bool_decide (apiKey inst = key) then ([], inr inst, apiInstance) else create
  | None => create
  end.

Definition returned (r : list Effect * (APIError + Client) * option Client)
  : option Client :=
  match snd (fst r) with inr c => Some c | inl _ => None end.

Definition effectsOf (r : list Effect * (APIError + Client) * option Client)
  : list Effect := fst (fst r).

Definition stored (r : list Effect * (APIError + Client) * option Client)
  : option Client := snd r.

(** A 400 answer whose body carries the code [RATE_LIMIT]. *)
Definition badRequestWithRateLimitCode : AxiosError :=
  {| ax_message := "Request failed with status code 400";
     ax_code := Some "ERR_BAD_REQUEST"%string;
     ax_response := Some {| resp_status := 400;
                            resp_statusText := "Bad Request";
                            resp_data_message := Some "quota"%string;
                            resp_data_code := Some "RATE_LIMIT"%string;
                            resp_headers := ∅ |};
     ax_request := true;
     ax_config_url := "/competitions.json" |}.

Definition idleServices : Services :=
  {| cache := CacheManager.emptyCache 1000; monitor := APIMonitor.zeroed |}.

Definition keyOfTwentyFour : JsString :=
  [97; 98; 99; 100; 101; 102; 103; 104; 105; 106; 107; 108;
   109; 110; 111; 112; 113; 114; 115; 116; 117; 118; 119; 120]%N.

End SportradarClient.

(* ===================================================================== *)
(** ** Double-precision arithmetic: rounding *)
(* ===================================================================== *)

Section DoubleFacts.
Import Double.

Lemma two_neq_0 : ~ (2 == 0)%Q.
Proof. discriminate. Qed.

Lemma pow2_pos (k : Z) : (0 < pow2 k)%Q.
Proof. apply Qpower_0_lt. reflexivity. Qed.

Lemma pow2_add (a b : Z) : (pow2 (a + b) == pow2 a * pow2 b)%Q.
Proof. apply Qpower_plus. exact two_neq_0. Qed.

Lemma pow2_le (a b : Z) : a <= b -> (pow2 a <= pow2 b)%Q.
Proof. intros H. apply Qpower_le_compat_l; [exact H | discriminate]. Qed.

Lemma pow2_lt (a b : Z) : a < b -> (pow2 a < pow2 b)%Q.
Proof. intros H. apply Qpower_lt_compat_l; [exact H | reflexivity]. Qed.

Lemma pow2_lt_inv (a b : Z) : (pow2 a < pow2 b)%Q -> a < b.
Proof. intros H. apply (Qpower_lt_compat_l_inv 2); [exact H | reflexivity]. Qed.

Lemma pow2_Z (k : Z) : 0 <= k -> (pow2 k == inject_Z (2 ^ k))%Q.
Proof. intros H. unfold pow2. rewrite Zpower_Qpower by exact H. reflexivity. Qed.

Lemma pow2_succ (k : Z) : (pow2 (k + 1) == 2 * pow2 k)%Q.
Proof. rewrite pow2_add. unfold pow2 at 2. rewrite Qpower_1_r. ring. Qed.

(** *** Rounding to the nearest whole number, ties to even *)

Lemma rne_comp (s t : Q) : (s == t)%Q -> rne s = rne t.
Proof.
  intros H. unfold rne. rewrite (Qfloor_comp _ _ H).
  assert (E : (s - inject_Z (Qfloor t) ?= 1 # 2)%Q = (t - inject_Z (Qfloor t) ?= 1 # 2)%Q).
  { apply Qcompare_comp; [rewrite H; reflexivity | reflexivity]. }
  rewrite E. reflexivity.
Qed.

Lemma rne_cases (s : Q) :
  (rne s = Qfloor s /\ (s - inject_Z (Qfloor s) <= 1 # 2)%Q) \/
  (rne s = Qfloor s + 1 /\ (1 # 2 <= s - inject_Z (Qfloor s))%Q).
Proof.
  unfold rne.
  destruct (s - inject_Z (Qfloor s) ?= 1 # 2)%Q eqn:E.
  - apply Qeq_alt in E. destruct (Z.even (Qfloor s)); [left | right];
      (split; [reflexivity | rewrite E; apply Qle_refl]).
  - apply Qlt_alt in E. left. split; [reflexivity | apply Qlt_le_weak; exact E].
  - apply Qgt_alt in E. right. split; [reflexivity | apply Qlt_le_weak; exact E].
Qed.

Lemma rne_Z (z : Z) : rne (inject_Z z) = z.
Proof.
  unfold rne. rewrite Qfloor_Z.
  replace (inject_Z z - inject_Z z ?= 1 # 2)%Q with Lt; [reflexivity|].
  symmetry. apply Qlt_alt. unfold Qminus. rewrite Qplus_opp_r. reflexivity.
Qed.

Lemma rne_le (s t : Q) : (s <= t)%Q -> rne s <= rne t.
Proof.
  intros H.
  pose proof (Qfloor_resp_le _ _ H) as Hf.
  destruct (Z.eq_dec (Qfloor s) (Qfloor t)) as [E | NE].
  - unfold rne. rewrite E.
    generalize (inject_Z (Qfloor t)). intros c.
    destruct (s - c ?= 1 # 2)%Q eqn:Es;
      destruct (t - c ?= 1 # 2)%Q eqn:Et;
      try (destruct (Z.even (Qfloor t))); try lia;
      repeat match goal with
             | X : (_ ?= _)%Q = Eq |- _ => apply Qeq_alt in X
             | X : (_ ?= _)%Q = Lt |- _ => apply Qlt_alt in X
             | X : (_ ?= _)%Q = Gt |- _ => apply Qgt_alt in X
             end;
      exfalso; lra.
  - destruct (rne_cases s) as [[Hs _] | [Hs _]]; destruct (rne_cases t) as [[Ht _] | [Ht _]];
      lia.
Qed.

Lemma rne_near (s : Q) :
  (inject_Z (rne s) - s <= 1 # 2)%Q /\ (s - inject_Z (rne s) <= 1 # 2)%Q.
Proof.
  pose proof (Qfloor_le s) as Hlo. pose proof (Qlt_floor s) as Hhi.
  rewrite inject_Z_plus in Hhi. change (inject_Z 1) with 1%Q in Hhi.
  destruct (rne_cases s) as [[E H] | [E H]]; rewrite E;
    [|rewrite inject_Z_plus; change (inject_Z 1) with 1%Q];
    revert Hlo Hhi H; generalize (inject_Z (Qfloor s)); intros c Hlo Hhi H; split; lra.
Qed.

(** *** The binade of a positive number *)

Lemma Q_as_fraction (q : Q) : (q == inject_Z (Qnum q) / inject_Z (Zpos (Qden q)))%Q.
Proof. destruct q as [n d]. cbn [Qnum Qden]. rewrite <- Qmake_Qdiv. reflexivity. Qed.

Lemma ilog2_spec (q : Q) :
  (0 < q)%Q -> (pow2 (ilog2 q) <= q)%Q /\ (q < pow2 (ilog2 q + 1))%Q.
Proof.
  intros Hq. unfold ilog2.
  set (n := Qnum q). set (d := Zpos (Qden q)).
  assert (Hn : 0 < n) by (unfold n; destruct q as [[|p|p] dd]; cbn in *;
                          unfold Qlt in Hq; cbn in Hq; lia).
  assert (Hd : 0 < d) by (unfold d; lia).
  destruct (Z.log2_spec n Hn) as [Hn1 Hn2].
  destruct (Z.log2_spec d Hd) as [Hd1 Hd2].
  set (a := Z.log2 n) in *. set (b := Z.log2 d) in *.
  assert (Ha : 0 <= a) by apply Z.log2_nonneg.
  assert (Hb : 0 <= b) by apply Z.log2_nonneg.
  assert (Hqe : (q == inject_Z n / inject_Z d)%Q) by apply Q_as_fraction.
  assert (Hdq : (0 < inject_Z d)%Q) by (unfold Qlt; cbn; lia).
  assert (Hlow : (pow2 (a - b - 1) < q)%Q).
  { rewrite Hqe. apply Qlt_shift_div_l; [exact Hdq|].
    apply Qlt_le_trans with (pow2 (a - b - 1) * pow2 (b + 1))%Q.
    - apply Qmult_lt_l; [apply pow2_pos|].
      rewrite (pow2_Z (b + 1)) by lia. rewrite <- Zlt_Qlt.
      replace (b + 1) with (Z.succ b) by lia. exact Hd2.
    - rewrite <- pow2_add. replace (a - b - 1 + (b + 1)) with a by lia.
      rewrite (pow2_Z a) by lia. rewrite <- Zle_Qle. exact Hn1. }
  assert (Hhigh : (q < pow2 (a - b + 1))%Q).
  { rewrite Hqe. apply Qlt_shift_div_r; [exact Hdq|].
    apply Qlt_le_trans with (pow2 (a + 1)).
    - rewrite (pow2_Z (a + 1)) by lia. rewrite <- Zlt_Qlt.
      replace (a + 1) with (Z.succ a) by lia. exact Hn2.
    - replace (a + 1) with (a - b + 1 + b) by lia. rewrite pow2_add.
      apply Qmult_le_l; [apply pow2_pos|].
      rewrite (pow2_Z b) by lia. rewrite <- Zle_Qle. exact Hd1. }
  destruct (Qle_bool (pow2 (a - b)) q) eqn:E.
  - apply Qle_bool_iff in E. split; assumption.
  - assert (Hnot : (q < pow2 (a - b))%Q).
    { apply Qnot_le_lt. intros H. apply Qle_bool_iff in H. congruence. }
    split; [apply Qlt_le_weak; exact Hlow|].
    replace (a - b - 1 + 1) with (a - b) by lia. exact Hnot.
Qed.

Lemma ilog2_unique (q : Q) (k : Z) :
  (pow2 k <= q)%Q -> (q < pow2 (k + 1))%Q -> ilog2 q = k.
Proof.
  intros H1 H2.
  assert (Hq : (0 < q)%Q) by (eapply Qlt_le_trans; [apply pow2_pos | exact H1]).
  destruct (ilog2_spec q Hq) as [S1 S2].
  assert (A : ilog2 q < k + 1).
  { apply pow2_lt_inv. eapply Qle_lt_trans; [exact S1 | exact H2]. }
  assert (B : k < ilog2 q + 1).
  { apply pow2_lt_inv. eapply Qle_lt_trans; [exact H1 | exact S2]. }
  lia.
Qed.

Lemma ilog2_comp (x y : Q) : (0 < x)%Q -> (x == y)%Q -> ilog2 x = ilog2 y.
Proof.
  intros Hx E. destruct (ilog2_spec x Hx) as [S1 S2].
  symmetry. apply ilog2_unique; rewrite <- E; assumption.
Qed.

Lemma ilog2_le (x y : Q) : (0 < x)%Q -> (x <= y)%Q -> ilog2 x <= ilog2 y.
Proof.
  intros Hx Hxy.
  assert (Hy : (0 < y)%Q) by (eapply Qlt_le_trans; eassumption).
  destruct (ilog2_spec x Hx) as [X1 _]. destruct (ilog2_spec y Hy) as [_ Y2].
  assert (ilog2 x < ilog2 y + 1); [|lia].
  apply pow2_lt_inv. eapply Qle_lt_trans; [exact X1|].
  eapply Qle_lt_trans; [exact Hxy | exact Y2].
Qed.

Lemma exponent_le (x y : Q) : (0 < x)%Q -> (x <= y)%Q -> exponent x <= exponent y.
Proof. intros Hx Hxy. unfold exponent. pose proof (ilog2_le x y Hx Hxy). lia. Qed.

Lemma exponent_comp (x y : Q) : (0 < x)%Q -> (x == y)%Q -> exponent x = exponent y.
Proof. intros Hx E. unfold exponent. rewrite (ilog2_comp x y Hx E). reflexivity. Qed.

Lemma exponent_upper (q : Q) : (0 < q)%Q -> (q < pow2 (exponent q + 53))%Q.
Proof.
  intros Hq. destruct (ilog2_spec q Hq) as [_ S2].
  eapply Qlt_le_trans; [exact S2|]. apply pow2_le. unfold exponent. lia.
Qed.

Lemma exponent_lower (q : Q) :
  (0 < q)%Q -> emin < exponent q -> (pow2 (exponent q + 52) <= q)%Q.
Proof.
  intros Hq He. destruct (ilog2_spec q Hq) as [S1 _].
  replace (exponent q + 52) with (ilog2 q); [exact S1|]. unfold exponent in *. lia.
Qed.

(** The scaled value lies below [2^53]; above [2^52] in the normal range. *)
Lemma scaled_upper (q : Q) :
  (0 < q)%Q -> (q / pow2 (exponent q) < inject_Z (2 ^ 53))%Q.
Proof.
  intros Hq. apply Qlt_shift_div_r; [apply pow2_pos|].
  rewrite <- (pow2_Z 53) by lia. rewrite <- pow2_add.
  replace (53 + exponent q) with (exponent q + 53) by lia. apply exponent_upper. exact Hq.
Qed.

Lemma scaled_lower (q : Q) :
  (0 < q)%Q -> emin < exponent q -> (inject_Z (2 ^ 52) <= q / pow2 (exponent q))%Q.
Proof.
  intros Hq He. apply Qle_shift_div_l; [apply pow2_pos|].
  rewrite <- (pow2_Z 52) by lia. rewrite <- pow2_add.
  replace (52 + exponent q) with (exponent q + 52) by lia. apply exponent_lower; assumption.
Qed.

Lemma mantissa_range (q : Q) :
  (0 < q)%Q ->
  0 <= rne (q / pow2 (exponent q)) <= 2 ^ 53 /\
  (emin < exponent q -> 2 ^ 52 <= rne (q / pow2 (exponent q))).
Proof.
  intros Hq. split; [split|].
  - rewrite <- (rne_Z 0). apply rne_le. apply Qlt_le_weak.
    apply Qlt_shift_div_l; [apply pow2_pos|]. rewrite Qmult_0_l. exact Hq.
  - rewrite <- (rne_Z (2 ^ 53)). apply rne_le. apply Qlt_le_weak. apply scaled_upper. exact Hq.
  - intros He. rewrite <- (rne_Z (2 ^ 52)). apply rne_le. apply scaled_lower; assumption.
Qed.

Lemma roundPositive_comp (x y : Q) :
  (0 < x)%Q -> (x == y)%Q -> (roundPositive x == roundPositive y)%Q.
Proof.
  intros Hx E. unfold roundPositive. rewrite <- (exponent_comp x y Hx E).
  rewrite (rne_comp (x / pow2 (exponent x)) (y / pow2 (exponent x))); [reflexivity|].
  unfold Qdiv. apply Qmult_comp; [exact E | reflexivity].
Qed.

Lemma roundPositive_nonneg (q : Q) : (0 < q)%Q -> (0 <= roundPositive q)%Q.
Proof.
  intros Hq. unfold roundPositive.
  destruct (mantissa_range q Hq) as [[H0 _] _].
  apply Qmult_le_0_compat; [|apply Qlt_le_weak; apply pow2_pos].
  change 0%Q with (inject_Z 0). rewrite <- Zle_Qle. exact H0.
Qed.

Lemma roundPositive_le (x y : Q) :
  (0 < x)%Q -> (x <= y)%Q -> (roundPositive x <= roundPositive y)%Q.
Proof.
  intros Hx Hxy.
  assert (Hy : (0 < y)%Q) by (eapply Qlt_le_trans; eassumption).
  pose proof (exponent_le x y Hx Hxy) as He.
  unfold roundPositive.
  destruct (Z.eq_dec (exponent x) (exponent y)) as [E | NE].
  - rewrite E. apply Qmult_le_compat_r; [|apply Qlt_le_weak; apply pow2_pos].
    rewrite <- Zle_Qle. apply rne_le.
    apply Qmult_le_compat_r; [exact Hxy|].
    apply Qlt_le_weak. apply Qinv_lt_0_compat. apply pow2_pos.
  - assert (Hlt : exponent x < exponent y) by lia.
    assert (Hnormal : emin < exponent y) by (unfold exponent in *; lia).
    destruct (mantissa_range x Hx) as [[_ Hmx] _].
    destruct (mantissa_range y Hy) as [_ Hmy]. specialize (Hmy Hnormal).
    apply Qle_trans with (inject_Z (2 ^ 53) * pow2 (exponent x))%Q.
    + apply Qmult_le_compat_r; [|apply Qlt_le_weak; apply pow2_pos].
      rewrite <- Zle_Qle. exact Hmx.
    + apply Qle_trans with (inject_Z (2 ^ 52) * pow2 (exponent y))%Q.
      * rewrite <- (pow2_Z 53), <- (pow2_Z 52) by lia. rewrite <- !pow2_add.
        apply pow2_le. lia.
      * apply Qmult_le_compat_r; [|apply Qlt_le_weak; apply pow2_pos].
        rewrite <- Zle_Qle. exact Hmy.
Qed.

(** *** [round] *)

Lemma Qnum_pos_iff (q : Q) : (0 < q)%Q <-> 0 < Qnum q.
Proof. unfold Qlt. cbn. lia. Qed.

Lemma Qnum_neg_iff (q : Q) : (q < 0)%Q <-> Qnum q < 0.
Proof. unfold Qlt. cbn. lia. Qed.

Lemma Qnum_zero_iff (q : Q) : (q == 0)%Q <-> Qnum q = 0.
Proof. unfold Qeq. cbn. lia. Qed.

Lemma round_pos (q : Q) : (0 < q)%Q -> (round q == roundPositive q)%Q.
Proof.
  intros H. apply Qnum_pos_iff in H. unfold round.
  destruct (Qnum q); try lia. apply Qred_correct.
Qed.

Lemma round_neg (q : Q) : (q < 0)%Q -> (round q == - roundPositive (- q))%Q.
Proof.
  intros H. apply Qnum_neg_iff in H. unfold round.
  destruct (Qnum q); try lia. apply Qred_correct.
Qed.

Lemma round_zero (q : Q) : (q == 0)%Q -> round q = 0%Q.
Proof. intros H. apply Qnum_zero_iff in H. unfold round. rewrite H. reflexivity. Qed.

Lemma round_comp (x y : Q) : (x == y)%Q -> round x = round y.
Proof.
  intros E.
  destruct (Q_dec x 0) as [[Hneg | Hpos] | Hz].
  - assert (Hy : (y < 0)%Q) by (rewrite <- E; exact Hneg).
    assert (Hx' : (0 < - x)%Q) by lra.
    pose proof Hneg as Nx. pose proof Hy as Ny.
    apply Qnum_neg_iff in Nx. apply Qnum_neg_iff in Ny. unfold round.
    destruct (Qnum x); try lia. destruct (Qnum y); try lia.
    apply Qred_complete. apply Qopp_comp. apply roundPositive_comp; [exact Hx'|].
    rewrite E. reflexivity.
  - assert (Hy : (0 < y)%Q) by (rewrite <- E; exact Hpos).
    pose proof Hpos as Nx. pose proof Hy as Ny.
    apply Qnum_pos_iff in Nx. apply Qnum_pos_iff in Ny. unfold round.
    destruct (Qnum x); try lia. destruct (Qnum y); try lia.
    apply Qred_complete. apply roundPositive_comp; assumption.
  - rewrite (round_zero x Hz). symmetry. apply round_zero. rewrite <- E. exact Hz.
Qed.

Lemma round_nonneg (q : Q) : (0 <= q)%Q -> (0 <= round q)%Q.
Proof.
  intros H. destruct (Qle_lt_or_eq _ _ H) as [Hpos | Hz].
  - rewrite (round_pos q Hpos). apply roundPositive_nonneg. exact Hpos.
  - rewrite (round_zero q); [apply Qle_refl | symmetry; exact Hz].
Qed.

Lemma round_nonpos (q : Q) : (q <= 0)%Q -> (round q <= 0)%Q.
Proof.
  intros H. destruct (Qle_lt_or_eq _ _ H) as [Hneg | Hz].
  - rewrite (round_neg q Hneg).
    assert (Hp : (0 < - q)%Q) by lra.
    pose proof (roundPositive_nonneg (- q) Hp). lra.
  - rewrite (round_zero q Hz). apply Qle_refl.
Qed.

Lemma round_opp (q : Q) : (round (- q) == - round q)%Q.
Proof.
  destruct (Q_dec q 0) as [[Hneg | Hpos] | Hz].
  - assert (Hp : (0 < - q)%Q) by lra.
    rewrite (round_pos _ Hp), (round_neg _ Hneg). ring.
  - assert (Hn : (- q < 0)%Q) by lra.
    rewrite (round_neg _ Hn), (round_pos _ Hpos).
    rewrite (roundPositive_comp (- - q) q); [reflexivity | lra | ring].
  - rewrite (round_zero q Hz). rewrite (round_zero (- q)); [reflexivity|].
    rewrite Hz. reflexivity.
Qed.

(** Rounding is monotone. *)
Lemma round_le (x y : Q) : (x <= y)%Q -> (round x <= round y)%Q.
Proof.
  intros H.
  destruct (Qlt_le_dec 0 x) as [Hx | Hx].
  - assert (Hy : (0 < y)%Q) by lra.
    rewrite (round_pos x Hx), (round_pos y Hy). apply roundPositive_le; assumption.
  - destruct (Qlt_le_dec y 0) as [Hy | Hy].
    + assert (Hxn : (x < 0)%Q) by lra.
      rewrite (round_neg x Hxn), (round_neg y Hy).
      assert (Hy' : (0 < - y)%Q) by lra.
      assert (Hle : (- y <= - x)%Q) by lra.
      pose proof (roundPositive_le (- y) (- x) Hy' Hle). lra.
    + apply Qle_trans with 0%Q; [apply round_nonpos | apply round_nonneg]; assumption.
Qed.

(** A number [m * 2^e] with [|m| <= 2^53] and [e >= emin] is a double. *)
Lemma roundPositive_fix (m e : Z) :
  0 < m < 2 ^ 53 -> emin <= e ->
  (roundPositive (inject_Z m * pow2 e) == inject_Z m * pow2 e)%Q.
Proof.
  intros Hm He.
  set (q := (inject_Z m * pow2 e)%Q).
  assert (Hmq : (0 < inject_Z m)%Q) by (unfold Qlt; cbn; lia).
  assert (Hq : (0 < q)%Q) by (apply Qmult_lt_0_compat; [exact Hmq | apply pow2_pos]).
  assert (Hlog : ilog2 q - 52 <= e).
  { destruct (ilog2_spec q Hq) as [S1 _].
    assert (ilog2 q < e + 53); [|lia].
    apply pow2_lt_inv. eapply Qle_lt_trans; [exact S1|].
    unfold q. replace (e + 53) with (53 + e) by lia. rewrite pow2_add.
    apply Qmult_lt_compat_r; [apply pow2_pos|].
    rewrite (pow2_Z 53) by lia. rewrite <- Zlt_Qlt. lia. }
  assert (Hexp : exponent q <= e) by (unfold exponent; lia).
  unfold roundPositive. fold q.
  set (e' := exponent q) in *.
  assert (Hs : (q / pow2 e' == inject_Z (m * 2 ^ (e - e')))%Q).
  { unfold q. rewrite inject_Z_mult, <- (pow2_Z (e - e')) by lia.
    replace (pow2 e) with (pow2 ((e - e') + e')) by (f_equal; lia).
    rewrite pow2_add. field. intros H0. pose proof (pow2_pos e') as P. rewrite H0 in P.
    discriminate P. }
  rewrite (rne_comp _ _ Hs), rne_Z.
  rewrite inject_Z_mult, <- (pow2_Z (e - e')) by lia.
  rewrite <- Qmult_assoc, <- pow2_add.
  replace (e - e' + e') with e by lia. reflexivity.
Qed.

Lemma round_fix (m e : Z) :
  Z.abs m <= 2 ^ 53 -> emin <= e ->
  (round (inject_Z m * pow2 e) == inject_Z m * pow2 e)%Q.
Proof.
  assert (Hpos : forall m e, 0 < m <= 2 ^ 53 -> emin <= e ->
            (round (inject_Z m * pow2 e) == inject_Z m * pow2 e)%Q).
  { clear m e. intros m e Hm He.
    assert (Hmq : (0 < inject_Z m)%Q) by (unfold Qlt; cbn; lia).
    assert (Hq : (0 < inject_Z m * pow2 e)%Q)
      by (apply Qmult_lt_0_compat; [exact Hmq | apply pow2_pos]).
    rewrite (round_pos _ Hq).
    destruct (Z.eq_dec m (2 ^ 53)) as [-> | Hne].
    - assert (E : (inject_Z (2 ^ 53) * pow2 e == inject_Z (2 ^ 52) * pow2 (e + 1))%Q).
      { rewrite pow2_succ. change (2 ^ 53) with (2 ^ 52 * 2). rewrite inject_Z_mult.
        change (inject_Z 2) with 2%Q. ring. }
      rewrite (roundPositive_comp _ _ Hq E). rewrite roundPositive_fix; [|lia|lia].
      symmetry. exact E.
    - apply roundPositive_fix; lia. }
  intros Hm He.
  destruct (Z.lt_trichotomy m 0) as [Hneg | [-> | Hp]].
  - assert (E : (inject_Z m * pow2 e == - (inject_Z (- m) * pow2 e))%Q)
      by (rewrite inject_Z_opp; ring).
    rewrite (round_comp _ _ E), round_opp, Hpos; [symmetry; exact E | lia | exact He].
  - rewrite (round_zero); [ring | ring].
  - apply Hpos; [lia | exact He].
Qed.

(** Whole numbers up to [2^53] are doubles. *)
Lemma round_Z (z : Z) : Z.abs z <= 2 ^ 53 -> (round (inject_Z z) == inject_Z z)%Q.
Proof.
  intros H.
  assert (E : (inject_Z z == inject_Z z * pow2 0)%Q) by (unfold pow2; cbn; ring).
  rewrite (round_comp _ _ E). rewrite round_fix; [symmetry; exact E | exact H |].
  unfold emin. lia.
Qed.

(** A rounded number is a double: rounding it again changes nothing. *)
Lemma round_idem (q : Q) : (round (round q) == round q)%Q.
Proof.
  assert (Hpos : forall q, (0 < q)%Q -> (round (roundPositive q) == roundPositive q)%Q).
  { clear q. intros q Hq. unfold roundPositive.
    destruct (mantissa_range q Hq) as [[H0 H53] _].
    apply round_fix; [lia | unfold exponent; lia]. }
  destruct (Q_dec q 0) as [[Hneg | Hp] | Hz].
  - assert (Hp : (0 < - q)%Q) by lra.
    rewrite (round_comp _ _ (round_neg q Hneg)), round_opp, Hpos; [|exact Hp].
    symmetry. apply round_neg. exact Hneg.
  - rewrite (round_comp _ _ (round_pos q Hp)), Hpos; [|exact Hp].
    symmetry. apply round_pos. exact Hp.
  - rewrite (round_zero q Hz). reflexivity.
Qed.

(** The rounding of a whole number is a whole number. *)
Lemma round_whole (z : Z) : exists z' : Z, (round (inject_Z z) == inject_Z z')%Q.
Proof.
  assert (Hpos : forall z, 2 ^ 53 < z -> exists z', (round (inject_Z z) == inject_Z z')%Q).
  { clear z. intros z Hz.
    assert (Hq : (0 < inject_Z z)%Q) by (unfold Qlt; cbn; lia).
    assert (Hlog : 53 <= ilog2 (inject_Z z)).
    { assert (E : ilog2 (pow2 53) = 53).
      { apply ilog2_unique; [apply Qle_refl | apply pow2_lt; lia]. }
      rewrite <- E. apply ilog2_le; [apply pow2_pos|].
      rewrite (pow2_Z 53) by lia. rewrite <- Zle_Qle. lia. }
    assert (He : 0 <= exponent (inject_Z z)) by (unfold exponent; lia).
    exists (rne (inject_Z z / pow2 (exponent (inject_Z z))) * 2 ^ exponent (inject_Z z)).
    rewrite (round_pos _ Hq). unfold roundPositive.
    rewrite inject_Z_mult, <- (pow2_Z _ He). reflexivity. }
  destruct (Z_le_gt_dec (Z.abs z) (2 ^ 53)) as [Hs | Hl].
  - exists z. apply round_Z. exact Hs.
  - destruct (Z_lt_le_dec z 0) as [Hn | Hp].
    + destruct (Hpos (- z)) as [z' Hz']; [lia|].
      exists (- z').
      assert (E : (inject_Z z == - inject_Z (- z))%Q) by (rewrite inject_Z_opp; ring).
      rewrite (round_comp _ _ E), round_opp, Hz', inject_Z_opp. reflexivity.
    + apply Hpos. lia.
Qed.

(** The error of one rounding: half a unit in the last place of the
    bound, for any bound in the normal range. *)
Lemma round_error (x B : Q) :
  (Qabs x <= B)%Q -> (pow2 (-1022) <= B)%Q ->
  (Qabs (round x - x) <= B * pow2 (-53))%Q.
Proof.
  assert (Hpos : forall x B, (0 < x)%Q -> (x <= B)%Q -> (pow2 (-1022) <= B)%Q ->
            (Qabs (roundPositive x - x) <= B * pow2 (-53))%Q).
  { clear x B. intros x B Hx HxB HB.
    set (e := exponent x).
    assert (He : (pow2 (e + 52) <= B)%Q).
    { destruct (Z.eq_dec e emin) as [E | NE].
      - rewrite E. exact HB.
      - apply Qle_trans with x; [|exact HxB]. apply exponent_lower; [exact Hx|].
        unfold e, exponent in *. lia. }
    pose proof (rne_near (x / pow2 e)) as [N1 N2].
    pose proof (pow2_pos e) as Pe.
    assert (Ex : (x == x / pow2 e * pow2 e)%Q).
    { field. intros H0. rewrite H0 in Pe. discriminate Pe. }
    assert (Hhalf : (pow2 (e + 52) * pow2 (-53) == (1 # 2) * pow2 e)%Q).
    { rewrite <- pow2_add. replace (e + 52 + -53) with (e + -1) by lia.
      rewrite pow2_add. unfold pow2 at 2. cbn. ring. }
    assert (Hb : ((1 # 2) * pow2 e <= B * pow2 (-53))%Q).
    { rewrite <- Hhalf. apply Qmult_le_compat_r; [exact He|].
      apply Qlt_le_weak. apply pow2_pos. }
    unfold roundPositive. fold e.
    set (m := inject_Z (rne (x / pow2 e))) in *.
    set (s := (x / pow2 e)%Q) in *.
    apply Qabs_Qle_condition. split.
    - assert ((s - m) * pow2 e <= (1 # 2) * pow2 e)%Q
        by (apply Qmult_le_compat_r; [exact N2 | apply Qlt_le_weak; exact Pe]).
      fold s in Ex. clearbody s m. lra.
    - assert ((m - s) * pow2 e <= (1 # 2) * pow2 e)%Q
        by (apply Qmult_le_compat_r; [exact N1 | apply Qlt_le_weak; exact Pe]).
      fold s in Ex. clearbody s m. lra. }
  intros HxB HB.
  assert (HB0 : (0 <= B * pow2 (-53))%Q).
  { apply Qmult_le_0_compat; [|apply Qlt_le_weak; apply pow2_pos].
    apply Qle_trans with (pow2 (-1022)); [apply Qlt_le_weak; apply pow2_pos | exact HB]. }
  destruct (Q_dec x 0) as [[Hneg | Hp] | Hz].
  - assert (Hp : (0 < - x)%Q) by lra.
    assert (HxB' : (- x <= B)%Q).
    { rewrite <- (Qabs_neg x); [exact HxB | lra]. }
    pose proof (Hpos (- x)%Q B Hp HxB' HB) as H.
    rewrite (round_neg x Hneg).
    assert (E : (- roundPositive (- x) - x == - (roundPositive (- x) - - x))%Q) by ring.
    rewrite E, Qabs_opp. exact H.
  - assert (HxB' : (x <= B)%Q).
    { rewrite <- (Qabs_pos x); [exact HxB | lra]. }
    rewrite (round_pos x Hp). apply Hpos; assumption.
  - rewrite (round_zero x Hz).
    assert (E : (0 - x == 0)%Q) by (rewrite Hz; ring).
    rewrite E. exact HB0.
Qed.

End DoubleFacts.

(* ===================================================================== *)
(** ** Token bucket: refill and consumption *)
(* ===================================================================== *)

Section TokenBucketFacts.
Import TokenBucket.

Lemma Qlt_bool_true (x y : Q) : Qlt_bool x y = true <-> (x < y)%Q.
Proof.
  unfold Qlt_bool. rewrite negb_true_iff. split.
  - intros H. apply Qnot_le_lt. intros Hle.
    apply Qle_bool_iff in Hle. congruence.
  - intros H. destruct (Qle_bool y x) eqn:E; [|reflexivity].
    apply Qle_bool_iff in E. exfalso. exact (Qlt_not_le _ _ H E).
Qed.

Lemma refillTokens_cases (now : Z) (b : TokenBucketRateLimiter) :
  (tokensToAdd now b <= 0 /\ refillTokens now b = b) \/
  (0 < tokensToAdd now b /\
   tokens (refillTokens now b)
     = Qmin (capacity b) (Double.add (tokens b) (inject_Z (tokensToAdd now b))) /\
   lastRefill (refillTokens now b) = now).
Proof.
  unfold refillTokens. destruct (0 <? tokensToAdd now b) eqn:E.
  - right. apply Z.ltb_lt in E. simpl. auto.
  - left. apply Z.ltb_ge in E. auto.
Qed.

Lemma refillTokens_static (now : Z) (b : TokenBucketRateLimiter) :
  capacity (refillTokens now b) = capacity b /\
  refillRate (refillTokens now b) = refillRate b.
Proof. unfold refillTokens. destruct (0 <? tokensToAdd now b); simpl; auto. Qed.

Lemma round_one : (Double.round 1 == 1)%Q.
Proof. apply (round_Z 1). cbn. lia. Qed.

(** A sum of a non-negative count and a positive whole number rounds to
    at least one. *)
Lemma add_ge_one (x : Q) (k : Z) : (0 <= x)%Q -> 0 < k -> (1 <= Double.add x (inject_Z k))%Q.
Proof.
  intros Hx Hk. unfold Double.add. rewrite <- round_one. apply round_le.
  assert (H1 : (inject_Z 1 <= inject_Z k)%Q) by (rewrite <- Zle_Qle; lia).
  change (inject_Z 1) with 1%Q in H1. revert H1. generalize (inject_Z k). intros c H1. lra.
Qed.

(** A refill that adds something leaves at least one token. *)
Lemma refill_adds_one (now : Z) (b : TokenBucketRateLimiter) :
  (1 <= capacity b)%Q -> (0 <= tokens b)%Q -> 0 < tokensToAdd now b ->
  (1 <= tokens (refillTokens now b))%Q.
Proof.
  intros Hcap Htok Hadd.
  destruct (refillTokens_cases now b) as [[Hle _] | (_ & Heq & _)]; [lia|].
  rewrite Heq. apply Q.min_glb; [exact Hcap|]. apply add_ge_one; assumption.
Qed.

(** Refilling never takes a bucket below one token. *)
Lemma refill_keeps_one (now : Z) (b : TokenBucketRateLimiter) :
  (1 <= capacity b)%Q -> (1 <= tokens b)%Q -> (1 <= tokens (refillTokens now b))%Q.
Proof.
  intros Hcap Htok.
  destruct (refillTokens_cases now b) as [[_ Heq] | (Hadd & _ & _)].
  - rewrite Heq. exact Htok.
  - apply refill_adds_one; auto.
    apply Qle_trans with 1%Q; [discriminate | exact Htok].
Qed.

(** Between consumptions, either nothing was added and the bucket is the
    one we started from, or it holds at least one token. *)
Lemma refillsAt_inv (ts : list Z) (b : TokenBucketRateLimiter) :
  (1 <= capacity b)%Q -> (0 <= tokens b)%Q ->
  refillsAt ts b = b \/
  ((1 <= tokens (refillsAt ts b))%Q /\ capacity (refillsAt ts b) = capacity b).
Proof.
  intros Hcap Htok. unfold refillsAt.
  induction ts as [|u ts IH] using rev_ind; [left; reflexivity|].
  rewrite fold_left_app. simpl.
  set (b' := fold_left (fun acc u0 => refillTokens u0 acc) ts b) in *.
  destruct IH as [IH | [IH1 IH2]].
  - rewrite IH.
    destruct (refillTokens_cases u b) as [[_ Heq] | (Hadd & _ & _)]; [left; exact Heq|].
    right. split; [apply refill_adds_one; auto | apply refillTokens_static].
  - right. split.
    + apply refill_keeps_one; [rewrite IH2|]; assumption.
    + rewrite <- IH2. apply refillTokens_static.
Qed.

(** The product computed by a refill does not shrink as time passes. *)
Lemma accrued_mono (rate : Q) (t t' : Z) :
  (0 <= rate)%Q -> t <= t' ->
  (Double.mul (Double.div (inject_Z t) 1000) rate
   <= Double.mul (Double.div (inject_Z t') 1000) rate)%Q.
Proof.
  intros Hrate Ht. unfold Double.mul, Double.div. apply round_le.
  apply Qmult_le_compat_r; [|exact Hrate]. apply round_le.
  apply Qmult_le_compat_r; [rewrite <- Zle_Qle; exact Ht | discriminate].
Qed.

(** Once the advertised time has passed since the last refill, the
    floor of the accrued amount is at least one, at a rate for which the
    advertised wait accrues a token. *)
Lemma tokensToAdd_after_wait (now : Z) (b : TokenBucketRateLimiter) :
  (0 < refillRate b)%Q -> waitAccruesToken b ->
  lastRefill b + advertisedWait b <= now ->
  1 <= tokensToAdd now b.
Proof.
  intros Hrate Hacc Hwait. unfold tokensToAdd, accrued.
  rewrite <- (Qfloor_Z 1). apply Qfloor_resp_le.
  change (inject_Z 1) with 1%Q.
  apply Qle_trans with
    (Double.mul (Double.div (inject_Z (advertisedWait b)) 1000) (refillRate b));
    [exact Hacc|].
  apply accrued_mono; [apply Qlt_le_weak; exact Hrate | lia].
Qed.

Lemma consume_true_iff (now : Z) (n : Q) (b : TokenBucketRateLimiter) :
  fst (consume now n b) = true <-> (n <= tokens (refillTokens now b))%Q.
Proof.
  unfold consume, canConsume.
  destruct (Qle_bool n (tokens (refillTokens now b))) eqn:E; simpl.
  - apply Qle_bool_iff in E. tauto.
  - split; [discriminate|]. intros H. apply Qle_bool_iff in H. congruence.
Qed.

Lemma getTimeUntilNextToken_empty (b : TokenBucketRateLimiter) :
  (tokens b == 0)%Q -> getTimeUntilNextToken b = advertisedWait b.
Proof.
  intros Htok. unfold getTimeUntilNextToken.
  destruct (Qlt_bool 0 (tokens b)) eqn:E; [|reflexivity].
  apply Qlt_bool_true in E. rewrite Htok in E. discriminate E.
Qed.

(** The heart of the waiting argument: once the advertised wait has
    passed since the last refill, a refill leaves at least one token,
    whatever refills ran in between. *)
Lemma one_token_after_wait (b : TokenBucketRateLimiter) (t' : Z) (ts : list Z) :
  (1 <= capacity b)%Q -> (0 < refillRate b)%Q -> wholeTokens b -> waitAccruesToken b ->
  lastRefill b + getTimeUntilNextToken b <= t' ->
  (1 <= tokens (refillTokens t' (refillsAt ts b)))%Q.
Proof.
  intros Hcap Hrate (k & Hk & Htok) Hacc Hwait.
  assert (Hnonneg : (0 <= tokens b)%Q).
  { rewrite Htok. change 0%Q with (inject_Z 0). rewrite <- Zle_Qle. exact Hk. }
  destruct (refillsAt_inv ts b Hcap Hnonneg) as [Hsame | [Hone Hc]].
  - rewrite Hsame.
    destruct (Z.eq_dec k 0) as [-> | Hpos].
    + apply refill_adds_one; auto.
      rewrite (getTimeUntilNextToken_empty b Htok) in Hwait.
      assert (1 <= tokensToAdd t' b); [|lia].
      apply tokensToAdd_after_wait; assumption.
    + apply refill_keeps_one; [exact Hcap|].
      rewrite Htok. change 1%Q with (inject_Z 1). rewrite <- Zle_Qle. lia.
  - apply refill_keeps_one; [rewrite Hc; exact Hcap | exact Hone].
Qed.

Lemma advertisedWait_nonneg (b : TokenBucketRateLimiter) :
  (0 < refillRate b)%Q -> 0 <= advertisedWait b.
Proof.
  intros Hrate. unfold advertisedWait.
  apply Z.le_trans with (Qceiling 0); [reflexivity|].
  apply Qceiling_resp_le. unfold Double.mul, Double.div.
  apply round_nonneg. rewrite Qmult_1_l. apply round_nonneg.
  apply Qlt_le_weak. apply Qlt_shift_div_l; [exact Hrate|]. reflexivity.
Qed.

Lemma getTimeUntilNextToken_nonneg (b : TokenBucketRateLimiter) :
  (0 < refillRate b)%Q -> 0 <= getTimeUntilNextToken b.
Proof.
  intros Hrate. unfold getTimeUntilNextToken.
  destruct (Qlt_bool 0 (tokens b)); [lia | apply advertisedWait_nonneg; exact Hrate].
Qed.

Lemma whole_lt_succ (a b : Z) : (inject_Z a < inject_Z b + 1)%Q -> a <= b.
Proof. unfold Qlt. cbn. lia. Qed.

(** Two roundings of a product of magnitude up to [2^50] move it by less
    than one half. *)
Lemma accrued_near_exact (now : Z) (b : TokenBucketRateLimiter) :
  (Qabs (exactAccrual now b) <= inject_Z (2 ^ 50))%Q ->
  (Qabs (accrued now b - exactAccrual now b) <= 1 # 2)%Q.
Proof.
  unfold accrued, exactAccrual, Double.mul, Double.div.
  set (t := now - lastRefill b). set (r := refillRate b).
  set (a := (inject_Z t / 1000)%Q). intros HX.
  set (u := Double.pow2 (-53)).
  assert (Hu : (u == 1 # 9007199254740992)%Q) by reflexivity.
  (* the quotient *)
  assert (Hy : (Qabs (Double.round a - a) <= Qabs a * u)%Q).
  { destruct (Z.eq_dec t 0) as [Ht | Ht].
    - assert (Ea : (a == 0)%Q) by (unfold a; rewrite Ht; reflexivity).
      rewrite (round_zero a Ea).
      assert (E0 : (0 - a == 0)%Q) by (rewrite Ea; reflexivity).
      rewrite E0, Ea. cbn. discriminate.
    - apply round_error; [apply Qle_refl|].
      apply Qle_trans with (1 # 1000)%Q; [vm_compute; discriminate|].
      unfold a, Qdiv. rewrite Qabs_Qmult.
      assert (H1 : (1 <= Qabs (inject_Z t))%Q).
      { unfold Qabs, inject_Z, Qle. cbn. lia. }
      change (Qabs (/ 1000)) with (1 # 1000)%Q.
      revert H1. generalize (Qabs (inject_Z t)). intros c H1. lra. }
  set (y := Double.round a) in *.
  (* the product *)
  assert (HyX : (Qabs (y * r - a * r) <= Qabs (a * r) * u)%Q).
  { assert (E : (y * r - a * r == (y - a) * r)%Q) by ring.
    rewrite E, !Qabs_Qmult.
    assert (E2 : (Qabs a * Qabs r * u == Qabs a * u * Qabs r)%Q) by ring.
    rewrite E2. apply Qmult_le_compat_r; [exact Hy | apply Qabs_nonneg]. }
  assert (Hyr : (Qabs (y * r) <= inject_Z (2 ^ 51))%Q).
  { assert (T : (Qabs (y * r) <= Qabs (y * r - a * r) + Qabs (a * r))%Q).
    { assert (E : (y * r == (y * r - a * r) + a * r)%Q) by ring.
      rewrite E at 1. apply Qabs_triangle. }
    assert (I1 : (inject_Z (2 ^ 50) == 1125899906842624)%Q) by reflexivity.
    assert (I2 : (inject_Z (2 ^ 51) == 2251799813685248)%Q) by reflexivity.
    rewrite I2. rewrite I1 in HX.
    pose proof (Qabs_nonneg (a * r)) as N.
    revert HX T HyX N. generalize (Qabs (y * r)) (Qabs (y * r - a * r)) (Qabs (a * r)).
    intros c1 c2 c3 HX T HyX N. nra. }
  assert (Hp : (Qabs (Double.round (y * r) - y * r) <= inject_Z (2 ^ 51) * u)%Q).
  { apply round_error; [exact Hyr | vm_compute; discriminate]. }
  assert (T : (Qabs (Double.round (y * r) - a * r)
               <= Qabs (Double.round (y * r) - y * r) + Qabs (y * r - a * r))%Q).
  { assert (E : (Double.round (y * r) - a * r
                 == (Double.round (y * r) - y * r) + (y * r - a * r))%Q) by ring.
    rewrite E. apply Qabs_triangle. }
  assert (I1 : (inject_Z (2 ^ 50) == 1125899906842624)%Q) by reflexivity.
  assert (I2 : (inject_Z (2 ^ 51) == 2251799813685248)%Q) by reflexivity.
  rewrite I1 in HX. rewrite I2 in Hp.
  pose proof (Qabs_nonneg (a * r)) as N.
  revert HX T HyX Hp N.
  generalize (Qabs (Double.round (y * r) - a * r)) (Qabs (Double.round (y * r) - y * r))
             (Qabs (y * r - a * r)) (Qabs (a * r)).
  intros c1 c2 c3 c4 HX T HyX Hp N. nra.
Qed.

End TokenBucketFacts.

(** C1, as the code has it: the refill evaluates the product
    [(timePassed / 1000) * refillRate] in double arithmetic and adds its
    whole part, capped at the capacity; this whole part differs from the
    floor of the exact product by at most one.  [lastRefill] moves only
    when that part is positive; otherwise the bucket is left as it is.
    [consume(n)] then returns true exactly when the refilled count is at
    least [n]; it subtracts [n] in that case and subtracts nothing
    otherwise. *)
Theorem consume_refills_in_whole_tokens
    (now : Z) (n : Q) (b : TokenBucket.TokenBucketRateLimiter) :
  let product := TokenBucket.accrued now b in
  let exact := TokenBucket.exactAccrual now b in
  let added := TokenBucket.tokensToAdd now b in
  let refilled := TokenBucket.refillTokens now b in
  (inject_Z added <= product)%Q /\ (product < inject_Z (added + 1))%Q /\
  ((Qabs exact <= inject_Z (2 ^ 50))%Q ->
     Qfloor exact - 1 <= added <= Qfloor exact + 1) /\
  (0 < added ->
     TokenBucket.tokens refilled
       = Qmin (TokenBucket.capacity b)
              (Double.add (TokenBucket.tokens b) (inject_Z added))
     /\ TokenBucket.lastRefill refilled = now) /\
  (added <= 0 -> refilled = b) /\
  (fst (TokenBucket.consume now n b) = true <-> (n <= TokenBucket.tokens refilled)%Q) /\
  (fst (TokenBucket.consume now n b) = true ->
     TokenBucket.tokens (snd (TokenBucket.consume now n b))
       = Double.sub (TokenBucket.tokens refilled) n) /\
  (fst (TokenBucket.consume now n b) = false ->
     snd (TokenBucket.consume now n b) = refilled).
Proof.
  intros product exact added refilled.
  split; [apply Qfloor_le|].
  split; [apply Qlt_floor|].
  split.
  { intros Hsmall.
    pose proof (accrued_near_exact now b Hsmall) as Hnear.
    fold product exact in Hnear.
    apply Qabs_Qle_condition in Hnear. destruct Hnear as [Hlo Hhi].
    unfold added, TokenBucket.tokensToAdd. fold product.
    pose proof (Qfloor_le product) as P1. pose proof (Qlt_floor product) as P2.
    pose proof (Qfloor_le exact) as X1. pose proof (Qlt_floor exact) as X2.
    rewrite inject_Z_plus in P2, X2. change (inject_Z 1) with 1%Q in P2, X2.
    split.
    - apply (whole_lt_succ (Qfloor exact - 1) (Qfloor product)).
      unfold Z.sub. rewrite inject_Z_plus, inject_Z_opp. change (inject_Z 1) with 1%Q.
      clear Hsmall. revert P1 P2 X1 X2. generalize (inject_Z (Qfloor product)) (inject_Z (Qfloor exact)).
      intros c1 c2 P1 P2 X1 X2. lra.
    - apply (whole_lt_succ (Qfloor product) (Qfloor exact + 1)).
      rewrite inject_Z_plus. change (inject_Z 1) with 1%Q.
      clear Hsmall. revert P1 P2 X1 X2. generalize (inject_Z (Qfloor product)) (inject_Z (Qfloor exact)).
      intros c1 c2 P1 P2 X1 X2. lra. }
  split.
  { intros Hpos.
    destruct (refillTokens_cases now b) as [[Hle _] | (_ & H1 & H2)].
    - unfold added in Hpos. lia.
    - split; assumption. }
  split.
  { intros Hle.
    destruct (refillTokens_cases now b) as [[_ H] | (Hpos & _)].
    - exact H.
    - unfold added in Hle. lia. }
  split; [apply consume_true_iff|].
  unfold TokenBucket.consume, TokenBucket.canConsume. fold refilled.
  destruct (Qle_bool n (TokenBucket.tokens refilled)); simpl; split;
    intros; congruence.
Qed.

(** C1, counterexample: the trial bucket, emptied at instant 0 and looked
    at 45 seconds later, has accrued half a token by the continuous
    formula; the code holds none. *)
Lemma refill_is_not_continuous :
  let b := snd (TokenBucket.consume 0 1
                  (TokenBucket.constructor 0 TokenBucket.SPORTRADAR_RATE_LIMITS_trial)) in
  (1 # 2 <= TokenBucket.continuousRefill 45000 b)%Q /\
  (TokenBucket.tokens (TokenBucket.refillTokens 45000 b) == 0)%Q /\
  ~ (TokenBucket.tokens (TokenBucket.refillTokens 45000 b)
     == TokenBucket.continuousRefill 45000 b)%Q.
Proof.
  vm_compute. repeat split; discriminate.
Qed.

(** C9, as the code has it: for a bucket whose token count is a whole
    non-negative number, with capacity at least one and a positive rate at
    which the advertised wait accrues a whole token in double arithmetic,
    [getTimeUntilNextToken] is 0 when a token is available, and a
    [consume(1)] at or after the advertised instant succeeds, whatever
    refills ran in between. *)
Theorem consume_succeeds_after_advertised_wait
    (b : TokenBucket.TokenBucketRateLimiter) (t t' : Z) (ts : list Z) :
  (1 <= TokenBucket.capacity b)%Q ->
  (0 < TokenBucket.refillRate b)%Q ->
  TokenBucket.wholeTokens b ->
  TokenBucket.waitAccruesToken b ->
  TokenBucket.lastRefill b <= t ->
  t + TokenBucket.getTimeUntilNextToken b <= t' ->
  ((1 <= TokenBucket.tokens b)%Q -> TokenBucket.getTimeUntilNextToken b = 0) /\
  fst (TokenBucket.consume t' 1 (TokenBucket.refillsAt ts b)) = true.
Proof.
  intros Hcap Hrate Hwhole Hacc Hlast Hwait.
  assert (Hzero : (1 <= TokenBucket.tokens b)%Q -> TokenBucket.getTimeUntilNextToken b = 0).
  { intros H1. unfold TokenBucket.getTimeUntilNextToken.
    replace (TokenBucket.Qlt_bool 0 (TokenBucket.tokens b)) with true; [reflexivity|].
    symmetry. apply Qlt_bool_true.
    apply Qlt_le_trans with 1%Q; [reflexivity | exact H1]. }
  split; [exact Hzero|].
  apply consume_true_iff.
  apply one_token_after_wait; auto. lia.
Qed.

(** The trial bucket, emptied at instant 0: the advertised wait is 90
    seconds, and a draw at that instant succeeds. *)
Lemma consume_succeeds_after_advertised_wait_witness :
  let b := snd (TokenBucket.consume 0 1
                  (TokenBucket.constructor 0 TokenBucket.SPORTRADAR_RATE_LIMITS_trial)) in
  TokenBucket.getTimeUntilNextToken b = 90000 /\
  fst (TokenBucket.consume 90000 1 (TokenBucket.refillsAt [1000; 2000] b)) = true.
Proof.
  split; [vm_compute; reflexivity|].
  apply (consume_succeeds_after_advertised_wait
           (snd (TokenBucket.consume 0 1
                   (TokenBucket.constructor 0 TokenBucket.SPORTRADAR_RATE_LIMITS_trial)))
           0 90000 [1000; 2000]).
  - vm_compute. discriminate.
  - vm_compute. reflexivity.
  - exists 0. split; [lia | vm_compute; reflexivity].
  - vm_compute. discriminate.
  - vm_compute. discriminate.
  - vm_compute. discriminate.
Defined.

(** C9, counterexample: a bucket configured with half a token reports a
    wait of 0, has capacity 1 and rate 1, and refuses a draw of one token
    at that very instant. *)
Lemma zero_wait_with_fractional_tokens_refused :
  let b := TokenBucket.constructor 0
             {| TokenBucket.cfg_capacity := 1; TokenBucket.cfg_refillRate := 1;
                TokenBucket.cfg_refillInterval := 1000;
                TokenBucket.cfg_initialTokens := Some (1 # 2) |} in
  (1 <= TokenBucket.capacity b)%Q /\ (0 < TokenBucket.refillRate b)%Q /\
  TokenBucket.getTimeUntilNextToken b = 0 /\
  fst (TokenBucket.consume (0 + TokenBucket.getTimeUntilNextToken b) 1 b) = false.
Proof.
  vm_compute. repeat split; discriminate.
Qed.

(** Both shipped rates accrue a whole token within the advertised wait. *)
Lemma shipped_rates_accrue_within_the_wait :
  TokenBucket.waitAccruesToken
    (TokenBucket.constructor 0 TokenBucket.SPORTRADAR_RATE_LIMITS_trial) /\
  TokenBucket.waitAccruesToken
    (TokenBucket.constructor 0 TokenBucket.SPORTRADAR_RATE_LIMITS_production).
Proof. split; vm_compute; discriminate. Qed.

(** Rounding in the refill and in the advertised wait.  Three seconds at
    the rate [1 / 3]: the exact product of 3 and the double 1/3 is below
    1, the product in double arithmetic is 1 and a token is added.  At the
    rate [1 / 49] the quotient [1000 / rate] rounds above 49000 and the
    advertised wait is 49001 ms. *)
Lemma rounding_in_refill_and_wait :
  let third := TokenBucket.emptyBucket (Double.div 1 3) in
  (TokenBucket.exactAccrual 3000 third < 1)%Q /\
  TokenBucket.tokensToAdd 3000 third = 1 /\
  fst (TokenBucket.consume 3000 1 third) = true /\
  TokenBucket.getTimeUntilNextToken (TokenBucket.emptyBucket (Double.div 1 49)) = 49001.
Proof. vm_compute. repeat split; reflexivity. Qed.

(** The advertised wait can be too short.  At the rate [1 / 161] an empty
    bucket advertises 161 seconds; at that instant the refill computes
    [161 * (1 / 161)], which is below 1 in double arithmetic, adds nothing
    and the draw is refused.  The rate is excluded by [waitAccruesToken]. *)
Lemma advertised_wait_is_too_short_at_rate_1_161 :
  let b := TokenBucket.emptyBucket (Double.div 1 161) in
  TokenBucket.getTimeUntilNextToken b = 161000 /\
  (TokenBucket.accrued 161000 b < 1)%Q /\
  TokenBucket.consume 161000 1 b = (false, b) /\
  ~ TokenBucket.waitAccruesToken b.
Proof.
  vm_compute. repeat split; try reflexivity. intros H. apply H. reflexivity.
Qed.

(* ===================================================================== *)
(** ** Advanced limiter: circuit breaker and drain loop *)
(* ===================================================================== *)

Section AdvancedRateLimiterFacts.
Import AdvancedRateLimiter.

Lemma recordFailure_fields (t : Z) (st : AdvancedRateLimiter) :
  circuitBreakerFailures (recordFailure t st) = circuitBreakerFailures st + 1 /\
  circuitBreakerThreshold (recordFailure t st) = circuitBreakerThreshold st /\
  circuitBreakerResetTime (recordFailure t st) = circuitBreakerResetTime st /\
  tokenBucket (recordFailure t st) = tokenBucket st /\
  requestQueue (recordFailure t st) = requestQueue st.
Proof.
  unfold recordFailure.
  destruct (circuitBreakerThreshold st <=? circuitBreakerFailures st + 1); simpl; auto.
Qed.

Lemma recordFailure_trip (t : Z) (st : AdvancedRateLimiter) :
  circuitBreakerThreshold st <= circuitBreakerFailures st + 1 ->
  lastCircuitBreakerTrip (recordFailure t st) = t.
Proof.
  intros H. unfold recordFailure.
  destruct (circuitBreakerThreshold st <=? circuitBreakerFailures st + 1) eqn:E;
    [reflexivity | apply Z.leb_gt in E; lia].
Qed.

Lemma recordFailures_snoc (times : list Z) (t : Z) (st : AdvancedRateLimiter) :
  recordFailures (times ++ [t]) st = recordFailure t (recordFailures times st).
Proof. unfold recordFailures. rewrite fold_left_app. reflexivity. Qed.

Lemma recordFailures_fields (times : list Z) (st : AdvancedRateLimiter) :
  circuitBreakerFailures (recordFailures times st)
    = circuitBreakerFailures st + Z.of_nat (length times) /\
  circuitBreakerThreshold (recordFailures times st) = circuitBreakerThreshold st /\
  circuitBreakerResetTime (recordFailures times st) = circuitBreakerResetTime st.
Proof.
  induction times as [|t times IH] using rev_ind.
  - simpl. repeat split; lia.
  - rewrite recordFailures_snoc.
    destruct (recordFailure_fields t (recordFailures times st)) as (F & T & R & _).
    destruct IH as (IF & IT & IR).
    rewrite F, T, R, IF, IT, IR, length_app. simpl. repeat split; lia.
Qed.

(** The error path that counts against the breaker. *)
Lemma handleRequestError_records (now : Z) (request : QueuedRequest)
    (error : RequestError) (st : AdvancedRateLimiter) :
  (isRateLimitError error && (retryCount request <? maxRetries st))%bool = false ->
  handleRequestError now request error st
    = ([Rejected (requestId request) error], recordFailure now st).
Proof. intros H. unfold handleRequestError. rewrite H. reflexivity. Qed.

Lemma handleRequestError_bucket (now : Z) (request : QueuedRequest)
    (error : RequestError) (st : AdvancedRateLimiter) :
  tokenBucket (snd (handleRequestError now request error st)) = tokenBucket st.
Proof.
  unfold handleRequestError.
  destruct (isRateLimitError error && (retryCount request <? maxRetries st))%bool;
    simpl; [reflexivity | apply recordFailure_fields].
Qed.

(** Two polls are enough on a bucket that is ready: the first draw
    succeeds, or the bucket is empty and the second draw is made once
    the advertised wait has passed. *)
Lemma waitForToken_returns (polls : nat) (now : Z)
    (b : TokenBucket.TokenBucketRateLimiter) :
  (2 <= polls)%nat -> bucketReady now b ->
  exists now', now <= now' /\
    waitForToken polls now b
      = Some (now', snd (TokenBucket.consume now' 1 b)) /\
    fst (TokenBucket.consume now' 1 b) = true.
Proof.
  intros Hpolls (Hcap & Hrate & Hwhole & Hacc & Hlast).
  destruct polls as [|[|polls]]; [lia | lia |].
  cbn [waitForToken].
  destruct (TokenBucket.consume now 1 b) as [ok b'] eqn:E.
  destruct ok.
  - exists now. rewrite E. simpl. split; [lia | auto].
  - assert (Hfst : fst (TokenBucket.consume now 1 b) = false) by (rewrite E; reflexivity).
    assert (Hb' : b' = TokenBucket.refillTokens now b).
    { revert E. unfold TokenBucket.consume, TokenBucket.canConsume.
      destruct (Qle_bool 1 _); intros E; inversion E; reflexivity. }
    assert (Hnot : ~ (1 <= TokenBucket.tokens (TokenBucket.refillTokens now b))%Q).
    { intros H. apply consume_true_iff in H. congruence. }
    destruct (refillTokens_cases now b) as [[_ Hsame] | (Hadd & _ & _)].
    2:{ exfalso. apply Hnot. apply refill_adds_one; auto.
        destruct Hwhole as (k & Hk & Htok). rewrite Htok.
        change 0%Q with (inject_Z 0). rewrite <- Zle_Qle. exact Hk. }
    rewrite Hsame in Hb'. subst b'.
    set (d := TokenBucket.getTimeUntilNextToken b).
    assert (Hd : 0 <= d) by (apply getTimeUntilNextToken_nonneg; exact Hrate).
    assert (Hgoal : fst (TokenBucket.consume (now + d) 1 b) = true).
    { apply consume_true_iff.
      apply (one_token_after_wait b (now + d) [] Hcap Hrate Hwhole Hacc). fold d. lia. }
    exists (now + d). split; [lia|].
    destruct (TokenBucket.consume (now + d) 1 b) as [ok2 b2] eqn:E2.
    simpl in Hgoal. subst ok2. simpl. auto.
Qed.

Lemma processRequest_executes (run : QueuedRequest -> Settled) (polls : nat)
    (now : Z) (request : QueuedRequest) (st : AdvancedRateLimiter) :
  (2 <= polls)%nat -> bucketReady now (tokenBucket st) ->
  exists evs now' st',
    processRequest run polls now request st
      = Some (Executed (requestId request) :: evs, now', st') /\
    TokenBucket.consume now' 1 (tokenBucket st) = (true, tokenBucket st').
Proof.
  intros Hpolls Hready.
  destruct (waitForToken_returns polls now _ Hpolls Hready) as (now' & _ & Hw & Hc).
  unfold processRequest. rewrite Hw.
  assert (Hpair : TokenBucket.consume now' 1 (tokenBucket st)
                  = (true, snd (TokenBucket.consume now' 1 (tokenBucket st)))).
  { destruct (TokenBucket.consume now' 1 (tokenBucket st)) as [ok b']; simpl in *.
    congruence. }
  set (b' := snd (TokenBucket.consume now' 1 (tokenBucket st))) in *.
  destruct (run request) as [v | e].
  - eexists _, now', _. split; [reflexivity|]. exact Hpair.
  - destruct (handleRequestError now' request e (set_bucket st b')) as [evs st2] eqn:E.
    eexists _, now', _. split; [reflexivity|].
    rewrite Hpair. f_equal.
    pose proof (handleRequestError_bucket now' request e (set_bucket st b')) as Hb.
    rewrite E in Hb. simpl in Hb. symmetry. exact Hb.
Qed.

Lemma handleRequestError_uncounted (now : Z) (c : FailedCall) (st : AdvancedRateLimiter) :
  counted st c = false ->
  handleRequestError now (failedRequest c) (failure c) st
  = ([RetryScheduled {| requestId := requestId (failedRequest c);
                        retryCount := retryCount (failedRequest c) + 1;
                        timestamp := timestamp (failedRequest c) |}], st).
Proof.
  unfold counted, handleRequestError. intros H. apply negb_false_iff in H.
  rewrite H. reflexivity.
Qed.

Lemma recordFailure_maxRetries (t : Z) (st : AdvancedRateLimiter) :
  maxRetries (recordFailure t st) = maxRetries st.
Proof.
  unfold recordFailure.
  destruct (circuitBreakerThreshold st <=? circuitBreakerFailures st + 1); reflexivity.
Qed.

(** Counted failures handled in a row are failure recordings in a row. *)
Lemma handleFailures_counted (calls : list FailedCall) (st : AdvancedRateLimiter) :
  Forall (fun c => counted st c = true) calls ->
  handleFailures calls st = recordFailures (List.map failedAt calls) st.
Proof.
  revert st. induction calls as [|c calls IH]; intros st Hall; [reflexivity|].
  inversion Hall as [|? ? Hc Hrest]; subst.
  unfold handleFailures, recordFailures. cbn [fold_left List.map].
  assert (Hno : (isRateLimitError (failure c)
                 && (retryCount (failedRequest c) <? maxRetries st))%bool = false).
  { unfold counted in Hc. apply negb_true_iff in Hc. exact Hc. }
  rewrite (handleRequestError_records (failedAt c) (failedRequest c) (failure c) st Hno).
  cbn [snd]. apply IH.
  eapply List.Forall_impl; [|exact Hrest].
  intros c' Hc'. unfold counted in *. rewrite recordFailure_maxRetries. exact Hc'.
Qed.

End AdvancedRateLimiterFacts.

(** C3: from a breaker with no counted failure, exactly [threshold] calls
    of [handleRequestError] in a row whose errors are counted (none of them
    a rate-limit error of a request with retries left) leave the counter at
    the threshold with the trip stamped at the last call; from then on
    [isCircuitBreakerOpen] answers true without changing anything while
    less than the reset time has passed since the trip, and once the reset
    time has passed it answers false and, in the same step, puts the
    counter back to 0.  A rate-limit error that is retried is not a
    failure recording: [handleRequestError] leaves the limiter as it is. *)
Theorem breaker_opens_at_threshold_and_resets_after_cooldown
    (st : AdvancedRateLimiter.AdvancedRateLimiter)
    (calls : list AdvancedRateLimiter.FailedCall) (now : Z) :
  AdvancedRateLimiter.circuitBreakerFailures st = 0 ->
  1 <= AdvancedRateLimiter.circuitBreakerThreshold st ->
  Z.of_nat (length calls) = AdvancedRateLimiter.circuitBreakerThreshold st ->
  Forall (fun c => AdvancedRateLimiter.counted st c = true) calls ->
  let st' := AdvancedRateLimiter.handleFailures calls st in
  let openedAt := List.last (List.map AdvancedRateLimiter.failedAt calls) 0 in
  AdvancedRateLimiter.circuitBreakerFailures st'
    = AdvancedRateLimiter.circuitBreakerThreshold st /\
  AdvancedRateLimiter.lastCircuitBreakerTrip st' = openedAt /\
  (now - openedAt < AdvancedRateLimiter.circuitBreakerResetTime st ->
     AdvancedRateLimiter.isCircuitBreakerOpen now st' = (true, st')) /\
  (AdvancedRateLimiter.circuitBreakerResetTime st <= now - openedAt ->
     fst (AdvancedRateLimiter.isCircuitBreakerOpen now st') = false /\
     AdvancedRateLimiter.circuitBreakerFailures
       (snd (AdvancedRateLimiter.isCircuitBreakerOpen now st')) = 0) /\
  (forall t c, AdvancedRateLimiter.counted st c = false ->
     snd (AdvancedRateLimiter.handleRequestError t
            (AdvancedRateLimiter.failedRequest c) (AdvancedRateLimiter.failure c) st)
     = st).
Proof.
  intros Hzero Hthr Hlen Hcounted st' openedAt.
  assert (Hst' : st' = AdvancedRateLimiter.recordFailures
                         (List.map AdvancedRateLimiter.failedAt calls) st)
    by (apply handleFailures_counted; exact Hcounted).
  set (times := List.map AdvancedRateLimiter.failedAt calls) in *.
  assert (Hlen' : Z.of_nat (length times) = AdvancedRateLimiter.circuitBreakerThreshold st)
    by (unfold times; rewrite length_map; exact Hlen).
  clearbody st'. subst st'.
  set (st' := AdvancedRateLimiter.recordFailures times st).
  destruct (recordFailures_fields times st) as (HF & HT & HR).
  fold st' in HF, HT, HR.
  assert (Hcount : AdvancedRateLimiter.circuitBreakerFailures st'
                   = AdvancedRateLimiter.circuitBreakerThreshold st) by lia.
  assert (Htrip : AdvancedRateLimiter.lastCircuitBreakerTrip st' = openedAt).
  { unfold st', openedAt.
    destruct times as [|t0 times'] using rev_ind; [simpl in Hlen'; lia|].
    rewrite recordFailures_snoc, List.last_last.
    apply recordFailure_trip.
    destruct (recordFailures_fields times' st) as (F & T & _).
    rewrite F, T, Hzero. rewrite length_app in Hlen'. simpl in Hlen'. lia. }
  split; [exact Hcount|]. split; [exact Htrip|].
  unfold AdvancedRateLimiter.isCircuitBreakerOpen.
  rewrite HT, HR, Hcount, Htrip, Z.leb_refl.
  split; [|split].
  - intros H.
    replace (now - openedAt <? AdvancedRateLimiter.circuitBreakerResetTime st) with true;
      [reflexivity | symmetry; apply Z.ltb_lt; exact H].
  - intros H.
    replace (now - openedAt <? AdvancedRateLimiter.circuitBreakerResetTime st) with false;
      [simpl; auto | symmetry; apply Z.ltb_ge; exact H].
  - intros t c Hc. rewrite (handleRequestError_uncounted t c st Hc). reflexivity.
Qed.

(** The client's limiter: five calls that fail with a server error, the
    last at 360 s; open at 400 s, closed and reset at 660 s. *)
Lemma breaker_opens_at_threshold_and_resets_after_cooldown_witness :
  let st' := AdvancedRateLimiter.handleFailures
               [AdvancedRateLimiter.serverErrorAt 0 1;
                AdvancedRateLimiter.serverErrorAt 90000 2;
                AdvancedRateLimiter.serverErrorAt 180000 3;
                AdvancedRateLimiter.serverErrorAt 270000 4;
                AdvancedRateLimiter.serverErrorAt 360000 5]
               AdvancedRateLimiter.clientLimiter in
  AdvancedRateLimiter.isCircuitBreakerOpen 400000 st' = (true, st') /\
  fst (AdvancedRateLimiter.isCircuitBreakerOpen 660000 st') = false /\
  AdvancedRateLimiter.circuitBreakerFailures
    (snd (AdvancedRateLimiter.isCircuitBreakerOpen 660000 st')) = 0.
Proof.
  split.
  - apply (breaker_opens_at_threshold_and_resets_after_cooldown
             AdvancedRateLimiter.clientLimiter
             [AdvancedRateLimiter.serverErrorAt 0 1;
              AdvancedRateLimiter.serverErrorAt 90000 2;
              AdvancedRateLimiter.serverErrorAt 180000 3;
              AdvancedRateLimiter.serverErrorAt 270000 4;
              AdvancedRateLimiter.serverErrorAt 360000 5] 400000);
      [reflexivity | simpl; lia | reflexivity | repeat constructor | simpl; lia].
  - apply (breaker_opens_at_threshold_and_resets_after_cooldown
             AdvancedRateLimiter.clientLimiter
             [AdvancedRateLimiter.serverErrorAt 0 1;
              AdvancedRateLimiter.serverErrorAt 90000 2;
              AdvancedRateLimiter.serverErrorAt 180000 3;
              AdvancedRateLimiter.serverErrorAt 270000 4;
              AdvancedRateLimiter.serverErrorAt 360000 5] 660000);
      [reflexivity | simpl; lia | reflexivity | repeat constructor | simpl; lia].
Defined.

(** C4, as the code has it: the breaker is consulted on admission only,
    not by the drain loop.  While it is open, [makeRequest]
    rejects the new request at once, leaving queue, bucket and breaker as
    they are and executing nothing; a request already in the queue is still
    taken by the loop, which obtains a token for it and executes it. *)
Theorem breaker_gates_admission_not_the_drain_loop
    (run : AdvancedRateLimiter.QueuedRequest -> AdvancedRateLimiter.Settled)
    (polls : nat) (now : Z) (id : nat)
    (request : AdvancedRateLimiter.QueuedRequest)
    (st : AdvancedRateLimiter.AdvancedRateLimiter) :
  fst (AdvancedRateLimiter.isCircuitBreakerOpen now st) = true ->
  (2 <= polls)%nat ->
  AdvancedRateLimiter.bucketReady now (AdvancedRateLimiter.tokenBucket st) ->
  AdvancedRateLimiter.makeRequest run polls now id st
    = Some ([AdvancedRateLimiter.Rejected id AdvancedRateLimiter.circuitOpenError], now, st)
  /\
  exists evs now' st',
    AdvancedRateLimiter.processRequest run polls now request st
      = Some (AdvancedRateLimiter.Executed (AdvancedRateLimiter.requestId request) :: evs,
              now', st') /\
    TokenBucket.consume now' 1 (AdvancedRateLimiter.tokenBucket st)
      = (true, AdvancedRateLimiter.tokenBucket st').
Proof.
  intros Hopen Hpolls Hready. split.
  - unfold AdvancedRateLimiter.makeRequest.
    revert Hopen. unfold AdvancedRateLimiter.isCircuitBreakerOpen.
    destruct (AdvancedRateLimiter.circuitBreakerThreshold st
              <=? AdvancedRateLimiter.circuitBreakerFailures st);
      [|discriminate].
    destruct (now - AdvancedRateLimiter.lastCircuitBreakerTrip st
              <? AdvancedRateLimiter.circuitBreakerResetTime st);
      [reflexivity | discriminate].
  - apply processRequest_executes; assumption.
Qed.

(** The client's limiter after five counted failures, asked at 400 s. *)
Lemma breaker_gates_admission_not_the_drain_loop_witness :
  let st := AdvancedRateLimiter.recordFailures [0; 90000; 180000; 270000; 360000]
              AdvancedRateLimiter.clientLimiter in
  AdvancedRateLimiter.makeRequest AdvancedRateLimiter.alwaysFails 2 400000 7 st
    = Some ([AdvancedRateLimiter.Rejected 7 AdvancedRateLimiter.circuitOpenError],
            400000, st)
  /\
  exists evs now' st',
    AdvancedRateLimiter.processRequest AdvancedRateLimiter.alwaysFails 2 400000
      (AdvancedRateLimiter.queued 6) st
      = Some (AdvancedRateLimiter.Executed 6 :: evs, now', st') /\
    TokenBucket.consume now' 1 (AdvancedRateLimiter.tokenBucket st)
      = (true, AdvancedRateLimiter.tokenBucket st').
Proof.
  apply (breaker_gates_admission_not_the_drain_loop
           AdvancedRateLimiter.alwaysFails 2 400000 7 (AdvancedRateLimiter.queued 6)
           (AdvancedRateLimiter.recordFailures [0; 90000; 180000; 270000; 360000]
              AdvancedRateLimiter.clientLimiter)).
  - reflexivity.
  - lia.
  - split; [vm_compute; discriminate|].
    split; [vm_compute; reflexivity|].
    split; [exists 1; split; [lia | reflexivity]|].
    split; vm_compute; discriminate.
Defined.

(** C4, counterexample: six requests wait in the client's limiter and
    every call fails.  One run of the loop executes all six, the last at
    450 s.  Taken in two stages: the fifth failure, at 360 s, opens the
    breaker; the sixth request, still queued, is then not failed at once:
    the loop waits for a token until 450 s, spends it, executes the
    request and rejects it with the error of its own call, the breaker
    being open all the while. *)
Lemma queued_request_is_executed_while_breaker_is_open :
  (exists evs st,
     AdvancedRateLimiter.processQueue AdvancedRateLimiter.alwaysFails 2 0
       (AdvancedRateLimiter.set_queue AdvancedRateLimiter.clientLimiter
          (map AdvancedRateLimiter.queued [1; 2; 3; 4; 5; 6]%nat))
       = Some (evs, 450000, st) /\
     AdvancedRateLimiter.wasExecuted 6 evs = true) /\
  exists evs5 st5,
    AdvancedRateLimiter.processQueue AdvancedRateLimiter.alwaysFails 2 0
      (AdvancedRateLimiter.set_queue AdvancedRateLimiter.clientLimiter
         (map AdvancedRateLimiter.queued [1; 2; 3; 4; 5]%nat))
      = Some (evs5, 360000, st5) /\
    let st := AdvancedRateLimiter.set_queue st5 [AdvancedRateLimiter.queued 6] in
    fst (AdvancedRateLimiter.isCircuitBreakerOpen 360000 st) = true /\
    exists st6,
      AdvancedRateLimiter.processQueue AdvancedRateLimiter.alwaysFails 2 360000 st
        = Some ([AdvancedRateLimiter.Executed 6;
                 AdvancedRateLimiter.Rejected 6 AdvancedRateLimiter.serverError],
                450000, st6) /\
      TokenBucket.consume 450000 1 (AdvancedRateLimiter.tokenBucket st)
        = (true, AdvancedRateLimiter.tokenBucket st6) /\
      fst (AdvancedRateLimiter.isCircuitBreakerOpen 450000 st) = true.
Proof.
  split.
  { eexists _, _. split; [vm_compute; reflexivity | reflexivity]. }
  eexists _, _. split; [vm_compute; reflexivity|].
  split; [vm_compute; reflexivity|].
  eexists. split; [vm_compute; reflexivity|].
  split; vm_compute; reflexivity.
Qed.

(* ===================================================================== *)
(** ** Enhanced limiter: order of the queue *)
(* ===================================================================== *)

Section EnhancedRateLimiterFacts.
Import EnhancedRateLimiter.

Lemma enqueue_insertBeforeLower (request : Request) (queue : list Request) :
  enqueue request queue = insertBeforeLower request queue.
Proof.
  unfold enqueue. induction queue as [|r queue IH]; [reflexivity|].
  cbn [findIndex insertBeforeLower].
  destruct (priority r <? priority request); [reflexivity|].
  destruct (findIndex (fun r0 => priority r0 <? priority request) queue) as [i|];
    cbn in *; rewrite <- IH; reflexivity.
Qed.

Lemma insertBeforeLower_perm (request : Request) (queue : list Request) :
  Permutation (insertBeforeLower request queue) (request :: queue).
Proof.
  induction queue as [|r queue IH]; cbn; [reflexivity|].
  destruct (priority r <? priority request); [reflexivity|].
  rewrite IH. apply perm_swap.
Qed.

Lemma insertBeforeLower_sorted (request : Request) (queue : list Request) :
  StronglySorted notBelow queue ->
  StronglySorted notBelow (insertBeforeLower request queue).
Proof.
  induction 1 as [|r queue Hs IH Hall]; cbn.
  - constructor; constructor.
  - destruct (priority r <? priority request) eqn:E.
    + apply Z.ltb_lt in E. constructor; [constructor; assumption|].
      constructor; [unfold notBelow; lia|].
      eapply List.Forall_impl; [|exact Hall]. unfold notBelow. intros a Ha. lia.
    + apply Z.ltb_ge in E. constructor; [exact IH|].
      rewrite (insertBeforeLower_perm request queue).
      constructor; [exact E | exact Hall].
Qed.

(** Among the entries of one priority the newcomer goes last. *)
Lemma insertBeforeLower_fifo (request : Request) (queue : list Request) (p : Z) :
  StronglySorted notBelow queue ->
  List.filter (hasPriority p) (insertBeforeLower request queue)
    = List.filter (hasPriority p) queue ++ List.filter (hasPriority p) [request].
Proof.
  induction 1 as [|r queue Hs IH Hall]; [reflexivity|].
  cbn [insertBeforeLower].
  destruct (priority r <? priority request) eqn:E.
  - apply Z.ltb_lt in E.
    set (l := r :: queue).
    assert (Hlow : priority request = p -> List.filter (hasPriority p) l = []).
    { intros Ep.
      assert (Hall' : Forall (fun a => hasPriority p a = false) l).
      { constructor.
        - unfold hasPriority. apply Z.eqb_neq. lia.
        - eapply List.Forall_impl; [|exact Hall]. unfold notBelow, hasPriority.
          intros a Ha. apply Z.eqb_neq. lia. }
      clear -Hall'. induction Hall' as [|a l' Ha _ IHl]; [reflexivity|].
      cbn. rewrite Ha. exact IHl. }
    cbn [List.filter]. destruct (hasPriority p request) eqn:Ep.
    + unfold hasPriority in Ep. apply Z.eqb_eq in Ep.
      rewrite (Hlow Ep). reflexivity.
    + rewrite app_nil_r. reflexivity.
  - cbn [List.filter]. rewrite IH.
    destruct (hasPriority p r); reflexivity.
Qed.

Lemma dispatchOrder_all (queue : list Request) :
  dispatchOrder (length queue) queue = queue.
Proof. induction queue as [|r queue IH]; cbn; [|rewrite IH]; reflexivity. Qed.

Lemma scheduleAll_queue (calls : list Call) (st st' : EnhancedRateLimiter) :
  StronglySorted notBelow (requestQueue st) ->
  scheduleAll calls st = Some st' ->
  StronglySorted notBelow (requestQueue st') /\
  Permutation (requestQueue st') (requestQueue st ++ map requestOf calls) /\
  forall p, List.filter (hasPriority p) (requestQueue st')
            = List.filter (hasPriority p) (requestQueue st)
              ++ List.filter (hasPriority p) (map requestOf calls).
Proof.
  revert st. induction calls as [|c calls IH]; intros st Hs Hrun.
  - cbn in Hrun. inversion Hrun; subst st'.
    cbn. rewrite !app_nil_r. repeat split; auto.
    intros p. rewrite app_nil_r. reflexivity.
  - cbn [scheduleAll] in Hrun.
    destruct (scheduleRequest (at_time c) (call_fn c) (call_endpoint c)
                (call_priority c) st) as [st1|] eqn:E; [|discriminate].
    assert (Hq : requestQueue st1 = insertBeforeLower (requestOf c) (requestQueue st)).
    { revert E. unfold scheduleRequest.
      destruct (circuitBreakerOpen st && _)%bool; [discriminate|].
      intros E. inversion E. cbn. apply enqueue_insertBeforeLower. }
    destruct (IH st1) as (S1 & P1 & F1); [|exact Hrun|].
    { rewrite Hq. apply insertBeforeLower_sorted. exact Hs. }
    split; [exact S1|]. split.
    + rewrite P1, Hq, insertBeforeLower_perm. cbn [map].
      cbn [app]. apply Permutation_middle.
    + intros p. rewrite F1, Hq, insertBeforeLower_fifo by exact Hs.
      cbn [map]. rewrite <- app_assoc. f_equal.
      cbn [List.filter]. destruct (hasPriority p (requestOf c)); reflexivity.
Qed.

End EnhancedRateLimiterFacts.

(** C2: after any sequence of accepted [scheduleRequest] calls on an empty
    queue, the requests are dispatched highest priority first, and the
    requests of one priority are dispatched in the order in which they were
    enqueued; every enqueued request is dispatched, and nothing else. *)
Theorem dispatch_is_by_priority_then_fifo
    (calls : list EnhancedRateLimiter.Call)
    (st st' : EnhancedRateLimiter.EnhancedRateLimiter) :
  EnhancedRateLimiter.requestQueue st = [] ->
  EnhancedRateLimiter.scheduleAll calls st = Some st' ->
  let order := EnhancedRateLimiter.dispatched st' in
  let enqueued := map EnhancedRateLimiter.requestOf calls in
  StronglySorted EnhancedRateLimiter.notBelow order /\
  (forall p, List.filter (EnhancedRateLimiter.hasPriority p) order
             = List.filter (EnhancedRateLimiter.hasPriority p) enqueued) /\
  Permutation order enqueued.
Proof.
  intros Hempty Hrun order enqueued.
  unfold order, EnhancedRateLimiter.dispatched. rewrite dispatchOrder_all.
  destruct (scheduleAll_queue calls st st') as (S1 & P1 & F1); [|exact Hrun|].
  { rewrite Hempty. constructor. }
  rewrite Hempty in P1, F1. cbn in P1, F1.
  repeat split; auto.
Qed.

(** Priorities 1, 0, 2 leave in the order 2, 1, 0; of two requests of
    priority 0 the earlier one leaves first. *)
Lemma dispatch_is_by_priority_then_fifo_witness :
  exists st',
    EnhancedRateLimiter.scheduleAll
      [EnhancedRateLimiter.callWith 10 1 1; EnhancedRateLimiter.callWith 20 2 0;
       EnhancedRateLimiter.callWith 30 3 2; EnhancedRateLimiter.callWith 40 4 0]
      EnhancedRateLimiter.initial = Some st' /\
    map EnhancedRateLimiter.caller (EnhancedRateLimiter.dispatched st') = [3; 1; 2; 4]%nat /\
    StronglySorted EnhancedRateLimiter.notBelow (EnhancedRateLimiter.dispatched st').
Proof.
  eexists. split; [reflexivity|]. split; [reflexivity|].
  apply (dispatch_is_by_priority_then_fifo
           [EnhancedRateLimiter.callWith 10 1 1; EnhancedRateLimiter.callWith 20 2 0;
            EnhancedRateLimiter.callWith 30 3 2; EnhancedRateLimiter.callWith 40 4 0]
           EnhancedRateLimiter.initial); reflexivity.
Defined.

(* ===================================================================== *)
(** ** Cache: capacity and eviction *)
(* ===================================================================== *)

Section CacheManagerFacts.
Import CacheManager.

Lemma scan_key (m : JsMap) (acc : string * Z) :
  fst (fold_left scanStep m acc) = fst acc \/
  In (fst (fold_left scanStep m acc)) (map fst m).
Proof.
  revert acc. induction m as [|kv m IH]; intros acc; cbn; [left; reflexivity|].
  destruct (IH (scanStep acc kv)) as [H | H]; [|right; right; exact H].
  rewrite H. unfold scanStep.
  destruct (lastAccessed (snd kv) <? snd acc); cbn; [right; left; reflexivity | left; reflexivity].
Qed.

(** The instant the scan ends with is no later than any entry's last
    access: the key it names belongs to an oldest entry. *)
Lemma scan_min (m : JsMap) (acc : string * Z) :
  snd (fold_left scanStep m acc) <= snd acc /\
  Forall (fun kv => snd (fold_left scanStep m acc) <= lastAccessed (snd kv)) m.
Proof.
  revert acc. induction m as [|kv m IH]; intros acc; cbn; [split; [lia | constructor]|].
  destruct (IH (scanStep acc kv)) as [H1 H2].
  assert (Hstep : snd (scanStep acc kv) <= snd acc /\
                  snd (scanStep acc kv) <= lastAccessed (snd kv)).
  { unfold scanStep. destruct (lastAccessed (snd kv) <? snd acc) eqn:E; cbn.
    - apply Z.ltb_lt in E. lia.
    - apply Z.ltb_ge in E. lia. }
  split; [lia|]. constructor; [lia | exact H2].
Qed.

(** When some entry was last touched before [now], the scan names a
    stored key. *)
Lemma oldestScan_names_entry (now : Z) (m : JsMap) :
  m <> [] -> touchedBefore now m -> In (fst (oldestScan now m)) (map fst m).
Proof.
  intros Hne Hall. unfold oldestScan.
  destruct m as [|kv m]; [congruence|]. cbn [fold_left].
  inversion Hall as [|? ? Hkv _]; subst.
  assert (Hstep : scanStep (EmptyString, now) kv = (fst kv, lastAccessed (snd kv))).
  { unfold scanStep. cbn. apply Z.ltb_lt in Hkv. rewrite Hkv. reflexivity. }
  rewrite Hstep.
  destruct (scan_key m (fst kv, lastAccessed (snd kv))) as [H | H].
  - rewrite H. left. reflexivity.
  - right. exact H.
Qed.

Lemma map_delete_length (key : string) (m : JsMap) :
  In key (map fst m) -> S (length (map_delete key m)) = length m.
Proof.
  induction m as [|[k e] m IH]; cbn; [tauto|].
  destruct (String.eqb key k) eqn:E; [reflexivity|].
  intros [H | H].
  - subst k. rewrite String.eqb_refl in E. discriminate.
  - cbn. rewrite IH by exact H. reflexivity.
Qed.

Lemma map_set_length (key : string) (entry : CacheEntry) (m : JsMap) :
  (length (map_set key entry m) <= S (length m))%nat.
Proof.
  induction m as [|[k e] m IH]; cbn; [lia|].
  destruct (String.eqb key k); cbn; lia.
Qed.

(** The bound is kept by [set] as long as every stored entry was last
    touched strictly before the clock read of [evictOldest] and no entry
    is stored under the empty key. *)
Lemma set_keeps_bound_when_entries_are_older
    (now now_evict : Z) (key : string) (value : Z) (ttl : option Z) (c : CacheManager) :
  1 <= maxSize (config c) ->
  map_size (cache c) <= maxSize (config c) ->
  touchedBefore now_evict (cache c) -> keysNonEmpty (cache c) ->
  map_size (cache (set now now_evict key value ttl c))
    <= maxSize (config (set now now_evict key value ttl c)).
Proof.
  intros Hmax Hsize Hold Hkeys. unfold set, map_size in *. cbn.
  match goal with |- context [map_set key ?e ?m] =>
    pose proof (map_set_length key e m) as Hset; set (m' := m) in * end.
  destruct (maxSize (config c) <=? Z.of_nat (length (cache c))) eqn:E.
  - apply Z.leb_le in E.
    assert (Hne : cache c <> []) by (intros H; rewrite H in E; cbn in E; lia).
    pose proof (oldestScan_names_entry now_evict (cache c) Hne Hold) as Hin.
    assert (Htruthy : truthy (fst (oldestScan now_evict (cache c))) = true).
    { unfold keysNonEmpty in Hkeys. rewrite List.Forall_forall in Hkeys.
      apply in_map_iff in Hin. destruct Hin as (kv & Hk & Hin).
      rewrite <- Hk. apply Hkeys. exact Hin. }
    subst m'. unfold evictOldest in *. rewrite Htruthy in *.
    pose proof (map_delete_length _ _ Hin). lia.
  - apply Z.leb_gt in E. subst m'. lia.
Qed.

Lemma map_set_length_present (key : string) (entry e0 : CacheEntry) (m : JsMap) :
  map_get key m = Some e0 -> length (map_set key entry m) = length m.
Proof.
  induction m as [|[k e] m IH]; cbn; [discriminate|].
  destruct (String.eqb key k); cbn; [reflexivity|].
  intros H. rewrite IH by exact H. reflexivity.
Qed.

Lemma map_delete_length_le (key : string) (m : JsMap) :
  (length (map_delete key m) <= length m)%nat.
Proof.
  induction m as [|[k e] m IH]; cbn; [lia|].
  destruct (String.eqb key k); cbn; lia.
Qed.

(** Reads, deletions and sweeps never add an entry. *)
Lemma other_operations_do_not_grow (now : Z) (key : string) (c : CacheManager) :
  map_size (cache (snd (get now key c))) <= map_size (cache c) /\
  map_size (cache (snd (has now key c))) <= map_size (cache c) /\
  map_size (cache (snd (delete key c))) <= map_size (cache c) /\
  map_size (cache (clear c)) <= map_size (cache c) /\
  map_size (cache (cleanupExpired now c)) <= map_size (cache c).
Proof.
  unfold map_size, get, has, delete, clear, cleanupExpired.
  pose proof (map_delete_length_le key (cache c)) as Hdel.
  pose proof (List.filter_length_le
                (fun kv : string * CacheEntry => negb (expiresAt (snd kv) <? now))
                (cache c)) as Hfil.
  destruct (map_get key (cache c)) as [entry|] eqn:E; cbn.
  - destruct (expiresAt entry <? now); cbn.
    + repeat split; lia.
    + rewrite (map_set_length_present key _ entry (cache c) E). repeat split; lia.
  - repeat split; lia.
Qed.

End CacheManagerFacts.

(** C5, the code at the failing input: with [maxSize] 1, two [set] calls
    on different keys within one millisecond.  The second call finds the
    cache full, but the scan of [evictOldest] starts from the current
    instant and only accepts an entry touched strictly earlier, so it
    names no key; nothing is evicted and the cache holds two entries. *)
Theorem set_within_one_millisecond_exceeds_maxSize :
  let c1 := CacheManager.set 100 100 "a" 1 None (CacheManager.emptyCache 1) in
  let c2 := CacheManager.set 100 100 "b" 2 None c1 in
  CacheManager.map_size (CacheManager.cache c1) = 1 /\
  CacheManager.oldestScan 100 (CacheManager.cache c1) = (EmptyString, 100) /\
  CacheManager.evictOldest 100 (CacheManager.cache c1) = CacheManager.cache c1 /\
  map fst (CacheManager.cache c2) = ["a"; "b"]%string /\
  CacheManager.map_size (CacheManager.cache c2) = 2 /\
  CacheManager.maxSize (CacheManager.config c2) = 1.
Proof. vm_compute. repeat split; reflexivity. Qed.

(* ===================================================================== *)
(** ** Deduplicator: one registration, one invocation *)
(* ===================================================================== *)

Section RequestDeduplicatorFacts.
Import RequestDeduplicator.

Lemma cleanup_keeps (now t1 : Z) (key : string) (p : nat)
    (m : gmap string PendingRequest) :
  now - t1 <= requestTTL ->
  m !! key = Some {| promise := p; timestamp := t1 |} ->
  cleanupExpiredRequests now m !! key = Some {| promise := p; timestamp := t1 |}.
Proof.
  intros Hnow Hm. unfold cleanupExpiredRequests.
  apply map_lookup_filter_Some. split; [exact Hm | exact Hnow].
Qed.

Lemma invocations_snoc (key k : string) (o : option Outcome)
    (st : RequestDeduplicator) (m : gmap string PendingRequest) :
  invocations key {| pendingRequests := m; issued := issued st ++ [(k, o)] |}
  = (invocations key st + (if String.eqb key k then 1 else 0))%nat.
Proof.
  unfold invocations. cbn [issued]. rewrite List.filter_app, length_app. cbn.
  destruct (String.eqb key k); reflexivity.
Qed.

Lemma filter_length_update (key k : string) (o o' : option Outcome)
    (l : list (string * option Outcome)) (p : nat) :
  l !! p = Some (k, o) ->
  length (List.filter (fun ko : string * option Outcome => String.eqb key (fst ko))
            (<[p := (k, o')]> l))
  = length (List.filter (fun ko : string * option Outcome => String.eqb key (fst ko)) l).
Proof.
  revert p. induction l as [|x l IH]; intros p Hp; [discriminate|].
  destruct p as [|p]; cbn in *.
  - inversion Hp; subst x. cbn. destruct (String.eqb key k); reflexivity.
  - specialize (IH p Hp). destruct (String.eqb key (fst x)); cbn;
      [f_equal|]; exact IH.
Qed.

Lemma deduplicate_registered (now t1 : Z) (key k : string) (p n : nat)
    (st : RequestDeduplicator) :
  now - t1 <= requestTTL ->
  registered key p t1 n st ->
  registered key p t1 n (snd (deduplicate now k st)) /\
  (k = key -> fst (deduplicate now k st) = p).
Proof.
  intros Hnow (Hreg & Hiss & Hinv).
  pose proof (cleanup_keeps now t1 key p _ Hnow Hreg) as Hkeep.
  unfold deduplicate.
  destruct (cleanupExpiredRequests now (pendingRequests st) !! k) as [existing|] eqn:E.
  - cbn. split; [split; [exact Hkeep | split; assumption]|].
    intros ->. rewrite Hkeep in E. inversion E. reflexivity.
  - assert (Hne : k <> key) by (intros ->; rewrite Hkeep in E; discriminate).
    split; [|intros; contradiction].
    cbn [snd]. split; [|split].
    + cbn. rewrite lookup_insert_ne by exact Hne. exact Hkeep.
    + cbn. rewrite lookup_app_l; [exact Hiss|]. eapply lookup_lt_Some. exact Hiss.
    + rewrite invocations_snoc, Hinv.
      replace (String.eqb key k) with false; [lia|].
      symmetry. apply String.eqb_neq. congruence.
Qed.

Lemma settle_registered (t1 : Z) (key : string) (p q n : nat) (o : Outcome)
    (st : RequestDeduplicator) :
  keyOf q st <> Some key ->
  registered key p t1 n st ->
  registered key p t1 n (settle q o st).
Proof.
  intros Hq (Hreg & Hiss & Hinv). unfold settle, keyOf in *.
  destruct (issued st !! q) as [[k [done|]]|] eqn:E; try (split; [|split]; assumption).
  cbn in Hq.
  assert (Hk : k <> key) by congruence.
  assert (Hpq : q <> p) by (intros ->; rewrite Hiss in E; congruence).
  split; [|split]; cbn.
  - rewrite lookup_delete_ne by exact Hk. exact Hreg.
  - rewrite list_lookup_insert_ne by exact Hpq. exact Hiss.
  - unfold invocations. cbn. rewrite (filter_length_update key k None _ _ q E).
    exact Hinv.
Qed.

Lemma run_registered (t1 : Z) (key : string) (p n : nat) (ops : list Op)
    (st : RequestDeduplicator) :
  allQuiet key t1 ops st ->
  registered key p t1 n st ->
  registered key p t1 n (run ops st).
Proof.
  revert st. induction ops as [|op ops IH]; intros st Hq Hreg; [exact Hreg|].
  destruct Hq as [Hop Hrest]. cbn [run fold_left]. apply IH; [exact Hrest|].
  destruct op as [now k | q o]; cbn in *.
  - apply deduplicate_registered; assumption.
  - apply settle_registered; assumption.
Qed.

Lemma first_call_registers (t1 : Z) (key : string) (st : RequestDeduplicator) :
  cleanupExpiredRequests t1 (pendingRequests st) !! key = None ->
  fst (deduplicate t1 key st) = length (issued st) /\
  registered key (length (issued st)) t1 (S (invocations key st))
    (snd (deduplicate t1 key st)).
Proof.
  intros Hnone. unfold deduplicate. rewrite Hnone. cbn [fst snd].
  split; [reflexivity|]. split; [|split].
  - cbn. apply lookup_insert_eq.
  - cbn. rewrite lookup_app_r by lia. rewrite Nat.sub_diag. reflexivity.
  - rewrite invocations_snoc, String.eqb_refl. lia.
Qed.

End RequestDeduplicatorFacts.

(** C6, as the code has it: a call that registers the key, then a second
    call for the same key made no later than [requestTTL] (30 s) after the
    first, with only calls within that span and settlements of promises of
    other keys in between.  The second call returns the promise of the
    first and calls no factory, so the factory ran exactly once; when the
    promise settles both callers receive that one outcome, value or error,
    and the registration of the key is gone. *)
Theorem concurrent_calls_share_one_invocation
    (st : RequestDeduplicator.RequestDeduplicator) (key : string) (t1 t2 : Z)
    (ops : list RequestDeduplicator.Op) (o : RequestDeduplicator.Outcome) :
  RequestDeduplicator.cleanupExpiredRequests t1
    (RequestDeduplicator.pendingRequests st) !! key = None ->
  RequestDeduplicator.allQuiet key t1 ops
    (snd (RequestDeduplicator.deduplicate t1 key st)) ->
  t2 - t1 <= RequestDeduplicator.requestTTL ->
  let first := RequestDeduplicator.deduplicate t1 key st in
  let second := RequestDeduplicator.deduplicate t2 key
                  (RequestDeduplicator.run ops (snd first)) in
  let settled := RequestDeduplicator.settle (fst first) o (snd second) in
  fst second = fst first /\
  RequestDeduplicator.invocations key (snd second)
    = S (RequestDeduplicator.invocations key st) /\
  RequestDeduplicator.received (fst first) (snd second) = None /\
  RequestDeduplicator.received (fst first) settled = Some o /\
  RequestDeduplicator.received (fst second) settled = Some o /\
  RequestDeduplicator.pendingRequests settled !! key = None.
Proof.
  intros Hfresh Hquiet Ht2 first second settled.
  destruct (first_call_registers t1 key st Hfresh) as [Hp1 Hreg1].
  fold first in Hp1, Hreg1.
  pose proof (run_registered t1 key _ _ ops _ Hquiet Hreg1) as Hreg2.
  destruct (deduplicate_registered t2 t1 key key _ _ _ Ht2 Hreg2) as [Hreg3 Hsame].
  fold first in Hreg3, Hsame. fold second in Hreg3, Hsame.
  specialize (Hsame eq_refl).
  destruct Hreg3 as (Hpend & Hiss & Hinv).
  rewrite <- Hp1 in Hpend, Hiss.
  assert (Hrecv : RequestDeduplicator.received (fst first) settled = Some o).
  { unfold settled, RequestDeduplicator.received, RequestDeduplicator.settle.
    rewrite Hiss. cbn.
    rewrite list_lookup_insert_eq; [reflexivity|].
    eapply lookup_lt_Some. exact Hiss. }
  split; [rewrite Hsame, Hp1; reflexivity|].
  split; [exact Hinv|].
  split; [unfold RequestDeduplicator.received; rewrite Hiss; reflexivity|].
  split; [exact Hrecv|].
  split; [rewrite Hsame, <- Hp1; exact Hrecv|].
  unfold settled, RequestDeduplicator.settle. rewrite Hiss. cbn.
  apply lookup_delete_eq.
Qed.

(** Two calls for one key 20 s apart, with a call for another key and
    its settlement in between; the shared call then fails with error 7. *)
Lemma concurrent_calls_share_one_invocation_witness :
  let first := RequestDeduplicator.deduplicate 0 "X" RequestDeduplicator.empty in
  let between := [RequestDeduplicator.Call 5000 "Y";
                  RequestDeduplicator.Settle 1 (RequestDeduplicator.Value 3)] in
  let second := RequestDeduplicator.deduplicate 20000 "X"
                  (RequestDeduplicator.run between (snd first)) in
  let settled := RequestDeduplicator.settle (fst first)
                   (RequestDeduplicator.Error 7) (snd second) in
  fst second = fst first /\
  RequestDeduplicator.invocations "X" (snd second) = 1%nat /\
  RequestDeduplicator.received (fst first) (snd second) = None /\
  RequestDeduplicator.received (fst first) settled = Some (RequestDeduplicator.Error 7) /\
  RequestDeduplicator.received (fst second) settled = Some (RequestDeduplicator.Error 7) /\
  RequestDeduplicator.pendingRequests settled !! "X"%string = None.
Proof.
  apply (concurrent_calls_share_one_invocation RequestDeduplicator.empty "X" 0 20000
           [RequestDeduplicator.Call 5000 "Y";
            RequestDeduplicator.Settle 1 (RequestDeduplicator.Value 3)]
           (RequestDeduplicator.Error 7)).
  - reflexivity.
  - vm_compute. repeat split; discriminate.
  - vm_compute. discriminate.
Defined.

(** C6, counterexample: the first call for "X" is still pending when a
    second call arrives 30 001 ms later.  The sweep at the start of the
    second call has dropped the registration, so the factory is called
    again and the second caller waits on a different promise. *)
Lemma late_second_call_invokes_factory_again :
  let first := RequestDeduplicator.deduplicate 0 "X" RequestDeduplicator.empty in
  let second := RequestDeduplicator.deduplicate 30001 "X" (snd first) in
  RequestDeduplicator.received (fst first) (snd second) = None /\
  fst second <> fst first /\
  RequestDeduplicator.invocations "X" (snd second) = 2%nat.
Proof.
  vm_compute. repeat split; discriminate.
Qed.

(* ===================================================================== *)
(** ** Monitor: running totals and running mean *)
(* ===================================================================== *)

Section RunningMean.
Import Double.

(** A rounding within a whole bound of the normal range: the result stays
    within the bound and the error is at most the bound times [2^-53]. *)
Lemma round_within (x : Q) (B : Z) :
  1 <= B <= 2 ^ 53 -> (Qabs x <= inject_Z B)%Q ->
  (Qabs (round x) <= inject_Z B)%Q /\ (Qabs (round x - x) <= inject_Z B * pow2 (-53))%Q.
Proof.
  intros HB Hx. split.
  - apply Qabs_Qle_condition in Hx. destruct Hx as [Hlo Hhi].
    apply Qabs_Qle_condition. split.
    + assert (E : (- inject_Z B == inject_Z (- B))%Q) by (rewrite inject_Z_opp; reflexivity).
      rewrite E. rewrite <- (round_Z (- B)) by lia. apply round_le. rewrite <- E. exact Hlo.
    + rewrite <- (round_Z B) by lia. apply round_le. exact Hhi.
  - apply round_error; [exact Hx|].
    apply Qle_trans with 1%Q; [vm_compute; discriminate|].
    change 1%Q with (inject_Z 1). rewrite <- Zle_Qle. lia.
Qed.

(** One step of the running average [(a * k + d) / (k + 1)] in double
    arithmetic: the average stays within the bound [H] of the durations,
    and its distance from the exact sum, counted in units of [H * 2^-53],
    grows by at most [3 * (k + 1)]. *)
Lemma mean_step (a S : Q) (k d H : Z) :
  0 <= k -> 1 <= H -> (k + 1) * H <= 2 ^ 53 ->
  (Qabs a <= inject_Z H)%Q -> Z.abs d <= H ->
  (Qabs (a * inject_Z k - S) <= (3 # 2) * inject_Z (k * (k + 1) * H) * pow2 (-53))%Q ->
  let a' := div (add (mul a (inject_Z k)) (inject_Z d)) (inject_Z (k + 1)) in
  (Qabs a' <= inject_Z H)%Q /\
  (Qabs (a' * inject_Z (k + 1) - (S + inject_Z d))
   <= (3 # 2) * inject_Z ((k + 1) * (k + 2) * H) * pow2 (-53))%Q.
Proof.
  intros Hk HH Hbig Ha Hd HE a'.
  set (u := pow2 (-53)) in *.
  assert (Hu : (0 < u)%Q) by apply pow2_pos.
  set (K := inject_Z k) in *. set (Hq := inject_Z H) in *. set (D := inject_Z d) in *.
  assert (HK : (0 <= K)%Q) by (unfold K; change 0%Q with (inject_Z 0); rewrite <- Zle_Qle; lia).
  assert (HHq : (1 <= Hq)%Q) by (unfold Hq; change 1%Q with (inject_Z 1); rewrite <- Zle_Qle; lia).
  assert (HD : (Qabs D <= Hq)%Q).
  { unfold D, Hq. unfold Qabs, inject_Z, Qle. cbn. lia. }
  assert (HK1 : (inject_Z (k + 1) == K + 1)%Q) by (unfold K; rewrite inject_Z_plus; reflexivity).
  (* the product *)
  set (x1 := mul a K).
  assert (H1 : (Qabs x1 <= K * Hq)%Q /\ (Qabs (x1 - a * K) <= K * Hq * u)%Q).
  { destruct (Z.eq_dec k 0) as [E0 | NE].
    - assert (EK : (K == 0)%Q) by (unfold K; rewrite E0; reflexivity).
      assert (Ex : x1 = 0%Q).
      { unfold x1, mul. apply round_zero. rewrite EK. ring. }
      split.
      + rewrite Ex. change (Qabs 0) with 0%Q. rewrite EK. lra.
      + rewrite Ex. assert (E : (0 - a * K == 0)%Q) by (rewrite EK; ring).
        rewrite E. change (Qabs 0) with 0%Q. rewrite EK. lra.
    - assert (HB : (Qabs (a * K) <= inject_Z (k * H))%Q).
      { rewrite Qabs_Qmult, inject_Z_mult. fold K Hq. rewrite (Qabs_pos K HK).
        revert Ha. generalize (Qabs a). intros c Ha. nra. }
      destruct (round_within (a * K) (k * H)) as [R1 R2]; [nia | exact HB |].
      rewrite inject_Z_mult in R1, R2. fold K Hq u in R1, R2.
      unfold x1, mul. split; assumption. }
  destruct H1 as [B1 E1].
  (* the sum *)
  set (x2 := add x1 D).
  assert (H2 : (Qabs x2 <= (K + 1) * Hq)%Q /\ (Qabs (x2 - (x1 + D)) <= (K + 1) * Hq * u)%Q).
  { assert (HB : (Qabs (x1 + D) <= inject_Z ((k + 1) * H))%Q).
    { rewrite inject_Z_mult, HK1. fold Hq.
      apply Qle_trans with (Qabs x1 + Qabs D)%Q; [apply Qabs_triangle|].
      revert B1 HD. generalize (Qabs x1) (Qabs D). intros c1 c2 B1 HD. nra. }
    destruct (round_within (x1 + D) ((k + 1) * H)) as [R1 R2]; [nia | exact HB |].
    rewrite inject_Z_mult, HK1 in R1, R2. fold Hq u in R1, R2.
    unfold x2, add. split; assumption. }
  destruct H2 as [B2 E2].
  (* the quotient *)
  assert (HK1pos : (0 < K + 1)%Q) by lra.
  assert (H3 : (Qabs a' <= Hq)%Q /\ (Qabs (a' - x2 / (K + 1)) <= Hq * u)%Q).
  { assert (Eq : (x2 / inject_Z (k + 1) == x2 / (K + 1))%Q) by (rewrite HK1; reflexivity).
    assert (HB : (Qabs (x2 / (K + 1)) <= inject_Z H)%Q).
    { fold Hq. unfold Qdiv. rewrite Qabs_Qmult.
      rewrite (Qabs_pos (/ (K + 1))) by (apply Qlt_le_weak; apply Qinv_lt_0_compat; exact HK1pos).
      apply Qle_shift_div_r; [exact HK1pos|]. rewrite (Qmult_comm Hq). exact B2. }
    destruct (round_within (x2 / (K + 1)) H) as [R1 R2]; [nia | exact HB |].
    fold Hq u in R1, R2.
    change a' with (round (x2 / inject_Z (k + 1))).
    rewrite (round_comp _ _ Eq). split; assumption. }
  destruct H3 as [B3 E3].
  split; [exact B3|].
  (* the chain of errors *)
  rewrite HK1.
  assert (P3 : (Qabs ((a' - x2 / (K + 1)) * (K + 1)) <= (K + 1) * Hq * u)%Q).
  { rewrite Qabs_Qmult, (Qabs_pos (K + 1)) by lra.
    revert E3. generalize (Qabs (a' - x2 / (K + 1))). intros c E3. nra. }
  assert (Edec : (a' * (K + 1) - (S + D)
                  == (a' - x2 / (K + 1)) * (K + 1) + (x2 - (x1 + D)) + (x1 - a * K)
                     + (a * K - S))%Q).
  { field. lra. }
  rewrite Edec.
  assert (EH1 : (inject_Z (k * (k + 1) * H) == K * (K + 1) * Hq)%Q)
    by (rewrite !inject_Z_mult, HK1; reflexivity).
  assert (EH2 : (inject_Z ((k + 1) * (k + 2) * H) == (K + 1) * (K + 2) * Hq)%Q).
  { rewrite !inject_Z_mult, HK1. replace (k + 2) with (k + 1 + 1) by lia.
    rewrite inject_Z_plus, HK1. change (inject_Z 1) with 1%Q. fold Hq. ring. }
  rewrite EH1 in HE. rewrite EH2.
  eapply Qle_trans; [apply Qabs_triangle|].
  eapply Qle_trans; [apply Qplus_le_compat; [apply Qabs_triangle | apply Qle_refl]|].
  eapply Qle_trans;
    [apply Qplus_le_compat; [apply Qplus_le_compat; [apply Qabs_triangle | apply Qle_refl]
                            | apply Qle_refl]|].
  revert P3 E2 E1 HE.
  generalize (Qabs ((a' - x2 / (K + 1)) * (K + 1))) (Qabs (x2 - (x1 + D)))
             (Qabs (x1 - a * K)) (Qabs (a * K - S)).
  intros c1 c2 c3 c4 P3 E2 E1 HE.
  clear - P3 E2 E1 HE HK HHq Hu. nra.
Qed.

End RunningMean.

Section APIMonitorFacts.
Import APIMonitor.

Lemma recordAll_snoc (rs : list Recording) (r : Recording) (m : APIMetrics) :
recordAll (rs ++ [r]) m = record (recordAll rs m) r.
Proof. unfold recordAll. rewrite fold_left_app. reflexivity. Qed.

Lemma sumDurations_snoc (rs : list Recording) (r : Recording) :
sumDurations (rs ++ [r]) = sumDurations rs + duration r.
Proof.
unfold sumDurations. induction rs as [|x rs IH]; cbn; [lia|].
cbn in IH. rewrite IH. lia.
Qed.

Lemma successes_snoc (rs : list Recording) (r : Recording) :
successes (rs ++ [r])
= successes rs ++ (if Status_eqb (r_status r) success then [r] else []).
Proof. unfold successes. rewrite List.filter_app. reflexivity. Qed.

(** The counters after any sequence of recordings. *)
Lemma recordAll_invariant (rs : list Recording) :
let m := recordAll rs zeroed in
totalRequests m = Z.of_nat (length rs) /\
successfulRequests m = Z.of_nat (length (successes rs)) /\
totalRequests m = successfulRequests m + failedRequests m /\
0 <= rateLimitHits m <= failedRequests m.
Proof.
induction rs as [|r rs IH] using rev_ind.
- cbn. repeat split; try lia.
- cbn zeta in *. rewrite recordAll_snoc.
  set (m := recordAll rs zeroed) in *.
  destruct IH as (Htot & Hsucc & Hsum & Hhits).
  rewrite length_app, successes_snoc, length_app.
  unfold record, recordRequest. cbn [totalRequests successfulRequests failedRequests
                                      rateLimitHits].
  split; [cbn; lia|].
  split; [destruct (r_status r); cbn; lia|].
  split; [destruct (r_status r); cbn; lia|].
  destruct (r_status r); cbn; lia.
Qed.

(** The running average after any sequence of recordings whose durations
    are bounded by [H]: it is bounded by [H] and its distance from the
    exact sum is at most [3/2 * n * (n + 1) * H * 2^-53]. *)
Lemma recordAll_average (rs : list Recording) (H : Z) :
1 <= H -> Forall (fun r => Z.abs (duration r) <= H) rs ->
Z.of_nat (length rs) * H <= 2 ^ 53 ->
let m := recordAll rs zeroed in
let n := Z.of_nat (length rs) in
(Qabs (averageResponseTime m) <= inject_Z H)%Q /\
(Qabs (averageResponseTime m * inject_Z n - inject_Z (sumDurations rs))
 <= (3 # 2) * inject_Z (n * (n + 1) * H) * Double.pow2 (-53))%Q.
Proof.
intros HH. induction rs as [|r rs IH] using rev_ind; intros Hall Hbig.
- split.
  + apply Qle_trans with 1%Q; [vm_compute; discriminate|].
    change 1%Q with (inject_Z 1). rewrite <- Zle_Qle. exact HH.
  + vm_compute. discriminate.
- cbn zeta. apply Forall_app in Hall. destruct Hall as [Hall Hr].
  inversion Hr as [|? ? Hd _]; subst.
  rewrite length_app in Hbig |- *. cbn [length] in Hbig |- *.
  assert (Hbig' : Z.of_nat (length rs) * H <= 2 ^ 53) by nia.
  specialize (IH Hall Hbig'). cbn zeta in IH. destruct IH as [Ha HE].
  destruct (recordAll_invariant rs) as (Htot & _).
  rewrite recordAll_snoc, sumDurations_snoc.
  set (m := recordAll rs zeroed) in *.
  set (k := Z.of_nat (length rs)) in *.
  replace (Z.of_nat (length rs + 1)) with (k + 1) by (unfold k; lia).
  unfold record, recordRequest. cbn [averageResponseTime]. rewrite Htot.
  replace (k + 1 - 1) with k by lia. fold (duration r).
  rewrite (inject_Z_plus (sumDurations rs) (duration r)).
  replace ((k + 1) * (k + 1 + 1) * H) with ((k + 1) * (k + 2) * H) by lia.
  apply mean_step; try assumption; [unfold k; lia | nia].
Qed.

End APIMonitorFacts.

(** C7, as the code has it: after any sequence of [recordRequest] calls on
    zeroed metrics the total is the number of calls and equals successful
    plus failed, the rate-limited calls are among the failed ones, and the
    average response time is the mean of the durations of all recorded
    calls, whatever their status, up to the rounding of its running update
    in double arithmetic: for [n] calls with durations of at most [H]
    milliseconds, [n * H] at most [2^53], it is itself at most [H] and
    differs from the exact mean by at most [3 * (n + 1) * H * 2^-54]. *)
Theorem averageResponseTime_is_mean_of_all_calls
    (rs : list APIMonitor.Recording) (H : Z) :
  let m := APIMonitor.recordAll rs APIMonitor.zeroed in
  let n := Z.of_nat (length rs) in
  APIMonitor.totalRequests m
    = APIMonitor.successfulRequests m + APIMonitor.failedRequests m /\
  APIMonitor.totalRequests m = n /\
  APIMonitor.successfulRequests m = Z.of_nat (length (APIMonitor.successes rs)) /\
  APIMonitor.rateLimitHits m <= APIMonitor.failedRequests m /\
  (rs <> [] -> 1 <= H ->
   Forall (fun r => Z.abs (APIMonitor.duration r) <= H) rs -> n * H <= 2 ^ 53 ->
     (Qabs (APIMonitor.averageResponseTime m) <= inject_Z H)%Q /\
     (Qabs (APIMonitor.averageResponseTime m - APIMonitor.meanDuration rs)
      <= inject_Z (3 * (n + 1) * H) * Double.pow2 (-54))%Q).
Proof.
  intros m n.
  destruct (recordAll_invariant rs) as (Htot & Hsucc & Hsum & Hhits).
  fold m in Htot, Hsucc, Hsum, Hhits.
  split; [exact Hsum|]. split; [exact Htot|]. split; [exact Hsucc|]. split; [lia|].
  intros Hne HH Hall Hbig.
  destruct (recordAll_average rs H HH Hall Hbig) as [Ha HE].
  fold m n in Ha, HE. split; [exact Ha|].
  unfold APIMonitor.meanDuration. fold n.
  assert (Hn : 1 <= n) by (unfold n; destruct rs; [congruence | cbn; lia]).
  set (a := APIMonitor.averageResponseTime m) in *.
  set (S := inject_Z (APIMonitor.sumDurations rs)) in *.
  assert (EN : (inject_Z (n * (n + 1) * H) == inject_Z n * (inject_Z n + 1) * inject_Z H)%Q).
  { rewrite !inject_Z_mult, inject_Z_plus. reflexivity. }
  assert (EG : (inject_Z (3 * (n + 1) * H) == 3 * (inject_Z n + 1) * inject_Z H)%Q).
  { rewrite !inject_Z_mult, inject_Z_plus. reflexivity. }
  assert (Eu : (Double.pow2 (-54) == (1 # 2) * Double.pow2 (-53))%Q) by reflexivity.
  rewrite EN in HE. rewrite EG, Eu.
  assert (HN : (1 <= inject_Z n)%Q)
    by (change 1%Q with (inject_Z 1); rewrite <- Zle_Qle; exact Hn).
  assert (HH' : (1 <= inject_Z H)%Q)
    by (change 1%Q with (inject_Z 1); rewrite <- Zle_Qle; exact HH).
  pose proof (pow2_pos (-53)) as Hu.
  assert (Escale : (Qabs (a - S / inject_Z n) * inject_Z n == Qabs (a * inject_Z n - S))%Q).
  { rewrite <- (Qabs_pos (inject_Z n)) at 2 by lra. rewrite <- Qabs_Qmult.
    apply Qabs_wd. field. lra. }
  rewrite <- Escale in HE.
  revert HE HN HH' Hu.
  generalize (Qabs (a - S / inject_Z n)) (inject_Z n) (inject_Z H) (Double.pow2 (-53)).
  intros c N Hq u HE HN HH' Hu. nra.
Qed.

(** The running update rounds: one call of 3 ms followed by 47 calls of
    0 ms gives an average just below the exact mean 3/48. *)
Lemma running_average_is_rounded :
  let rs := APIMonitor.took 3 :: repeat (APIMonitor.took 0) 47 in
  let m := APIMonitor.recordAll rs APIMonitor.zeroed in
  (APIMonitor.meanDuration rs == 1 # 16)%Q /\
  (APIMonitor.averageResponseTime m < 1 # 16)%Q /\
  ((1 # 16) - APIMonitor.averageResponseTime m <= Double.pow2 (-56))%Q.
Proof.
  vm_compute. repeat split; discriminate.
Qed.

(** C7, counterexample: a success that took 10 ms followed by an error
    that took 30 ms.  The mean over the calls recorded as success is 10;
    the monitor reports 20. *)
Lemma averageResponseTime_counts_failed_calls :
  let rs := [ {| APIMonitor.r_now := 10; APIMonitor.r_endpoint := "/a";
                 APIMonitor.r_startTime := 0; APIMonitor.r_status := APIMonitor.success;
                 APIMonitor.r_error := None |};
              {| APIMonitor.r_now := 50; APIMonitor.r_endpoint := "/b";
                 APIMonitor.r_startTime := 20; APIMonitor.r_status := APIMonitor.error;
                 APIMonitor.r_error :=
                   Some {| APIMonitor.error_message := "Network error";
                           APIMonitor.error_status := None |} |} ] in
  let m := APIMonitor.recordAll rs APIMonitor.zeroed in
  (APIMonitor.meanDuration (APIMonitor.successes rs) == 10)%Q /\
  (APIMonitor.averageResponseTime m == 20)%Q /\
  ~ (APIMonitor.averageResponseTime m
     == APIMonitor.meanDuration (APIMonitor.successes rs))%Q.
Proof.
  vm_compute. repeat split; discriminate.
Qed.

(* ===================================================================== *)
(** ** API client: key validation and error classification *)
(* ===================================================================== *)

Section SportradarAPIFacts.
Import SportradarAPI.

Lemma trimStart_nil_iff (s : JsString) : trimStart s = [] <-> blank s = true.
Proof.
unfold blank. induction s as [|c s IH]; cbn; [tauto|].
destruct (isWhiteSpace c); cbn; [exact IH|]. split; discriminate.
Qed.

Lemma trimStart_snoc_solid (s : JsString) (c : N) :
isWhiteSpace c = false -> trimStart (s ++ [c]) <> [].
Proof.
intros Hc. induction s as [|x s IH]; cbn.
- rewrite Hc. discriminate.
- destruct (isWhiteSpace x); [exact IH | discriminate].
Qed.

Lemma trimStart_head_solid (s : JsString) (c : N) (s' : JsString) :
trimStart s = c :: s' -> isWhiteSpace c = false.
Proof.
induction s as [|x s IH]; cbn; [discriminate|].
destruct (isWhiteSpace x) eqn:E; [exact IH|].
intros H. inversion H; subst. exact E.
Qed.

(** [apiKey.trim() === ""] holds exactly for the blank keys. *)
Lemma trim_empty_iff_blank (s : JsString) : isEmpty (trim s) = blank s.
Proof.
unfold trim, trimEnd.
destruct (trimStart s) as [|c s'] eqn:E.
- cbn. symmetry. apply trimStart_nil_iff. exact E.
- assert (Hb : blank s = false).
  { destruct (blank s) eqn:B; [|reflexivity].
    apply trimStart_nil_iff in B. congruence. }
  rewrite Hb.
  pose proof (trimStart_head_solid s c s' E) as Hc.
  assert (Hne : trimStart (rev (c :: s')) <> []).
  { cbn [rev]. clear E.
    induction (rev s') as [|x l IH]; cbn.
    - rewrite Hc. discriminate.
    - destruct (isWhiteSpace x); [exact IH | discriminate]. }
  destruct (trimStart (rev (c :: s'))) as [|y l] eqn:E2; [congruence|].
  cbn [rev]. destruct (rev l); reflexivity.
Qed.

Lemma blank_nil_or_trim (s : JsString) :
(isEmpty s || isEmpty (trim s))%bool = blank s.
Proof.
rewrite trim_empty_iff_blank. destruct s; reflexivity.
Qed.

End SportradarAPIFacts.

(** C10: the checks of the constructor, in their order.  A blank key
    (empty or white space only) is refused with [MISSING_API_KEY]; a key
    that is not blank and shorter than 20 code units is refused with
    [INVALID_API_KEY_FORMAT]; a key that passes both, being not blank and
    of at least 20 code units, is accepted; in no case does the
    constructor issue an HTTP request. *)
Theorem constructor_validates_key
    (env : SportradarAPI.Env) (key : SportradarAPI.JsString) (baseURL : option string) :
  let r := SportradarAPI.constructor env key baseURL in
  SportradarAPI.noHttpRequest r = true /\
  (SportradarAPI.blank key = true ->
     SportradarAPI.thrownCode r = Some "MISSING_API_KEY"%string) /\
  (SportradarAPI.blank key = false -> (length key < 20)%nat ->
     SportradarAPI.thrownCode r = Some "INVALID_API_KEY_FORMAT"%string) /\
  (SportradarAPI.blank key = false -> (20 <= length key)%nat ->
     SportradarAPI.accepted r = true /\ SportradarAPI.thrownCode r = None).
Proof.
  intros r. unfold r, SportradarAPI.constructor.
  rewrite blank_nil_or_trim.
  destruct (SportradarAPI.blank key) eqn:B.
  - repeat split; try reflexivity; discriminate.
  - destruct (length key <? 20)%nat eqn:L.
    + apply Nat.ltb_lt in L. repeat split; try reflexivity; try discriminate; lia.
    + apply Nat.ltb_ge in L. repeat split; try reflexivity; try discriminate; lia.
Qed.

(** C8, as the code has it: with a response, the statuses 401, 403, 429,
    404, 500 and 503 give their fixed codes, 429 and 503 carrying the
    parsed retry-after header when it is present and not empty; every other
    status, the remaining 5xx included, gives the [code] field of the
    response body, which may be absent.  Without a response but with a
    request, [ECONNABORTED] gives [TIMEOUT], [ENOTFOUND] gives [DNS_ERROR],
    anything else [NETWORK_ERROR].  [UNKNOWN] is given only when there is
    neither a response nor a request. *)
Theorem onRejected_classifies
    (Number_parseInt : string -> option Z) (e : SportradarAPI.AxiosError) :
  let err := SportradarAPI.onRejected Number_parseInt e in
  match SportradarAPI.ax_response e with
  | Some r =>
      let st := SportradarAPI.resp_status r in
      SportradarAPI.status err = Some st /\
      (st = 401 -> SportradarAPI.code err = Some "INVALID_API_KEY"%string
                   /\ SportradarAPI.retryAfter err = None) /\
      (st = 403 -> SportradarAPI.code err = Some "INSUFFICIENT_PERMISSIONS"%string
                   /\ SportradarAPI.retryAfter err = None) /\
      (st = 429 -> SportradarAPI.code err = Some "RATE_LIMIT"%string
                   /\ SportradarAPI.retryAfter err
                      = SportradarAPI.retryAfterOf Number_parseInt r) /\
      (st = 404 -> SportradarAPI.code err = Some "NOT_FOUND"%string
                   /\ SportradarAPI.retryAfter err = None) /\
      (st = 500 -> SportradarAPI.code err = Some "SERVER_ERROR"%string
                   /\ SportradarAPI.retryAfter err = None) /\
      (st = 503 -> SportradarAPI.code err = Some "SERVICE_UNAVAILABLE"%string
                   /\ SportradarAPI.retryAfter err
                      = SportradarAPI.retryAfterOf Number_parseInt r) /\
      (~ In st [401; 403; 429; 404; 500; 503] ->
         SportradarAPI.code err = SportradarAPI.resp_data_code r
         /\ SportradarAPI.retryAfter err = None)
  | None =>
      SportradarAPI.status err = None /\ SportradarAPI.retryAfter err = None /\
      (SportradarAPI.ax_request e = true ->
         (SportradarAPI.ax_code e = Some "ECONNABORTED"%string ->
            SportradarAPI.code err = Some "TIMEOUT"%string) /\
         (SportradarAPI.ax_code e = Some "ENOTFOUND"%string ->
            SportradarAPI.code err = Some "DNS_ERROR"%string) /\
         (SportradarAPI.ax_code e <> Some "ECONNABORTED"%string ->
          SportradarAPI.ax_code e <> Some "ENOTFOUND"%string ->
            SportradarAPI.code err = Some "NETWORK_ERROR"%string)) /\
      (SportradarAPI.ax_request e = false ->
         SportradarAPI.code err = Some "UNKNOWN"%string)
  end.
Proof.
  intros err. unfold err, SportradarAPI.onRejected.
  destruct (SportradarAPI.ax_response e) as [r|].
  - cbn zeta.
    set (st := SportradarAPI.resp_status r).
    repeat match goal with
           | |- context [st =? ?k] =>
               let E := fresh "E" in
               destruct (st =? k) eqn:E;
               [apply Z.eqb_eq in E | apply Z.eqb_neq in E]
           end;
      cbn [SportradarAPI.status SportradarAPI.code SportradarAPI.retryAfter];
      repeat split; intros; try reflexivity; try lia;
      match goal with
      | H : ~ In _ _ |- _ => exfalso; apply H; cbn; lia
      end.
  - unfold SportradarAPI.codeIs.
    destruct (SportradarAPI.ax_request e).
    + destruct (SportradarAPI.ax_code e) as [c|].
      * destruct (String.eqb c "ECONNABORTED") eqn:A;
          [apply String.eqb_eq in A | apply String.eqb_neq in A];
          [|destruct (String.eqb c "ENOTFOUND") eqn:B;
            [apply String.eqb_eq in B | apply String.eqb_neq in B]];
          cbn; repeat split; intros; try reflexivity; try discriminate; congruence.
      * cbn. repeat split; intros; try reflexivity; discriminate.
    + cbn. repeat split; intros; try reflexivity; discriminate.
Qed.

(** C8, counterexample: a 502 answer is a 5xx other than 503, yet its
    code is the (absent) code of the response body, not [SERVER_ERROR]. *)
Lemma bad_gateway_is_not_classified_SERVER_ERROR :
  let err := SportradarAPI.onRejected (fun _ => None) SportradarAPI.badGateway in
  SportradarAPI.specCodeOfStatus 502 = "SERVER_ERROR"%string /\
  SportradarAPI.status err = Some 502 /\
  SportradarAPI.code err = None /\
  SportradarAPI.code err <> Some (SportradarAPI.specCodeOfStatus 502).
Proof. vm_compute. repeat split; discriminate. Qed.

(* ===================================================================== *)
(** ** Token bucket: bounds, repeated checks, early draws *)
(* ===================================================================== *)

Section TokenBucketOpsFacts.
Import TokenBucket TokenBucketOps.

Lemma isDouble_comp (x y : Q) : (x == y)%Q -> Double.isDouble x -> Double.isDouble y.
Proof.
  unfold Double.isDouble. intros E H. rewrite <- (round_comp x y E), H. exact E.
Qed.

Lemma isDouble_min (x y : Q) :
  Double.isDouble x -> Double.isDouble y -> Double.isDouble (Qmin x y).
Proof.
  intros Hx Hy. destruct (Q.min_spec x y) as [[_ E] | [_ E]].
  - apply (isDouble_comp x); [symmetry; exact E | exact Hx].
  - apply (isDouble_comp y); [symmetry; exact E | exact Hy].
Qed.

Lemma refillTokens_within (now : Z) (b : TokenBucketRateLimiter) :
  withinBounds b -> withinBounds (refillTokens now b) /\
  capacity (refillTokens now b) = capacity b.
Proof.
  intros (Hlo & Hhi & Dt & Dc).
  destruct (refillTokens_cases now b) as [[_ Heq] | (Hadd & Htok & _)].
  - rewrite Heq. repeat split; assumption.
  - split; [|apply refillTokens_static].
    unfold withinBounds. rewrite (proj1 (refillTokens_static now b)), Htok.
    assert (Hsum : (0 <= Double.add (tokens b) (inject_Z (tokensToAdd now b)))%Q).
    { apply Qle_trans with 1%Q; [discriminate | apply add_ge_one; assumption]. }
    split; [apply Q.min_glb; [apply Qle_trans with (tokens b); assumption | exact Hsum]|].
    split; [apply Q.le_min_l|].
    split; [|exact Dc].
    apply isDouble_min; [exact Dc | apply round_idem].
Qed.

Lemma consume_within (now : Z) (n : Q) (b : TokenBucketRateLimiter) :
  (0 <= n)%Q -> withinBounds b ->
  withinBounds (snd (consume now n b)) /\ capacity (snd (consume now n b)) = capacity b.
Proof.
  intros Hn Hb.
  destruct (refillTokens_within now b Hb) as [(Hlo & Hhi & Dt & Dc) Hcap].
  unfold consume, canConsume.
  destruct (Qle_bool n (tokens (refillTokens now b))) eqn:E; cbn.
  - apply Qle_bool_iff in E. unfold withinBounds. cbn. rewrite Hcap in *.
    set (T := tokens (refillTokens now b)) in *.
    split; [|reflexivity].
    split.
    { unfold Double.sub. apply round_nonneg. lra. }
    split.
    { apply Qle_trans with T; [|exact Hhi].
      unfold Double.sub. apply Qle_trans with (Double.round T); [|apply Qle_lteq; right; exact Dt].
      apply round_le. lra. }
    split; [apply round_idem | exact Dc].
  - repeat split; assumption.
Qed.

Lemma tokensToAdd_same_instant (now : Z) (b : TokenBucketRateLimiter) :
  lastRefill b = now -> tokensToAdd now b = 0.
Proof.
  intros H. unfold tokensToAdd, accrued. rewrite H, Z.sub_diag.
  unfold Double.div. rewrite (round_zero (inject_Z 0 / 1000)) by reflexivity.
  unfold Double.mul. rewrite (round_zero (0 * refillRate b)) by ring.
  reflexivity.
Qed.

Lemma refillTokens_idempotent (now : Z) (b : TokenBucketRateLimiter) :
  refillTokens now (refillTokens now b) = refillTokens now b.
Proof.
  destruct (refillTokens_cases now b) as [[Hle Heq] | (Hadd & _ & Hlast)].
  - rewrite Heq.
    destruct (refillTokens_cases now b) as [[_ H] | (H & _)]; [exact H | lia].
  - pose proof (tokensToAdd_same_instant now (refillTokens now b) Hlast) as Hz.
    destruct (refillTokens_cases now (refillTokens now b)) as [[_ H] | (H & _)];
      [exact H | lia].
Qed.

End TokenBucketOpsFacts.

(** X1: the token count stays between 0 and the capacity under any
    sequence of refills, checks and draws of non-negative amounts, once it
    is there; rounding does not carry it out of these bounds. *)
Theorem tokens_stay_within_bounds
    (ops : list TokenBucketOps.Op) (b : TokenBucket.TokenBucketRateLimiter) :
  TokenBucketOps.withinBounds b ->
  Forall TokenBucketOps.nonNegativeDraw ops ->
  TokenBucketOps.withinBounds (TokenBucketOps.run ops b).
Proof.
  intros Hb Hops. revert b Hb. unfold TokenBucketOps.run.
  induction Hops as [|op ops Hop _ IH]; intros b Hb; [exact Hb|].
  cbn [fold_left]. apply IH.
  destruct op as [now | now n | now n | now]; cbn.
  - apply refillTokens_within. exact Hb.
  - apply refillTokens_within. exact Hb.
  - apply consume_within; assumption.
  - apply refillTokens_within. exact Hb.
Qed.

(** The production bucket under a burst of draws and timer ticks. *)
Lemma tokens_stay_within_bounds_witness :
  TokenBucketOps.withinBounds
    (TokenBucketOps.run
       [TokenBucketOps.Consume 10 1; TokenBucketOps.Consume 20 3;
        TokenBucketOps.Refill 200; TokenBucketOps.Consume 450 2;
        TokenBucketOps.GetAvailableTokens 5000; TokenBucketOps.CanConsume 5000 11]
       (TokenBucket.constructor 0 TokenBucket.SPORTRADAR_RATE_LIMITS_production)).
Proof.
  apply tokens_stay_within_bounds.
  - split; [vm_compute; discriminate|]. split; [vm_compute; discriminate|].
    split; vm_compute; reflexivity.
  - repeat constructor; vm_compute; discriminate.
Defined.

(** X2: asking first changes nothing.  At one instant [canConsume] gives
    the answer [consume] gives, a second refill adds nothing, and
    [consume] after [canConsume] ends exactly as [consume] alone. *)
Theorem check_then_draw_is_draw
    (now : Z) (n : Q) (b : TokenBucket.TokenBucketRateLimiter) :
  fst (TokenBucket.canConsume now n b) = fst (TokenBucket.consume now n b) /\
  TokenBucket.consume now n (snd (TokenBucket.canConsume now n b))
    = TokenBucket.consume now n b /\
  TokenBucket.getAvailableTokens now (snd (TokenBucket.canConsume now n b))
    = TokenBucket.getAvailableTokens now b.
Proof.
  unfold TokenBucket.consume, TokenBucket.canConsume, TokenBucket.getAvailableTokens.
  cbn [fst snd]. rewrite refillTokens_idempotent.
  destruct (Qle_bool n (TokenBucket.tokens (TokenBucket.refillTokens now b)));
    repeat split; reflexivity.
Qed.

(** X3: no token before its time.  While the product that the refill
    computes from the time since the last refill is below one, a bucket
    holding less than one token refuses [consume(1)] and is left exactly
    as it was. *)
Theorem draw_refused_before_a_token_accrued
    (now : Z) (b : TokenBucket.TokenBucketRateLimiter) :
  (TokenBucket.tokens b < 1)%Q ->
  (TokenBucket.accrued now b < 1)%Q ->
  TokenBucket.consume now 1 b = (false, b).
Proof.
  intros Htok Hacc.
  assert (Hadd : TokenBucket.tokensToAdd now b <= 0).
  { unfold TokenBucket.tokensToAdd.
    assert (H : Qfloor (TokenBucket.accrued now b) < 1); [|lia].
    rewrite Zlt_Qlt.
    apply Qle_lt_trans with (TokenBucket.accrued now b); [apply Qfloor_le | exact Hacc]. }
  assert (Hsame : TokenBucket.refillTokens now b = b).
  { destruct (refillTokens_cases now b) as [[_ H] | (H & _)]; [exact H | lia]. }
  unfold TokenBucket.consume, TokenBucket.canConsume. rewrite Hsame.
  destruct (Qle_bool 1 (TokenBucket.tokens b)) eqn:E; [|reflexivity].
  apply Qle_bool_iff in E. exfalso. exact (Qlt_not_le _ _ Htok E).
Qed.

(** The trial bucket, emptied at instant 0, asked one millisecond before
    the 90 seconds are over. *)
Lemma draw_refused_before_a_token_accrued_witness :
  let b := snd (TokenBucket.consume 0 1
                  (TokenBucket.constructor 0 TokenBucket.SPORTRADAR_RATE_LIMITS_trial)) in
  TokenBucket.consume 89999 1 b = (false, b).
Proof.
  apply (draw_refused_before_a_token_accrued 89999
           (snd (TokenBucket.consume 0 1
                   (TokenBucket.constructor 0 TokenBucket.SPORTRADAR_RATE_LIMITS_trial)))).
  - vm_compute. reflexivity.
  - vm_compute. reflexivity.
Defined.

(* ===================================================================== *)
(** ** Advanced limiter: backoff, retries and the breaker *)
(* ===================================================================== *)

Section AdvancedRateLimiterRetriesFacts.
Import AdvancedRateLimiter AdvancedRateLimiterRetries.

Lemma two_power_ge_1 (k : Z) : 0 <= k -> (1 <= 2 ^ k)%Q.
Proof.
  intros Hk. change 2%Q with (inject_Z 2). rewrite <- Zpower_Qpower by exact Hk.
  change 1%Q with (inject_Z 1). rewrite <- Zle_Qle.
  pose proof (Z.pow_pos_nonneg 2 k). lia.
Qed.

Lemma two_power_succ (k : Z) : 0 <= k -> (2 ^ (k + 1) == 2 ^ k * 2)%Q.
Proof.
  intros Hk. rewrite Qpower_plus by discriminate. reflexivity.
Qed.

Lemma base_and_max_delay (error : RequestError) :
  (1000 <= baseDelay error)%Q /\ (baseDelay error <= maxDelay error)%Q.
Proof. unfold baseDelay, maxDelay. destruct (is429Error error); split; discriminate. Qed.

Lemma whole_ge_1 (x : Q) (k : Z) : (x == inject_Z k)%Q -> (1 <= x)%Q -> 1 <= k.
Proof.
  intros H1 H2. rewrite Zle_Qle. change (inject_Z 1) with 1%Q. rewrite <- H1. exact H2.
Qed.

(** Drawing one token from a whole count of at least one leaves a whole
    count. *)
Lemma whole_minus_1 (x : Q) (k : Z) :
  (x == inject_Z k)%Q -> 1 <= k ->
  exists k' : Z, 0 <= k' /\ (Double.sub x 1 == inject_Z k')%Q.
Proof.
  intros H Hk.
  assert (E : (x - 1 == inject_Z (k - 1))%Q).
  { rewrite H. unfold Z.sub. rewrite inject_Z_plus, inject_Z_opp. reflexivity. }
  destruct (round_whole (k - 1)) as [k' Hk'].
  exists k'. unfold Double.sub. rewrite (round_comp _ _ E). split; [|exact Hk'].
  rewrite Zle_Qle, <- Hk'. apply round_nonneg.
  change 0%Q with (inject_Z 0). rewrite <- Zle_Qle. lia.
Qed.

(** Adding a whole number to a whole count gives a whole count. *)
Lemma whole_plus (x : Q) (k a : Z) :
  (x == inject_Z k)%Q ->
  exists w : Z, (Double.add x (inject_Z a) == inject_Z w)%Q.
Proof.
  intros H.
  assert (E : (x + inject_Z a == inject_Z (k + a))%Q)
    by (rewrite inject_Z_plus, H; reflexivity).
  destruct (round_whole (k + a)) as [w Hw].
  exists w. unfold Double.add. rewrite (round_comp _ _ E). exact Hw.
Qed.

Lemma waitAccruesToken_rate (b b' : TokenBucket.TokenBucketRateLimiter) :
  TokenBucket.refillRate b' = TokenBucket.refillRate b ->
  TokenBucket.waitAccruesToken b -> TokenBucket.waitAccruesToken b'.
Proof.
  intros E. unfold TokenBucket.waitAccruesToken, TokenBucket.advertisedWait.
  rewrite E. intros H. exact H.
Qed.

(** A successful draw leaves the bucket ready for the next wait. *)
Lemma consume_keeps_ready (now now' : Z) (b : TokenBucket.TokenBucketRateLimiter) :
  bucketReady now b ->
  (exists c : Z, (TokenBucket.capacity b == inject_Z c)%Q) ->
  now <= now' ->
  fst (TokenBucket.consume now' 1 b) = true ->
  bucketReady now' (snd (TokenBucket.consume now' 1 b)) /\
  TokenBucket.capacity (snd (TokenBucket.consume now' 1 b)) = TokenBucket.capacity b.
Proof.
  intros (Hcap & Hrate & (k & Hk & Htok) & Hacc & Hlast) (c & Hc) Hle Hok.
  pose proof (proj1 (consume_true_iff now' 1 b) Hok) as Hge.
  unfold TokenBucket.consume, TokenBucket.canConsume in *.
  destruct (Qle_bool 1 (TokenBucket.tokens (TokenBucket.refillTokens now' b))) eqn:E;
    [|discriminate].
  cbn [snd]. destruct (refillTokens_static now' b) as [Sc Sr].
  unfold bucketReady, TokenBucket.set_tokens. cbn [TokenBucket.capacity TokenBucket.refillRate
    TokenBucket.lastRefill].
  rewrite Sc, Sr. split; [|reflexivity].
  split; [exact Hcap|]. split; [exact Hrate|].
  assert (Hwhole' : exists m : Z, 1 <= m /\
            (TokenBucket.tokens (TokenBucket.refillTokens now' b) == inject_Z m)%Q).
  { destruct (refillTokens_cases now' b) as [[_ Hsame] | (Hadd & Hnew & Hl)].
    - rewrite Hsame in *. exists k. split; [apply (whole_ge_1 _ _ Htok Hge) | exact Htok].
    - set (a := TokenBucket.tokensToAdd now' b) in *.
      destruct (whole_plus _ k a Htok) as [w Hw].
      assert (Hmin : (TokenBucket.tokens (TokenBucket.refillTokens now' b)
                      == inject_Z (Z.min c w))%Q).
      { rewrite Hnew.
        destruct (Z.le_ge_cases c w) as [H | H].
        - rewrite Z.min_l by exact H. rewrite Q.min_l; [exact Hc|].
          rewrite Hc, Hw, <- Zle_Qle. exact H.
        - rewrite Z.min_r by lia. rewrite Q.min_r; [exact Hw|].
          rewrite Hc, Hw, <- Zle_Qle. lia. }
      exists (Z.min c w). split; [apply (whole_ge_1 _ _ Hmin Hge) | exact Hmin]. }
  destruct Hwhole' as (m & Hm & Hmtok).
  split; [|split; [apply (waitAccruesToken_rate b); [reflexivity | exact Hacc]|]].
  - unfold TokenBucket.wholeTokens. cbn [TokenBucket.tokens].
    apply (whole_minus_1 _ m Hmtok Hm).
  - destruct (refillTokens_cases now' b) as [[_ Hsame] | (_ & _ & Hl)].
    + rewrite Hsame. lia.
    + rewrite Hl. lia.
Qed.

Lemma bucketReady_later (now now' : Z) (b : TokenBucket.TokenBucketRateLimiter) :
  now <= now' -> bucketReady now b -> bucketReady now' b.
Proof.
  intros Hle (A & B & C & D & E).
  split; [exact A|]. split; [exact B|]. split; [exact C|]. split; [exact D | lia].
Qed.

Lemma handleRequestError_frame (now : Z) (request : QueuedRequest)
    (error : RequestError) (st : AdvancedRateLimiter) :
  let st' := snd (handleRequestError now request error st) in
  requestQueue st' = requestQueue st /\ isProcessing st' = isProcessing st /\
  tokenBucket st' = tokenBucket st /\ maxRetries st' = maxRetries st /\
  circuitBreakerThreshold st' = circuitBreakerThreshold st /\
  circuitBreakerResetTime st' = circuitBreakerResetTime st.
Proof.
  unfold handleRequestError, recordFailure.
  destruct (isRateLimitError error && (retryCount request <? maxRetries st))%bool; cbn;
    [repeat split|].
  destruct (circuitBreakerThreshold st <=? circuitBreakerFailures st + 1); cbn;
    repeat split.
Qed.

(** One attempt on an idle limiter: the request re-enters the queue, the
    loop obtains a token and calls it; what follows is decided by how the
    call settles.  The limiter is idle again afterwards. *)
Lemma retryFires_on_idle (run : QueuedRequest -> Settled) (polls : nat) (now : Z)
    (request : QueuedRequest) (st : AdvancedRateLimiter) :
  idle now st -> (2 <= polls)%nat ->
  exists now' st',
    now <= now' /\ idle now' st' /\
    maxRetries st' = maxRetries st /\
    circuitBreakerThreshold st' = circuitBreakerThreshold st /\
    circuitBreakerResetTime st' = circuitBreakerResetTime st /\
    match run request with
    | Fulfilled v =>
        retryFires run polls now request st
          = Some ([Executed (requestId request); Resolved (requestId request) v], now', st')
        /\ circuitBreakerFailures st' = 0
        /\ lastCircuitBreakerTrip st' = lastCircuitBreakerTrip st
    | Failed e =>
        if (isRateLimitError e && (retryCount request <? maxRetries st))%bool then
          retryFires run polls now request st
            = Some ([Executed (requestId request);
                     RetryScheduled {| requestId := requestId request;
                                       retryCount := retryCount request + 1;
                                       timestamp := timestamp request |}], now', st')
          /\ circuitBreakerFailures st' = circuitBreakerFailures st
          /\ lastCircuitBreakerTrip st' = lastCircuitBreakerTrip st
        else
          retryFires run polls now request st
            = Some ([Executed (requestId request); Rejected (requestId request) e], now', st')
          /\ circuitBreakerFailures st' = circuitBreakerFailures st + 1
          /\ (circuitBreakerThreshold st <= circuitBreakerFailures st + 1 ->
              lastCircuitBreakerTrip st' = now')
    end.
Proof.
  intros (Hq & Hp & Hready & Hwhole) Hpolls.
  destruct (waitForToken_returns polls now _ Hpolls Hready) as (now' & Hle & Hw & Hc).
  destruct (consume_keeps_ready now now' _ Hready Hwhole Hle Hc) as [Hready' Hcap'].
  set (b' := snd (TokenBucket.consume now' 1 (tokenBucket st))) in *.
  assert (Hwhole' : exists c : Z, (TokenBucket.capacity b' == inject_Z c)%Q)
    by (rewrite Hcap'; exact Hwhole).
  unfold retryFires, processQueue. cbn [requestQueue set_queue isProcessing].
  rewrite Hp, Hq. cbn [orb length Nat.eqb drain].
  unfold processRequest. cbn [tokenBucket set_queue set_processing].
  rewrite Hw.
  destruct (run request) as [v | e].
  - eexists now', _. split; [exact Hle|].
    split; [|split; [|split; [|split; [|split; [reflexivity|split; reflexivity]]]]];
      try reflexivity.
    split; [reflexivity | split; [reflexivity | split; [exact Hready' | exact Hwhole']]].
  - unfold handleRequestError.
    cbn [maxRetries set_bucket set_queue set_processing].
    destruct (isRateLimitError e && (retryCount request <? maxRetries st))%bool eqn:R.
    + eexists now', _. split; [exact Hle|].
      split; [|split; [|split; [|split; [|split; [reflexivity|split; reflexivity]]]]];
        try reflexivity.
      split; [reflexivity | split; [reflexivity | split; [exact Hready' | exact Hwhole']]].
    + eexists now', _. split; [exact Hle|].
      split; [|split; [|split; [|split; [|split; [reflexivity|split]]]]].
      * unfold recordFailure.
        destruct (circuitBreakerThreshold _ <=? _);
          (split; [reflexivity | split; [reflexivity | split; [exact Hready' | exact Hwhole']]]).
      * unfold recordFailure. destruct (circuitBreakerThreshold _ <=? _); reflexivity.
      * unfold recordFailure. destruct (circuitBreakerThreshold _ <=? _); reflexivity.
      * unfold recordFailure. destruct (circuitBreakerThreshold _ <=? _); reflexivity.
      * unfold recordFailure. destruct (circuitBreakerThreshold _ <=? _); reflexivity.
      * intros Hthr. unfold recordFailure. cbn.
        replace (circuitBreakerThreshold st <=? circuitBreakerFailures st + 1) with true;
          [reflexivity | symmetry; apply Z.leb_le; exact Hthr].
Qed.

End AdvancedRateLimiterRetriesFacts.

Section AdvancedRateLimiterChains.
Import AdvancedRateLimiter AdvancedRateLimiterRetries.

Lemma makeRequest_closed_idle (run : QueuedRequest -> Settled) (polls : nat) (now : Z)
    (id : nat) (st : AdvancedRateLimiter) :
  circuitBreakerFailures st < circuitBreakerThreshold st ->
  requestQueue st = [] ->
  makeRequest run polls now id st
    = retryFires run polls now {| requestId := id; retryCount := 0; timestamp := now |} st.
Proof.
  intros Hclosed Hq. unfold makeRequest, isCircuitBreakerOpen, retryFires.
  replace (circuitBreakerThreshold st <=? circuitBreakerFailures st) with false
    by (symmetry; apply Z.leb_gt; exact Hclosed).
  rewrite Hq. reflexivity.
Qed.

Lemma executions_app (id : nat) (evs evs' : list Event) :
  executions id (evs ++ evs') = (executions id evs + executions id evs')%nat.
Proof. unfold executions. rewrite List.filter_app, length_app. reflexivity. Qed.

(** A request that meets a rate-limit error at every call, followed from
    an attempt with [n] retries left. *)
Lemma rate_limited_chain (e : RequestError) (polls : nat) (delay : QueuedRequest -> Z)
    (n : nat) :
  isRateLimitError e = true -> (2 <= polls)%nat -> (forall r, 0 <= delay r) ->
  forall (rounds : nat) (now : Z) (request : QueuedRequest) (st : AdvancedRateLimiter),
    idle now st -> (n <= rounds)%nat ->
    retryCount request + Z.of_nat n = maxRetries st ->
    exists evs now' st',
      settleRetries rounds (fun _ => Failed e) polls delay
        (retryFires (fun _ => Failed e) polls now request st) = Some (evs, now', st') /\
      executions (requestId request) evs = S n /\
      List.last evs (Executed O) = Rejected (requestId request) e /\
      circuitBreakerFailures st' = circuitBreakerFailures st + 1 /\
      idle now' st'.
Proof.
  intros Hrl Hpolls Hdelay.
  induction n as [|n IH]; intros rounds now request st Hidle Hrounds Hcount.
  - destruct (retryFires_on_idle (fun _ => Failed e) polls now request st Hidle Hpolls)
      as (now' & st' & Hle & Hidle' & _ & _ & _ & Hcase).
    cbn beta in Hcase. rewrite Hrl in Hcase.
    replace (retryCount request <? maxRetries st) with false in Hcase
      by (symmetry; apply Z.ltb_ge; lia).
    cbn [andb] in Hcase. destruct Hcase as (Hrun & Hf & _).
    exists [Executed (requestId request); Rejected (requestId request) e], now', st'.
    rewrite Hrun. split.
    + destruct rounds; reflexivity.
    + split; [unfold executions; cbn; rewrite Nat.eqb_refl; reflexivity|].
      split; [reflexivity|]. split; assumption.
  - destruct (retryFires_on_idle (fun _ => Failed e) polls now request st Hidle Hpolls)
      as (now' & st' & Hle & Hidle' & Hmax & _ & _ & Hcase).
    cbn beta in Hcase. rewrite Hrl in Hcase.
    replace (retryCount request <? maxRetries st) with true in Hcase
      by (symmetry; apply Z.ltb_lt; lia).
    cbn [andb] in Hcase. destruct Hcase as (Hrun & Hf & _).
    set (r' := {| requestId := requestId request;
                  retryCount := retryCount request + 1;
                  timestamp := timestamp request |}) in *.
    destruct rounds as [|rounds]; [lia|].
    assert (Hidle2 : idle (now' + delay r') st').
    { destruct Hidle' as (A & B & C & D).
      split; [exact A|]. split; [exact B|]. split; [|exact D].
      apply (bucketReady_later now'); [specialize (Hdelay r'); lia | exact C]. }
    destruct (IH rounds (now' + delay r') r' st' Hidle2) as
      (evs & now'' & st'' & Hrest & Hex & Hlast & Hfail & Hidle'');
      [lia | cbn; lia |].
    change (requestId r') with (requestId request) in Hex, Hlast.
    exists ([Executed (requestId request); RetryScheduled r'] ++ evs), now'', st''.
    rewrite Hrun. cbn [settleRetries scheduledRetry List.last].
    rewrite Hrest. split; [reflexivity|].
    split.
    + rewrite executions_app, Hex. unfold executions. cbn.
      rewrite Nat.eqb_refl. reflexivity.
    + split; [|split; [lia | exact Hidle'']].
      destruct evs as [|x evs']; [discriminate Hex|].
      cbn [app]. cbn [app] in Hlast. exact Hlast.
Qed.

End AdvancedRateLimiterChains.

(** X4: without a retry-after value the backoff delay of
    [calculateBackoffDelay] is at least the base delay of its error class,
    never exceeds the cap of that class, and does not shrink from one retry
    to the next, whatever the two jitter values below one second are. *)
Theorem backoff_grows_up_to_its_cap
    (Number_parseInt : string -> option Z) (jitter jitter' : Q) (retryCount : Z)
    (error : AdvancedRateLimiter.RequestError) :
  0 <= retryCount ->
  (0 <= jitter)%Q -> (jitter < 1000)%Q -> (0 <= jitter')%Q ->
  exists d d' : Q,
    AdvancedRateLimiterRetries.calculateBackoffDelay Number_parseInt jitter retryCount
      error AdvancedRateLimiterRetries.NoRetryAfter = Some d /\
    AdvancedRateLimiterRetries.calculateBackoffDelay Number_parseInt jitter'
      (retryCount + 1) error AdvancedRateLimiterRetries.NoRetryAfter = Some d' /\
    (AdvancedRateLimiterRetries.baseDelay error <= d)%Q /\
    (d <= d')%Q /\
    (d' <= AdvancedRateLimiterRetries.maxDelay error)%Q.
Proof.
  intros Hk Hj0 Hj1 Hj0'.
  unfold AdvancedRateLimiterRetries.calculateBackoffDelay. cbn [AdvancedRateLimiterRetries.retryAfterGiven].
  eexists _, _. split; [reflexivity|]. split; [reflexivity|].
  pose proof (two_power_ge_1 retryCount Hk) as Hp.
  pose proof (two_power_succ retryCount Hk) as Hs.
  destruct (base_and_max_delay error) as [Hb Hm].
  set (B := AdvancedRateLimiterRetries.baseDelay error) in *.
  set (M := AdvancedRateLimiterRetries.maxDelay error) in *.
  set (P := (2 ^ retryCount)%Q) in *.
  assert (HBP : (B <= B * P)%Q).
  { nra. }
  split; [apply Q.min_glb; lra|].
  split; [|apply Q.le_min_r].
  apply Q.min_glb; [|apply Q.le_min_r].
  apply Qle_trans with (B * P + jitter)%Q; [apply Q.le_min_l|].
  rewrite Hs. nra.
Qed.

(** The first two delays after a 429: at least two minutes, then at least
    the first. *)
Lemma backoff_grows_up_to_its_cap_witness :
  exists d d' : Q,
    AdvancedRateLimiterRetries.calculateBackoffDelay (fun _ => None) (1 # 2) 0
      AdvancedRateLimiterRetries.tooManyRequests AdvancedRateLimiterRetries.NoRetryAfter
      = Some d /\
    AdvancedRateLimiterRetries.calculateBackoffDelay (fun _ => None) 999 (0 + 1)
      AdvancedRateLimiterRetries.tooManyRequests AdvancedRateLimiterRetries.NoRetryAfter
      = Some d' /\
    (AdvancedRateLimiterRetries.baseDelay AdvancedRateLimiterRetries.tooManyRequests <= d)%Q /\
    (d <= d')%Q /\
    (d' <= AdvancedRateLimiterRetries.maxDelay AdvancedRateLimiterRetries.tooManyRequests)%Q.
Proof.
  apply (backoff_grows_up_to_its_cap (fun _ => None) (1 # 2) 999 0
           AdvancedRateLimiterRetries.tooManyRequests).
  - lia.
  - vm_compute. discriminate.
  - vm_compute. reflexivity.
  - vm_compute. discriminate.
Defined.

(** X5: a failure that is counted while the failure count is at or above
    the threshold stamps the trip time anew: the request is rejected with
    its own error and the breaker is open for a full reset time counted
    from this failure, also when it was open already. *)
Theorem counted_failure_at_threshold_restarts_the_cooldown
    (now t : Z) (request : AdvancedRateLimiter.QueuedRequest)
    (error : AdvancedRateLimiter.RequestError)
    (st : AdvancedRateLimiter.AdvancedRateLimiter) :
  (AdvancedRateLimiter.isRateLimitError error
   && (AdvancedRateLimiter.retryCount request <? AdvancedRateLimiter.maxRetries st))%bool
    = false ->
  AdvancedRateLimiter.circuitBreakerThreshold st
    <= AdvancedRateLimiter.circuitBreakerFailures st + 1 ->
  t - now < AdvancedRateLimiter.circuitBreakerResetTime st ->
  let r := AdvancedRateLimiter.handleRequestError now request error st in
  fst r = [AdvancedRateLimiter.Rejected (AdvancedRateLimiter.requestId request) error] /\
  AdvancedRateLimiter.lastCircuitBreakerTrip (snd r) = now /\
  AdvancedRateLimiter.isCircuitBreakerOpen t (snd r) = (true, snd r).
Proof.
  intros Hno Hthr Ht r. unfold r.
  rewrite (handleRequestError_records now request error st Hno). cbn [fst snd].
  destruct (recordFailure_fields now st) as (F & T & R & _).
  pose proof (recordFailure_trip now st Hthr) as Htrip.
  split; [reflexivity|]. split; [exact Htrip|].
  unfold AdvancedRateLimiter.isCircuitBreakerOpen. rewrite F, T, R, Htrip.
  replace (AdvancedRateLimiter.circuitBreakerThreshold st
           <=? AdvancedRateLimiter.circuitBreakerFailures st + 1) with true
    by (symmetry; apply Z.leb_le; exact Hthr).
  replace (t - now <? AdvancedRateLimiter.circuitBreakerResetTime st) with true
    by (symmetry; apply Z.ltb_lt; exact Ht).
  reflexivity.
Qed.

(** The client's limiter, open since 360 s: a queued request that fails
    at 450 s keeps the breaker open at 700 s. *)
Lemma counted_failure_at_threshold_restarts_the_cooldown_witness :
  let st := AdvancedRateLimiter.recordFailures [0; 90000; 180000; 270000; 360000]
              AdvancedRateLimiter.clientLimiter in
  let r := AdvancedRateLimiter.handleRequestError 450000 (AdvancedRateLimiter.queued 6)
             AdvancedRateLimiter.serverError st in
  fst r = [AdvancedRateLimiter.Rejected 6 AdvancedRateLimiter.serverError] /\
  AdvancedRateLimiter.lastCircuitBreakerTrip (snd r) = 450000 /\
  AdvancedRateLimiter.isCircuitBreakerOpen 700000 (snd r) = (true, snd r).
Proof.
  apply (counted_failure_at_threshold_restarts_the_cooldown 450000 700000
           (AdvancedRateLimiter.queued 6) AdvancedRateLimiter.serverError
           (AdvancedRateLimiter.recordFailures [0; 90000; 180000; 270000; 360000]
              AdvancedRateLimiter.clientLimiter)).
  - reflexivity.
  - vm_compute. discriminate.
  - vm_compute. reflexivity.
Defined.

(** X6: a request handed to an idle limiter whose breaker is closed and
    whose call succeeds is executed once and resolved with the result;
    the failure counter is back at 0 and the breaker answers closed at
    every later instant. *)
Theorem successful_request_resets_the_breaker
    (polls : nat) (now : Z) (id : nat) (v : Z)
    (st : AdvancedRateLimiter.AdvancedRateLimiter) :
  AdvancedRateLimiterRetries.idle now st -> (2 <= polls)%nat ->
  0 <= AdvancedRateLimiter.circuitBreakerFailures st
    < AdvancedRateLimiter.circuitBreakerThreshold st ->
  exists now' st',
    AdvancedRateLimiter.makeRequest (fun _ => AdvancedRateLimiter.Fulfilled v)
      polls now id st
      = Some ([AdvancedRateLimiter.Executed id; AdvancedRateLimiter.Resolved id v],
              now', st') /\
    AdvancedRateLimiter.circuitBreakerFailures st' = 0 /\
    AdvancedRateLimiter.requestQueue st' = [] /\
    forall t, AdvancedRateLimiter.isCircuitBreakerOpen t st' = (false, st').
Proof.
  intros Hidle Hpolls Hclosed.
  rewrite makeRequest_closed_idle; [|lia | apply Hidle].
  destruct (retryFires_on_idle (fun _ => AdvancedRateLimiter.Fulfilled v) polls now
              {| AdvancedRateLimiter.requestId := id;
                 AdvancedRateLimiter.retryCount := 0;
                 AdvancedRateLimiter.timestamp := now |} st Hidle Hpolls)
    as (now' & st' & _ & Hidle' & _ & Hthr & _ & Hrun & Hf & _).
  exists now', st'. split; [exact Hrun|]. split; [exact Hf|].
  split; [apply Hidle'|].
  intros t. unfold AdvancedRateLimiter.isCircuitBreakerOpen. rewrite Hf, Hthr.
  replace (AdvancedRateLimiter.circuitBreakerThreshold st <=? 0) with false
    by (symmetry; apply Z.leb_gt; lia).
  reflexivity.
Qed.

(** The client's limiter, fresh: the call is made at once and resolved. *)
Lemma successful_request_resets_the_breaker_witness :
  exists now' st',
    AdvancedRateLimiter.makeRequest (fun _ => AdvancedRateLimiter.Fulfilled 1)
      2 0 7 AdvancedRateLimiter.clientLimiter
      = Some ([AdvancedRateLimiter.Executed 7; AdvancedRateLimiter.Resolved 7 1],
              now', st') /\
    AdvancedRateLimiter.circuitBreakerFailures st' = 0 /\
    AdvancedRateLimiter.requestQueue st' = [] /\
    forall t, AdvancedRateLimiter.isCircuitBreakerOpen t st' = (false, st').
Proof.
  apply (successful_request_resets_the_breaker 2 0 7 1 AdvancedRateLimiter.clientLimiter).
  - split; [reflexivity|]. split; [reflexivity|]. split.
    + split; [vm_compute; discriminate|].
      split; [vm_compute; reflexivity|].
      split; [exists 1; split; [lia | reflexivity]|].
      split; vm_compute; discriminate.
    + exists 1. reflexivity.
  - lia.
  - vm_compute. split; [discriminate | reflexivity].
Defined.

(** X7: a request that meets a rate-limit error at every call is executed
    exactly [maxRetries + 1] times, whatever the delays between the
    attempts; it is then rejected with that error and one failure is
    counted against the breaker. *)
Theorem rate_limited_request_is_tried_maxRetries_plus_one_times
    (rounds polls : nat) (delay : AdvancedRateLimiter.QueuedRequest -> Z)
    (now : Z) (id : nat) (error : AdvancedRateLimiter.RequestError)
    (st : AdvancedRateLimiter.AdvancedRateLimiter) :
  AdvancedRateLimiterRetries.idle now st -> (2 <= polls)%nat ->
  AdvancedRateLimiter.circuitBreakerFailures st
    < AdvancedRateLimiter.circuitBreakerThreshold st ->
  0 <= AdvancedRateLimiter.maxRetries st ->
  (Z.to_nat (AdvancedRateLimiter.maxRetries st) <= rounds)%nat ->
  (forall r, 0 <= delay r) ->
  AdvancedRateLimiter.isRateLimitError error = true ->
  exists evs now' st',
    AdvancedRateLimiterRetries.makeRequestToTheEnd rounds
      (fun _ => AdvancedRateLimiter.Failed error) polls delay now id st
      = Some (evs, now', st') /\
    AdvancedRateLimiterRetries.executions id evs
      = S (Z.to_nat (AdvancedRateLimiter.maxRetries st)) /\
    List.last evs (AdvancedRateLimiter.Executed O) = AdvancedRateLimiter.Rejected id error /\
    AdvancedRateLimiter.circuitBreakerFailures st'
      = AdvancedRateLimiter.circuitBreakerFailures st + 1.
Proof.
  intros Hidle Hpolls Hclosed Hmax Hrounds Hdelay Hrl.
  unfold AdvancedRateLimiterRetries.makeRequestToTheEnd.
  rewrite makeRequest_closed_idle; [|exact Hclosed | apply Hidle].
  destruct (rate_limited_chain error polls delay
              (Z.to_nat (AdvancedRateLimiter.maxRetries st)) Hrl Hpolls Hdelay
              rounds now
              {| AdvancedRateLimiter.requestId := id;
                 AdvancedRateLimiter.retryCount := 0;
                 AdvancedRateLimiter.timestamp := now |} st Hidle Hrounds)
    as (evs & now' & st' & Hrun & Hex & Hlast & Hfail & _).
  { cbn. lia. }
  exists evs, now', st'. repeat split; assumption.
Qed.

(** The client's limiter allows one retry: two calls, then the rejection. *)
Lemma rate_limited_request_is_tried_maxRetries_plus_one_times_witness :
  exists evs now' st',
    AdvancedRateLimiterRetries.makeRequestToTheEnd 1
      (fun _ => AdvancedRateLimiter.Failed AdvancedRateLimiterRetries.tooManyRequests)
      2 (fun _ => 120000) 0 7 AdvancedRateLimiter.clientLimiter
      = Some (evs, now', st') /\
    AdvancedRateLimiterRetries.executions 7 evs
      = S (Z.to_nat (AdvancedRateLimiter.maxRetries AdvancedRateLimiter.clientLimiter)) /\
    List.last evs (AdvancedRateLimiter.Executed O)
      = AdvancedRateLimiter.Rejected 7 AdvancedRateLimiterRetries.tooManyRequests /\
    AdvancedRateLimiter.circuitBreakerFailures st'
      = AdvancedRateLimiter.circuitBreakerFailures AdvancedRateLimiter.clientLimiter + 1.
Proof.
  apply (rate_limited_request_is_tried_maxRetries_plus_one_times 1 2 (fun _ => 120000)
           0 7 AdvancedRateLimiterRetries.tooManyRequests AdvancedRateLimiter.clientLimiter).
  - split; [reflexivity|]. split; [reflexivity|]. split.
    + split; [vm_compute; discriminate|].
      split; [vm_compute; reflexivity|].
      split; [exists 1; split; [lia | reflexivity]|].
      split; vm_compute; discriminate.
    + exists 1. reflexivity.
  - lia.
  - vm_compute. reflexivity.
  - vm_compute. discriminate.
  - vm_compute. lia.
  - intros _. lia.
  - reflexivity.
Defined.

(** X8: an error that is not a rate-limit error is never retried: the
    request is executed once, rejected with its error, and one failure is
    counted, whatever [maxRetries] is. *)
Theorem other_errors_are_not_retried
    (rounds polls : nat) (delay : AdvancedRateLimiter.QueuedRequest -> Z)
    (now : Z) (id : nat) (error : AdvancedRateLimiter.RequestError)
    (st : AdvancedRateLimiter.AdvancedRateLimiter) :
  AdvancedRateLimiterRetries.idle now st -> (2 <= polls)%nat ->
  AdvancedRateLimiter.circuitBreakerFailures st
    < AdvancedRateLimiter.circuitBreakerThreshold st ->
  AdvancedRateLimiter.isRateLimitError error = false ->
  exists now' st',
    AdvancedRateLimiterRetries.makeRequestToTheEnd rounds
      (fun _ => AdvancedRateLimiter.Failed error) polls delay now id st
      = Some ([AdvancedRateLimiter.Executed id; AdvancedRateLimiter.Rejected id error],
              now', st') /\
    AdvancedRateLimiter.circuitBreakerFailures st'
      = AdvancedRateLimiter.circuitBreakerFailures st + 1.
Proof.
  intros Hidle Hpolls Hclosed Hrl.
  unfold AdvancedRateLimiterRetries.makeRequestToTheEnd.
  rewrite makeRequest_closed_idle; [|exact Hclosed | apply Hidle].
  destruct (retryFires_on_idle (fun _ => AdvancedRateLimiter.Failed error) polls now
              {| AdvancedRateLimiter.requestId := id;
                 AdvancedRateLimiter.retryCount := 0;
                 AdvancedRateLimiter.timestamp := now |} st Hidle Hpolls)
    as (now' & st' & _ & _ & _ & _ & _ & Hcase).
  cbn beta in Hcase. rewrite Hrl in Hcase. cbn [andb] in Hcase.
  destruct Hcase as (Hrun & Hf & _).
  exists now', st'. rewrite Hrun. split; [destruct rounds; reflexivity | exact Hf].
Qed.

(** The client's limiter at a 500: one call, one rejection, one failure. *)
Lemma other_errors_are_not_retried_witness :
  exists now' st',
    AdvancedRateLimiterRetries.makeRequestToTheEnd 0
      (fun _ => AdvancedRateLimiter.Failed AdvancedRateLimiter.serverError)
      2 (fun _ => 30000) 0 7 AdvancedRateLimiter.clientLimiter
      = Some ([AdvancedRateLimiter.Executed 7;
               AdvancedRateLimiter.Rejected 7 AdvancedRateLimiter.serverError],
              now', st') /\
    AdvancedRateLimiter.circuitBreakerFailures st'
      = AdvancedRateLimiter.circuitBreakerFailures AdvancedRateLimiter.clientLimiter + 1.
Proof.
  apply (other_errors_are_not_retried 0 2 (fun _ => 30000) 0 7
           AdvancedRateLimiter.serverError AdvancedRateLimiter.clientLimiter).
  - split; [reflexivity|]. split; [reflexivity|]. split.
    + split; [vm_compute; discriminate|].
      split; [vm_compute; reflexivity|].
      split; [exists 1; split; [lia | reflexivity]|].
      split; vm_compute; discriminate.
    + exists 1. reflexivity.
  - lia.
  - vm_compute. reflexivity.
  - reflexivity.
Defined.

(* ===================================================================== *)
(** ** Enhanced limiter: spacing, breaker, configuration *)
(* ===================================================================== *)

Section EnhancedLimiterFacts.
Import EnhancedLimiter.

Lemma latestRequest_ge (rs : list Z) (t : Z) : In t rs -> t <= latestRequest rs.
Proof.
  unfold latestRequest. induction rs as [|x rs IH]; cbn; [tauto|].
  intros [H | H]; [lia|]. specialize (IH H). lia.
Qed.

Lemma updateFromHeaders_frame (parseInt : string -> Num) (now : Z)
    (headers : gmap string string) (st : State) :
  let st' := updateFromHeaders parseInt now headers st in
  requests st' = requests st /\
  minimumRequestInterval st' = minimumRequestInterval st /\
  maxConsecutiveFailures st' = maxConsecutiveFailures st /\
  circuitBreakerTimeout st' = circuitBreakerTimeout st /\
  (apiTier st <> unknown ->
   apiTier st' = apiTier st /\ maxRequests st' = maxRequests st /\
   timeWindow st' = timeWindow st).
Proof.
  cbn. repeat split; destruct (apiTier st); try congruence;
    destruct (headerOr headers "x-ratelimit-limit" "x-rate-limit-limit"); reflexivity.
Qed.

Lemma recordRequest_frame (parseInt : string -> Num) (now : Z)
    (headers : option (gmap string string)) (st : State) :
  let st' := recordRequest parseInt now headers st in
  requests st' = requests st ++ [now] /\
  minimumRequestInterval st' = minimumRequestInterval st /\
  maxConsecutiveFailures st' = maxConsecutiveFailures st /\
  circuitBreakerTimeout st' = circuitBreakerTimeout st /\
  (apiTier st <> unknown ->
   apiTier st' = apiTier st /\ maxRequests st' = maxRequests st /\
   timeWindow st' = timeWindow st).
Proof.
  unfold recordRequest. destruct headers as [h|]; cbn -[updateFromHeaders].
  - match goal with |- context [updateFromHeaders parseInt now h ?s] =>
      pose proof (updateFromHeaders_frame parseInt now h s) as H end.
    cbn -[updateFromHeaders] in H.
    destruct H as (A & B & C & D & E).
    split; [exact A|]. split; [exact B|]. split; [exact C|]. split; [exact D|].
    exact E.
  - repeat split.
Qed.

Lemma canMakeRequest_frame (now : Z) (st : State) :
  let st' := snd (canMakeRequest now st) in
  minimumRequestInterval st' = minimumRequestInterval st /\
  maxConsecutiveFailures st' = maxConsecutiveFailures st /\
  circuitBreakerTimeout st' = circuitBreakerTimeout st /\
  apiTier st' = apiTier st /\ maxRequests st' = maxRequests st /\
  timeWindow st' = timeWindow st.
Proof.
  unfold canMakeRequest.
  destruct (circuitBreakerOpen st && _)%bool; [repeat split|].
  destruct (circuitBreakerOpen st); cbn;
    repeat match goal with |- context [if ?c then _ else _] => destruct c; cbn end;
    repeat split.
Qed.

Lemma recordFailure_frame (now : Z) (st : State) :
  let st' := recordFailure now st in
  consecutiveFailures st' = consecutiveFailures st + 1 /\
  minimumRequestInterval st' = minimumRequestInterval st /\
  maxConsecutiveFailures st' = maxConsecutiveFailures st /\
  circuitBreakerTimeout st' = circuitBreakerTimeout st /\
  apiTier st' = apiTier st /\ maxRequests st' = maxRequests st /\
  timeWindow st' = timeWindow st.
Proof.
  unfold recordFailure. destruct (maxConsecutiveFailures st <=? _); repeat split.
Qed.

Lemma getRetryDelay_frame (now : Z) (jitter : Q) (r : option Num) (b : bool) (st : State) :
  let st' := snd (getRetryDelay now jitter r b st) in
  minimumRequestInterval st' = minimumRequestInterval st /\
  maxConsecutiveFailures st' = maxConsecutiveFailures st /\
  circuitBreakerTimeout st' = circuitBreakerTimeout st /\
  apiTier st' = apiTier st /\ maxRequests st' = maxRequests st /\
  timeWindow st' = timeWindow st.
Proof.
  unfold getRetryDelay.
  destruct (match r with Some n => truthyNum n | None => None end); [repeat split|].
  destruct b; [|repeat split].
  destruct (match resetTime st with Some n => truthyNum n | None => None end);
    [destruct (now <? z)|]; repeat split.
Qed.

Lemma enhanced_recordFailures_snoc (times : list Z) (t : Z) (st : State) :
  recordFailures (times ++ [t]) st = recordFailure t (recordFailures times st).
Proof. unfold recordFailures. rewrite fold_left_app. reflexivity. Qed.

Lemma enhanced_recordFailures_fields (times : list Z) (st : State) :
  consecutiveFailures (recordFailures times st)
    = consecutiveFailures st + Z.of_nat (length times) /\
  maxConsecutiveFailures (recordFailures times st) = maxConsecutiveFailures st /\
  circuitBreakerTimeout (recordFailures times st) = circuitBreakerTimeout st.
Proof.
  induction times as [|t times IH] using rev_ind.
  - cbn. repeat split; lia.
  - rewrite enhanced_recordFailures_snoc.
    destruct (recordFailure_frame t (recordFailures times st)) as (F & _ & M & T & _).
    destruct IH as (IF & IM & IT).
    rewrite F, M, T, IF, IM, IT, length_app. cbn. repeat split; lia.
Qed.

End EnhancedLimiterFacts.

(** X9: the minimum interval is enforced.  After a request was recorded
    at instant [t], [canMakeRequest] answers false at every instant less
    than [minimumRequestInterval] after [t], whatever the headers said and
    whatever the state was before. *)
Theorem no_dispatch_within_the_minimum_interval
    (parseInt : string -> EnhancedLimiter.Num) (now t : Z)
    (headers : option (gmap string string)) (st : EnhancedLimiter.State) :
  now - t < EnhancedLimiter.minimumRequestInterval st ->
  fst (EnhancedLimiter.canMakeRequest now
         (EnhancedLimiter.recordRequest parseInt t headers st)) = false.
Proof.
  intros Hnow.
  destruct (recordRequest_frame parseInt t headers st) as (Hreq & Hmin & _).
  set (st' := EnhancedLimiter.recordRequest parseInt t headers st) in *.
  assert (Hlatest : t <= EnhancedLimiter.latestRequest (EnhancedLimiter.requests st')).
  { apply latestRequest_ge. rewrite Hreq. apply in_or_app. right. left. reflexivity. }
  assert (Hlen : (0 <? Z.of_nat (length (EnhancedLimiter.requests st'))) = true).
  { rewrite Hreq, length_app. cbn. apply Z.ltb_lt. lia. }
  unfold EnhancedLimiter.canMakeRequest.
  destruct (EnhancedLimiter.circuitBreakerOpen st' && _)%bool; [reflexivity|].
  destruct (EnhancedLimiter.circuitBreakerOpen st');
    cbn [EnhancedLimiter.set_breaker EnhancedLimiter.requests
         EnhancedLimiter.remainingRequests EnhancedLimiter.lastHeaderUpdate
         EnhancedLimiter.minimumRequestInterval];
    (destruct (EnhancedLimiter.isSet _ && _ && _)%bool; [reflexivity|]);
    rewrite Hlen;
    (replace (now - EnhancedLimiter.latestRequest (EnhancedLimiter.requests st')
              <? EnhancedLimiter.minimumRequestInterval st') with true
       by (symmetry; apply Z.ltb_lt; lia));
    reflexivity.
Qed.

(** The fresh limiter: a request recorded at 1000 blocks the instant
    120 999. *)
Lemma no_dispatch_within_the_minimum_interval_witness :
  fst (EnhancedLimiter.canMakeRequest 120999
         (EnhancedLimiter.recordRequest (fun _ => None) 1000 None EnhancedLimiter.initial))
  = false.
Proof.
  apply (no_dispatch_within_the_minimum_interval (fun _ => None) 120999 1000 None
           EnhancedLimiter.initial).
  vm_compute. reflexivity.
Defined.

(** X10: the enhanced limiter's breaker.  From a zero counter,
    [maxConsecutiveFailures] calls of [recordFailure] open the breaker,
    stamped at the last call.  [canMakeRequest] then answers false and
    changes nothing as long as no more than the timeout has passed, the
    instant of the timeout itself included; the first query strictly later
    closes the breaker and puts the counter back to 0. *)
Theorem enhanced_breaker_opens_and_closes
    (st : EnhancedLimiter.State) (times : list Z) (now : Z) :
  EnhancedLimiter.consecutiveFailures st = 0 ->
  1 <= EnhancedLimiter.maxConsecutiveFailures st ->
  Z.of_nat (length times) = EnhancedLimiter.maxConsecutiveFailures st ->
  let st' := EnhancedLimiter.recordFailures times st in
  let openedAt := List.last times 0 in
  EnhancedLimiter.circuitBreakerOpen st' = true /\
  EnhancedLimiter.circuitBreakerOpenTime st' = openedAt /\
  (now - openedAt <= EnhancedLimiter.circuitBreakerTimeout st ->
     EnhancedLimiter.canMakeRequest now st' = (false, st')) /\
  (EnhancedLimiter.circuitBreakerTimeout st < now - openedAt ->
     EnhancedLimiter.circuitBreakerOpen (snd (EnhancedLimiter.canMakeRequest now st')) = false /\
     EnhancedLimiter.consecutiveFailures (snd (EnhancedLimiter.canMakeRequest now st')) = 0).
Proof.
  intros Hzero Hmax Hlen st' openedAt.
  assert (Hopen : EnhancedLimiter.circuitBreakerOpen st' = true /\
                  EnhancedLimiter.circuitBreakerOpenTime st' = openedAt).
  { unfold st', openedAt.
    destruct times as [|t0 times'] using rev_ind; [cbn in Hlen; lia|].
    rewrite enhanced_recordFailures_snoc, List.last_last.
    destruct (enhanced_recordFailures_fields times' st) as (F & M & _).
    unfold EnhancedLimiter.recordFailure. rewrite F, M, Hzero.
    rewrite length_app in Hlen. cbn in Hlen.
    replace (EnhancedLimiter.maxConsecutiveFailures st <=? 0 + Z.of_nat (length times') + 1)
      with true by (symmetry; apply Z.leb_le; lia).
    split; reflexivity. }
  destruct Hopen as [Hopen Htime].
  destruct (enhanced_recordFailures_fields times st) as (_ & _ & HT). fold st' in HT.
  split; [exact Hopen|]. split; [exact Htime|].
  unfold EnhancedLimiter.canMakeRequest. rewrite Hopen, Htime, HT. cbn [andb].
  split; intros H.
  - replace (EnhancedLimiter.circuitBreakerTimeout st <? now - openedAt) with false
      by (symmetry; apply Z.ltb_ge; exact H).
    reflexivity.
  - replace (EnhancedLimiter.circuitBreakerTimeout st <? now - openedAt) with true
      by (symmetry; apply Z.ltb_lt; exact H).
    cbn [negb].
    repeat match goal with |- context [if ?c then _ else _] => destruct c; cbn end;
      split; reflexivity.
Qed.

(** Three failures, the last at 300: blocked at the instant of the
    timeout, closed one millisecond later. *)
Lemma enhanced_breaker_opens_and_closes_witness :
  let st' := EnhancedLimiter.recordFailures [100; 200; 300] EnhancedLimiter.initial in
  EnhancedLimiter.canMakeRequest 300300 st' = (false, st') /\
  EnhancedLimiter.circuitBreakerOpen (snd (EnhancedLimiter.canMakeRequest 300301 st')) = false.
Proof.
  split.
  - apply (enhanced_breaker_opens_and_closes EnhancedLimiter.initial [100; 200; 300] 300300);
      [reflexivity | cbn; lia | reflexivity | cbn; lia].
  - apply (enhanced_breaker_opens_and_closes EnhancedLimiter.initial [100; 200; 300] 300301);
      [reflexivity | cbn; lia | reflexivity | cbn; lia].
Defined.

(** X11: at the very instant the breaker timeout is reached the two gates
    disagree: [scheduleRequest] accepts the request into the queue while
    [canMakeRequest] still refuses to dispatch. *)
Theorem gates_disagree_at_the_timeout_instant
    (now : Z) (requestFn : nat) (endpoint : string) (priority : Z)
    (queue : list EnhancedRateLimiter.Request) (st : EnhancedLimiter.State) :
  EnhancedLimiter.circuitBreakerOpen st = true ->
  now - EnhancedLimiter.circuitBreakerOpenTime st = EnhancedLimiter.circuitBreakerTimeout st ->
  (exists st', EnhancedRateLimiter.scheduleRequest now requestFn endpoint priority
                 (EnhancedLimiter.withQueue queue st) = Some st') /\
  EnhancedLimiter.canMakeRequest now st = (false, st).
Proof.
  intros Hopen Hat. split.
  - unfold EnhancedRateLimiter.scheduleRequest. cbn. rewrite Hopen, Hat, Z.ltb_irrefl.
    cbn. eexists. reflexivity.
  - unfold EnhancedLimiter.canMakeRequest. rewrite Hopen, Hat, Z.ltb_irrefl. reflexivity.
Qed.

(** Opened at 300, asked at 300 300. *)
Lemma gates_disagree_at_the_timeout_instant_witness :
  let st := EnhancedLimiter.recordFailures [100; 200; 300] EnhancedLimiter.initial in
  (exists st', EnhancedRateLimiter.scheduleRequest 300300 1 "/competitions.json" 0
                 (EnhancedLimiter.withQueue [] st) = Some st') /\
  EnhancedLimiter.canMakeRequest 300300 st = (false, st).
Proof.
  apply (gates_disagree_at_the_timeout_instant 300300 1 "/competitions.json" 0 []
           (EnhancedLimiter.recordFailures [100; 200; 300] EnhancedLimiter.initial));
    reflexivity.
Defined.

(** X12: the limits of the singleton never change.  The constructor sets
    the tier to trial, and the tier detection of [updateFromHeaders] only
    runs for an unknown tier; so after any sequence of calls, whatever the
    response headers carry, the limiter still allows 1 request per 120 s
    window with a minimum interval of 120 s, and its breaker settings are
    the initial ones. *)
Theorem header_limits_never_reconfigure_the_limiter
    (parseInt : string -> EnhancedLimiter.Num) (ops : list EnhancedLimiter.Op) :
  let st := EnhancedLimiter.run parseInt ops EnhancedLimiter.initial in
  EnhancedLimiter.apiTier st = EnhancedLimiter.trial /\
  EnhancedLimiter.maxRequests st = Some 1 /\
  EnhancedLimiter.timeWindow st = 120000 /\
  EnhancedLimiter.minimumRequestInterval st = 120000 /\
  EnhancedLimiter.maxConsecutiveFailures st = 3 /\
  EnhancedLimiter.circuitBreakerTimeout st = 300000.
Proof.
  unfold EnhancedLimiter.run.
  induction ops as [|op ops IH] using rev_ind; [repeat split|].
  rewrite fold_left_app. cbn [fold_left].
  set (st := fold_left _ ops EnhancedLimiter.initial) in *.
  cbn zeta in IH. destruct IH as (A & B & C & D & E & F).
  assert (Hknown : EnhancedLimiter.apiTier st <> EnhancedLimiter.unknown)
    by (rewrite A; discriminate).
  destruct op as [now h | now | now h | now | now j r b]; cbn [EnhancedLimiter.apply].
  - destruct (updateFromHeaders_frame parseInt now h st) as (_ & H1 & H2 & H3 & H4).
    destruct (H4 Hknown) as (H5 & H6 & H7). cbn zeta in *.
    rewrite H1, H2, H3, H5, H6, H7. repeat split; assumption.
  - destruct (canMakeRequest_frame now st) as (H1 & H2 & H3 & H5 & H6 & H7).
    cbn zeta in *. rewrite H1, H2, H3, H5, H6, H7. repeat split; assumption.
  - destruct (recordRequest_frame parseInt now h st) as (_ & H1 & H2 & H3 & H4).
    destruct (H4 Hknown) as (H5 & H6 & H7). cbn zeta in *.
    rewrite H1, H2, H3, H5, H6, H7. repeat split; assumption.
  - destruct (recordFailure_frame now st) as (_ & H1 & H2 & H3 & H5 & H6 & H7).
    cbn zeta in *. rewrite H1, H2, H3, H5, H6, H7. repeat split; assumption.
  - destruct (getRetryDelay_frame now j r b st) as (H1 & H2 & H3 & H5 & H6 & H7).
    cbn zeta in *. rewrite H1, H2, H3, H5, H6, H7. repeat split; assumption.
Qed.



(* ===================================================================== *)
(** ** Cache: reads, expiry, least recently used, reload *)
(* ===================================================================== *)

Section CacheManagerApiFacts.
Import CacheManager CacheManagerApi.

Lemma map_get_set_same (key : string) (entry : CacheEntry) (m : JsMap) :
  map_get key (map_set key entry m) = Some entry.
Proof.
  induction m as [|[k e] m IH]; cbn.
  - rewrite String.eqb_refl. reflexivity.
  - destruct (String.eqb key k) eqn:E; cbn; rewrite E; [reflexivity | exact IH].
Qed.

Lemma map_get_set_other (key k' : string) (entry : CacheEntry) (m : JsMap) :
  k' <> key -> map_get k' (map_set key entry m) = map_get k' m.
Proof.
  intros Hne. induction m as [|[k e] m IH]; cbn.
  - replace (String.eqb k' key) with false by (symmetry; apply String.eqb_neq; exact Hne).
    reflexivity.
  - destruct (String.eqb key k) eqn:E; cbn.
    + apply String.eqb_eq in E. subst k.
      replace (String.eqb k' key) with false by (symmetry; apply String.eqb_neq; exact Hne).
      reflexivity.
    + destruct (String.eqb k' k); [reflexivity | exact IH].
Qed.

Lemma map_get_delete_other (key k' : string) (m : JsMap) :
  k' <> key -> map_get k' (map_delete key m) = map_get k' m.
Proof.
  intros Hne. induction m as [|[k e] m IH]; cbn; [reflexivity|].
  destruct (String.eqb key k) eqn:E; cbn.
  - apply String.eqb_eq in E. subst k.
    replace (String.eqb k' key) with false by (symmetry; apply String.eqb_neq; exact Hne).
    reflexivity.
  - destruct (String.eqb k' k); [reflexivity | exact IH].
Qed.

Lemma map_get_None_iff (key : string) (m : JsMap) :
  map_get key m = None <-> ~ In key (map fst m).
Proof.
  induction m as [|[k e] m IH]; cbn; [tauto|].
  destruct (String.eqb key k) eqn:E.
  - apply String.eqb_eq in E. subst k. split; [discriminate | tauto].
  - apply String.eqb_neq in E. rewrite IH. split; [intros H [H1 | H1]; congruence | tauto].
Qed.

Lemma map_get_In (key : string) (entry : CacheEntry) (m : JsMap) :
  distinctKeys m -> In (key, entry) m -> map_get key m = Some entry.
Proof.
  unfold distinctKeys. induction m as [|[k e] m IH]; cbn; [tauto|].
  intros Hnd [H | H].
  - inversion H; subst. rewrite String.eqb_refl. reflexivity.
  - inversion Hnd as [|? ? Hnot Hnd']; subst.
    destruct (String.eqb key k) eqn:E.
    + apply String.eqb_eq in E. subst k. exfalso. apply Hnot.
      apply in_map_iff. exists (key, entry). split; [reflexivity | exact H].
    + apply IH; assumption.
Qed.

Lemma map_delete_keys (key : string) (m : JsMap) :
  forall k, In k (map fst (map_delete key m)) -> In k (map fst m).
Proof.
  induction m as [|[k0 e] m IH]; cbn; [tauto|].
  destruct (String.eqb key k0); cbn; intros k H; [tauto|].
  destruct H as [H | H]; [tauto | right; apply IH; exact H].
Qed.

Lemma map_delete_distinct (key : string) (m : JsMap) :
  distinctKeys m -> distinctKeys (map_delete key m) /\ map_get key (map_delete key m) = None.
Proof.
  unfold distinctKeys. induction m as [|[k e] m IH]; cbn.
  - intros _. split; [constructor | reflexivity].
  - intros Hnd. inversion Hnd as [|? ? Hnot Hnd']; subst.
    destruct (String.eqb key k) eqn:E.
    + apply String.eqb_eq in E. subst k. split; [exact Hnd'|].
      apply map_get_None_iff. exact Hnot.
    + destruct (IH Hnd') as [IH1 IH2]. cbn. rewrite E. split; [|exact IH2].
      constructor; [|exact IH1]. intros Hin. apply Hnot.
      apply (map_delete_keys key m). exact Hin.
Qed.

Lemma map_set_keys (key : string) (entry : CacheEntry) (m : JsMap) :
  forall k, In k (map fst (map_set key entry m)) -> k = key \/ In k (map fst m).
Proof.
  induction m as [|[k0 e] m IH]; cbn; [intros k [H | H]; [left; congruence | tauto]|].
  destruct (String.eqb key k0); cbn; intros k H; [tauto|].
  destruct H as [H | H]; [tauto|]. destruct (IH k H); tauto.
Qed.

Lemma map_set_distinct (key : string) (entry : CacheEntry) (m : JsMap) :
  distinctKeys m -> distinctKeys (map_set key entry m).
Proof.
  unfold distinctKeys. induction m as [|[k e] m IH]; cbn.
  - intros _. constructor; [tauto | constructor].
  - intros Hnd. inversion Hnd as [|? ? Hnot Hnd']; subst.
    destruct (String.eqb key k) eqn:E; cbn; [exact Hnd|].
    constructor; [|apply IH; exact Hnd'].
    intros Hin. destruct (map_set_keys key entry m k Hin) as [H | H]; [|tauto].
    subst k. rewrite String.eqb_refl in E. discriminate.
Qed.

Lemma evictOldest_distinct (now : Z) (m : JsMap) :
  distinctKeys m -> distinctKeys (evictOldest now m).
Proof.
  intros H. unfold evictOldest.
  destruct (truthy _); [apply map_delete_distinct; exact H | exact H].
Qed.

(** The cache as [set] leaves it: the new entry under its key. *)
Lemma set_stores (now now_evict : Z) (key : string) (value : Z) (ttl : option Z)
    (c : CacheManager) :
  map_get key (cache (set now now_evict key value ttl c))
  = Some {| data := value; timestamp := now; expiresAt := now + timeToLiveOf ttl c;
            accessCount := 0; lastAccessed := now |}.
Proof. unfold set, timeToLiveOf. cbn. apply map_get_set_same. Qed.

Lemma set_distinct (now now_evict : Z) (key : string) (value : Z) (ttl : option Z)
    (c : CacheManager) :
  distinctKeys (cache c) -> distinctKeys (cache (set now now_evict key value ttl c)).
Proof.
  intros H. unfold set. cbn. apply map_set_distinct.
  destruct (maxSize (config c) <=? map_size (cache c));
    [apply evictOldest_distinct; exact H | exact H].
Qed.

(** What the scan of [evictOldest] ends with is what it started with or
    the key and last access of a stored entry. *)
Lemma scan_entry (m : JsMap) (acc : string * Z) :
  fold_left scanStep m acc = acc \/
  exists e, In (fst (fold_left scanStep m acc), e) m /\
            lastAccessed e = snd (fold_left scanStep m acc).
Proof.
  revert acc. induction m as [|[k e] m IH]; intros acc; cbn [fold_left]; [left; reflexivity|].
  destruct (IH (scanStep acc (k, e))) as [H | (e' & Hin & Hl)].
  - rewrite H. unfold scanStep. cbn.
    destruct (lastAccessed e <? snd acc); [|left; reflexivity].
    right. exists e. cbn. split; [left; reflexivity | reflexivity].
  - right. exists e'. split; [right; exact Hin | exact Hl].
Qed.

End CacheManagerApiFacts.

(** X14: a value that was set is read back unchanged until it expires:
    [get] at any instant up to [now + ttl] (the default when [ttl] is
    omitted or 0) returns the value, also when the [set] had to evict or
    overwrote an older value of the key, and counts the read. *)
Theorem set_then_get_returns_the_value
    (now now_evict now' : Z) (key : string) (value : Z) (ttl : option Z)
    (c : CacheManager.CacheManager) :
  now' <= now + CacheManagerApi.timeToLiveOf ttl c ->
  let c1 := CacheManager.set now now_evict key value ttl c in
  let r := CacheManager.get now' key c1 in
  fst r = Some value /\
  fst (CacheManager.has now' key c1) = true /\
  exists e, CacheManager.map_get key (CacheManager.cache (snd r)) = Some e /\
            CacheManager.accessCount e = 1 /\ CacheManager.lastAccessed e = now' /\
            CacheManager.data e = value.
Proof.
  intros Hfresh c1 r.
  pose proof (set_stores now now_evict key value ttl c) as Hst. fold c1 in Hst.
  unfold r, CacheManager.get, CacheManager.has. rewrite Hst. cbn [CacheManager.expiresAt].
  replace (now + CacheManagerApi.timeToLiveOf ttl c <? now') with false
    by (symmetry; apply Z.ltb_ge; exact Hfresh).
  cbn. split; [reflexivity|]. split; [reflexivity|].
  eexists. split; [apply map_get_set_same|]. cbn. repeat split.
Qed.

(** A standings table cached for an hour, read after 59 minutes. *)
Lemma set_then_get_returns_the_value_witness :
  fst (CacheManager.get 3540000 "k"
         (CacheManager.set 0 0 "k" 42 (Some 3600000) (CacheManager.emptyCache 1000)))
  = Some 42.
Proof.
  apply (set_then_get_returns_the_value 0 0 3540000 "k" 42 (Some 3600000)
           (CacheManager.emptyCache 1000)).
  vm_compute. discriminate.
Defined.

(** X15: after its time to live an entry is absent: [get] and [has]
    strictly later than [now + ttl] answer absent, and [get] removes the
    entry from the map. *)
Theorem expired_entry_is_absent_and_removed
    (now now_evict now' : Z) (key : string) (value : Z) (ttl : option Z)
    (c : CacheManager.CacheManager) :
  CacheManagerApi.distinctKeys (CacheManager.cache c) ->
  now + CacheManagerApi.timeToLiveOf ttl c < now' ->
  let c1 := CacheManager.set now now_evict key value ttl c in
  fst (CacheManager.get now' key c1) = None /\
  fst (CacheManager.has now' key c1) = false /\
  CacheManager.map_get key (CacheManager.cache (snd (CacheManager.get now' key c1))) = None /\
  CacheManager.map_get key (CacheManager.cache (snd (CacheManager.has now' key c1))) = None.
Proof.
  intros Hnd Hlate c1.
  pose proof (set_distinct now now_evict key value ttl c Hnd) as Hnd1.
  pose proof (set_stores now now_evict key value ttl c) as Hst.
  fold c1 in Hnd1, Hst.
  unfold CacheManager.get, CacheManager.has. rewrite Hst. cbn [CacheManager.expiresAt].
  replace (now + CacheManagerApi.timeToLiveOf ttl c <? now') with true
    by (symmetry; apply Z.ltb_lt; exact Hlate).
  cbn. repeat split; apply map_delete_distinct; exact Hnd1.
Qed.

(** A live summary cached for 30 s, read one millisecond too late. *)
Lemma expired_entry_is_absent_and_removed_witness :
  fst (CacheManager.get 30001 "k"
         (CacheManager.set 0 0 "k" 42 (Some 30000) (CacheManager.emptyCache 1000)))
  = None.
Proof.
  apply (expired_entry_is_absent_and_removed 0 0 30001 "k" 42 (Some 30000)
           (CacheManager.emptyCache 1000)).
  - constructor.
  - vm_compute. reflexivity.
Defined.

(** X16: [has] is [get] without the bookkeeping: both agree on whether
    the key is present and fresh, and [has] leaves a fresh entry (its
    access count and last access included) and the rest of the cache
    exactly as they were. *)
Theorem has_agrees_with_get_and_does_not_touch
    (now : Z) (key : string) (c : CacheManager.CacheManager) :
  fst (CacheManager.has now key c)
    = CacheManagerApi.isSome (fst (CacheManager.get now key c)) /\
  (fst (CacheManager.has now key c) = true -> snd (CacheManager.has now key c) = c) /\
  (fst (CacheManager.has now key c) = false ->
   snd (CacheManager.has now key c) = snd (CacheManager.get now key c)).
Proof.
  unfold CacheManager.has, CacheManager.get.
  destruct (CacheManager.map_get key (CacheManager.cache c)) as [e|];
    [destruct (CacheManager.expiresAt e <? now)|]; cbn;
    repeat split; intros; congruence.
Qed.

Section CacheManagerLruFacts.
Import CacheManager CacheManagerApi.

Lemma map_get_Some_In (key : string) (entry : CacheEntry) (m : JsMap) :
  map_get key m = Some entry -> In (key, entry) m.
Proof.
  induction m as [|[k e] m IH]; cbn; [discriminate|].
  destruct (String.eqb key k) eqn:E.
  - apply String.eqb_eq in E. subst k. intros H. inversion H. left. reflexivity.
  - intros H. right. apply IH. exact H.
Qed.

Lemma map_set_present_keys (key : string) (entry e0 : CacheEntry) (m : JsMap) :
  map_get key m = Some e0 -> map fst (map_set key entry m) = map fst m.
Proof.
  induction m as [|[k e] m IH]; cbn; [discriminate|].
  destruct (String.eqb key k) eqn:E; cbn; [reflexivity|].
  intros H. rewrite IH by exact H. reflexivity.
Qed.

(** [evictOldest] on a cache whose entries were all touched before the
    clock read: the key it deletes belongs to an entry whose last access
    is the earliest. *)
Lemma evictOldest_spec (now : Z) (m : JsMap) :
  m <> [] -> distinctKeys m -> keysNonEmpty m -> touchedBefore now m ->
  exists k e,
    map_get k m = Some e /\
    Forall (fun kv => lastAccessed e <= lastAccessed (snd kv)) m /\
    evictOldest now m = map_delete k m.
Proof.
  intros Hne Hnd Hkeys Hold.
  destruct (scan_min m (EmptyString, now)) as [Hle Hmin].
  destruct (scan_entry m (EmptyString, now)) as [Hsame | (e & Hin & Hl)].
  - exfalso. destruct m as [|kv m']; [congruence|].
    inversion Hold as [|? ? Hkv _]; subst.
    inversion Hmin as [|? ? Hkv' _]; subst.
    rewrite Hsame in Hkv'. cbn in Hkv'. lia.
  - fold (oldestScan now m) in *.
    exists (fst (oldestScan now m)), e.
    split; [apply map_get_In; assumption|].
    split; [rewrite Hl; exact Hmin|].
    unfold evictOldest.
    replace (truthy (fst (oldestScan now m))) with true; [reflexivity|].
    symmetry. unfold keysNonEmpty in Hkeys. rewrite List.Forall_forall in Hkeys.
    apply (Hkeys _ Hin).
Qed.

Lemma get_set_fresh (now now_evict now' : Z) (key : string) (value : Z) (ttl : option Z)
    (c : CacheManager) :
  now' <= now + timeToLiveOf ttl c ->
  fst (get now' key (set now now_evict key value ttl c)) = Some value.
Proof.
  intros Hfresh. unfold get. rewrite set_stores. cbn [expiresAt].
  replace (now + timeToLiveOf ttl c <? now') with false
    by (symmetry; apply Z.ltb_ge; exact Hfresh).
  reflexivity.
Qed.

Lemma getTTLForEndpoint_ge (endpoint : string) (c : CacheManager) :
  30000 <= defaultTTL (config c) -> 30000 <= getTTLForEndpoint endpoint c.
Proof.
  intros H. unfold getTTLForEndpoint.
  repeat match goal with |- context [if ?b then _ else _] => destruct b end; lia.
Qed.

Lemma map_set_absent (key : string) (entry : CacheEntry) (m : JsMap) :
  ~ In key (map fst m) -> map_set key entry m = m ++ [(key, entry)].
Proof.
  induction m as [|[k e] m IH]; cbn; [reflexivity|].
  intros Hnot. destruct (String.eqb key k) eqn:E.
  - apply String.eqb_eq in E. subst k. exfalso. apply Hnot. left. reflexivity.
  - rewrite IH; [reflexivity|]. intros H. apply Hnot. right. exact H.
Qed.

Lemma load_appends (now : Z) (saved acc : JsMap) :
  List.NoDup (map fst (acc ++ saved)) ->
  fold_left (fun m kv => if now <=? expiresAt (snd kv)
                         then map_set (fst kv) (snd kv) m else m) saved acc
  = acc ++ List.filter (fun kv => now <=? expiresAt (snd kv)) saved.
Proof.
  revert acc. induction saved as [|[k e] saved IH]; intros acc Hnd; cbn.
  - rewrite app_nil_r. reflexivity.
  - assert (Hk : ~ In k (map fst acc)).
    { rewrite map_app in Hnd. cbn in Hnd. apply NoDup_remove_2 in Hnd.
      intros H. apply Hnd. apply in_or_app. left. exact H. }
    destruct (now <=? expiresAt e) eqn:E.
    + rewrite map_set_absent by exact Hk. rewrite IH.
      * rewrite <- app_assoc. reflexivity.
      * rewrite <- app_assoc. exact Hnd.
    + apply IH. rewrite map_app in *. cbn in Hnd.
      apply NoDup_remove_1 in Hnd. exact Hnd.
Qed.

End CacheManagerLruFacts.

(** X17: when every entry was last touched before the clock read of
    [evictOldest] and no key is empty, the eviction removes exactly one
    entry, one whose last access is the earliest of all; every other key
    keeps its entry. *)
Theorem evictOldest_removes_a_least_recently_used_entry
    (now : Z) (m : CacheManager.JsMap) :
  m <> [] -> CacheManagerApi.distinctKeys m -> CacheManager.keysNonEmpty m ->
  CacheManager.touchedBefore now m ->
  exists k e,
    CacheManager.map_get k m = Some e /\
    Forall (fun kv => CacheManager.lastAccessed e <= CacheManager.lastAccessed (snd kv)) m /\
    CacheManager.map_get k (CacheManager.evictOldest now m) = None /\
    S (length (CacheManager.evictOldest now m)) = length m /\
    (forall k', k' <> k ->
       CacheManager.map_get k' (CacheManager.evictOldest now m) = CacheManager.map_get k' m).
Proof.
  intros Hne Hnd Hkeys Hold.
  destruct (evictOldest_spec now m Hne Hnd Hkeys Hold) as (k & e & Hget & Hmin & Hev).
  exists k, e. rewrite Hev.
  split; [exact Hget|]. split; [exact Hmin|].
  split; [apply map_delete_distinct; exact Hnd|].
  split.
  - apply map_delete_length. apply in_map_iff. exists (k, e).
    split; [reflexivity | apply map_get_Some_In; exact Hget].
  - intros k' Hk'. apply map_get_delete_other. exact Hk'.
Qed.

(** Three entries; the one set first and never read is the one to go. *)
Lemma evictOldest_removes_a_least_recently_used_entry_witness :
  let c := CacheManager.set 30 30 "c" 3 None
             (CacheManager.set 20 20 "b" 2 None
                (CacheManager.set 10 10 "a" 1 None (CacheManager.emptyCache 1000))) in
  exists k e,
    CacheManager.map_get k (CacheManager.cache c) = Some e /\
    Forall (fun kv => CacheManager.lastAccessed e <= CacheManager.lastAccessed (snd kv))
           (CacheManager.cache c) /\
    CacheManager.map_get k (CacheManager.evictOldest 40 (CacheManager.cache c)) = None /\
    S (length (CacheManager.evictOldest 40 (CacheManager.cache c)))
      = length (CacheManager.cache c) /\
    (forall k', k' <> k ->
       CacheManager.map_get k' (CacheManager.evictOldest 40 (CacheManager.cache c))
       = CacheManager.map_get k' (CacheManager.cache c)).
Proof.
  apply (evictOldest_removes_a_least_recently_used_entry 40).
  - discriminate.
  - vm_compute. repeat constructor; cbn; intuition discriminate.
  - repeat constructor.
  - repeat constructor.
Defined.

(** X18: reading protects.  An entry that has just been read is not the
    one the next eviction removes, as long as some other entry was last
    touched before that read. *)
Theorem entry_just_read_survives_the_next_eviction
    (now1 now2 : Z) (key other : string) (c : CacheManager.CacheManager) :
  CacheManagerApi.distinctKeys (CacheManager.cache c) ->
  CacheManager.keysNonEmpty (CacheManager.cache c) ->
  CacheManagerApi.isSome (fst (CacheManager.get now1 key c)) = true ->
  other <> key ->
  (exists e2, CacheManager.map_get other (CacheManager.cache c) = Some e2 /\
              CacheManager.lastAccessed e2 < now1) ->
  CacheManager.touchedBefore now2 (CacheManager.cache (snd (CacheManager.get now1 key c))) ->
  let c' := snd (CacheManager.get now1 key c) in
  CacheManagerApi.isSome
    (CacheManager.map_get key (CacheManager.evictOldest now2 (CacheManager.cache c'))) = true.
Proof.
  intros Hnd Hkeys Hhit Hother (e2 & Hget2 & Hl2) Hold c'.
  unfold c' in *. clear c'. revert Hhit Hold. unfold CacheManager.get.
  destruct (CacheManager.map_get key (CacheManager.cache c)) as [e|] eqn:Hget;
    [|discriminate].
  destruct (CacheManager.expiresAt e <? now1); [discriminate|].
  cbn [fst snd CacheManager.with_cache CacheManager.cache]. intros _ Hold.
  set (e' := {| CacheManager.data := CacheManager.data e;
                CacheManager.timestamp := CacheManager.timestamp e;
                CacheManager.expiresAt := CacheManager.expiresAt e;
                CacheManager.accessCount := CacheManager.accessCount e + 1;
                CacheManager.lastAccessed := now1 |}) in *.
  set (m' := CacheManager.map_set key e' (CacheManager.cache c)) in *.
  assert (Hkeys' : map fst m' = map fst (CacheManager.cache c))
    by (apply (map_set_present_keys key e' e); exact Hget).
  assert (Hnd' : CacheManagerApi.distinctKeys m')
    by (unfold CacheManagerApi.distinctKeys; rewrite Hkeys'; exact Hnd).
  assert (HkeysNE : CacheManager.keysNonEmpty m').
  { unfold CacheManager.keysNonEmpty in *. rewrite List.Forall_forall in *.
    intros kv Hin. assert (Hk : In (fst kv) (map fst (CacheManager.cache c))).
    { rewrite <- Hkeys'. apply in_map. exact Hin. }
    apply in_map_iff in Hk. destruct Hk as (kv0 & Hfst & Hin0).
    rewrite <- Hfst. apply Hkeys. exact Hin0. }
  assert (Hne : m' <> []).
  { intros H. pose proof (map_get_set_same key e' (CacheManager.cache c)) as G.
    fold m' in G. rewrite H in G. discriminate. }
  destruct (evictOldest_spec now2 m' Hne Hnd' HkeysNE Hold) as (k & ek & Hk & Hmin & Hev).
  rewrite Hev.
  assert (Hkne : key <> k).
  { intros <-. pose proof (map_get_set_same key e' (CacheManager.cache c)) as G.
    fold m' in G. rewrite G in Hk. inversion Hk; subst ek.
    assert (Hin2 : In (other, e2) m').
    { apply map_get_Some_In. unfold m'. rewrite map_get_set_other by exact Hother.
      exact Hget2. }
    rewrite List.Forall_forall in Hmin. specialize (Hmin _ Hin2). cbn in Hmin. lia. }
  rewrite map_get_delete_other by exact Hkne.
  unfold m'. rewrite map_get_set_same. reflexivity.
Qed.

(** "a" is older than "b" but was read at 25; an eviction at 40 leaves it. *)
Lemma entry_just_read_survives_the_next_eviction_witness :
  let c := CacheManager.set 20 20 "b" 2 None
             (CacheManager.set 10 10 "a" 1 None (CacheManager.emptyCache 1000)) in
  CacheManagerApi.isSome
    (CacheManager.map_get "a"
       (CacheManager.evictOldest 40
          (CacheManager.cache (snd (CacheManager.get 25 "a" c))))) = true.
Proof.
  apply (entry_just_read_survives_the_next_eviction 25 40 "a" "b").
  - vm_compute. repeat constructor; cbn; intuition discriminate.
  - repeat constructor.
  - reflexivity.
  - discriminate.
  - eexists. split; [reflexivity | vm_compute; reflexivity].
  - repeat constructor.
Defined.

(** X19: whatever the endpoint, an API response stored without a custom
    time to live is served from the cache for at least the next 30
    seconds, provided the configured default is at least 30 seconds. *)
Theorem cached_api_response_is_served_for_thirty_seconds
    (now now_evict now' : Z) (endpoint : string) (value : Z)
    (c : CacheManager.CacheManager) :
  30000 <= CacheManager.defaultTTL (CacheManager.config c) ->
  now' <= now + 30000 ->
  fst (CacheManagerApi.getCachedApiResponse now' endpoint
         (CacheManagerApi.setCachedApiResponse now now_evict endpoint value None c))
  = Some value.
Proof.
  intros Hdef Hnow.
  unfold CacheManagerApi.getCachedApiResponse, CacheManagerApi.setCachedApiResponse.
  apply get_set_fresh.
  pose proof (getTTLForEndpoint_ge endpoint c Hdef) as Hge.
  unfold CacheManagerApi.timeToLiveOf.
  destruct (CacheManagerApi.getTTLForEndpoint endpoint c =? 0) eqn:E; [|lia].
  apply Z.eqb_eq in E. lia.
Qed.

(** Live summaries, read 30 s after they were stored. *)
Lemma cached_api_response_is_served_for_thirty_seconds_witness :
  fst (CacheManagerApi.getCachedApiResponse 31000
         "/soccer/trial/v4/en/sport_events/live/summaries.json"
         (CacheManagerApi.setCachedApiResponse 1000 1000
            "/soccer/trial/v4/en/sport_events/live/summaries.json" 7 None
            (CacheManager.emptyCache 1000)))
  = Some 7.
Proof.
  apply (cached_api_response_is_served_for_thirty_seconds 1000 1000 31000).
  - vm_compute. discriminate.
  - lia.
Defined.

(** X20: what a reload brings back.  Persisting the cache at [now] and
    loading the saved array into an empty cache at a later instant [now']
    gives exactly the entries that have not expired at [now'], in their
    order; the expired ones are neither written nor loaded. *)
Theorem reload_restores_exactly_the_fresh_entries
    (now now' bound : Z) (c : CacheManager.CacheManager) :
  CacheManagerApi.distinctKeys (CacheManager.cache c) ->
  now <= now' ->
  CacheManager.cache
    (CacheManagerApi.loadFromStorage now' (CacheManagerApi.persistToStorage now c)
       (CacheManager.emptyCache bound))
  = CacheManager.cache (CacheManager.cleanupExpired now' c).
Proof.
  intros Hnd Hle.
  unfold CacheManagerApi.loadFromStorage, CacheManagerApi.persistToStorage,
    CacheManager.cleanupExpired.
  cbn [CacheManager.cache CacheManager.with_cache CacheManager.emptyCache].
  rewrite load_appends.
  - cbn [app]. induction (CacheManager.cache c) as [|[k e] m IH]; [reflexivity|].
    inversion Hnd; subst. cbn [List.filter snd].
    destruct (now <=? CacheManager.expiresAt e) eqn:E1;
      destruct (CacheManager.expiresAt e <? now') eqn:E2; cbn [List.filter snd negb].
    + replace (now' <=? CacheManager.expiresAt e) with false
        by (symmetry; apply Z.leb_gt; apply Z.ltb_lt in E2; lia).
      apply IH. assumption.
    + replace (now' <=? CacheManager.expiresAt e) with true
        by (symmetry; apply Z.leb_le; apply Z.ltb_ge in E2; lia).
      f_equal. apply IH. assumption.
    + apply IH. assumption.
    + apply Z.leb_gt in E1. apply Z.ltb_ge in E2. lia.
  - cbn [app]. unfold CacheManagerApi.distinctKeys in Hnd.
    induction (CacheManager.cache c) as [|[k e] m IH]; [constructor|].
    inversion Hnd as [|? ? Hnot Hnd']; subst. cbn [List.filter snd].
    destruct (now <=? CacheManager.expiresAt e); [|apply IH; exact Hnd'].
    cbn. constructor; [|apply IH; exact Hnd'].
    intros Hin. apply Hnot. apply in_map_iff in Hin. destruct Hin as (kv & Hk & Hin).
    apply List.filter_In in Hin. apply in_map_iff. exists kv. tauto.
Qed.

(** One entry expired before the reload, one still fresh. *)
Lemma reload_restores_exactly_the_fresh_entries_witness :
  let c := CacheManager.set 20 20 "b" 2 (Some 5000)
             (CacheManager.set 10 10 "a" 1 (Some 100) (CacheManager.emptyCache 1000)) in
  map fst (CacheManager.cache
             (CacheManagerApi.loadFromStorage 200 (CacheManagerApi.persistToStorage 50 c)
                (CacheManager.emptyCache 1000)))
  = ["b"%string].
Proof.
  cbv zeta.
  rewrite (reload_restores_exactly_the_fresh_entries 50 200 1000).
  - reflexivity.
  - vm_compute. repeat constructor; cbn; intuition discriminate.
  - lia.
Defined.

(* ===================================================================== *)
(** ** Request deduplication: completion and the sweep *)
(* ===================================================================== *)

Section RequestDeduplicatorCompletion.
Import RequestDeduplicator.

Lemma cleanup_absent (now : Z) (key : string) (m : gmap string PendingRequest) :
  m !! key = None -> cleanupExpiredRequests now m !! key = None.
Proof.
  intros H. unfold cleanupExpiredRequests. apply map_lookup_filter_None. left. exact H.
Qed.

Lemma cleanup_drops (now : Z) (key : string) (r : PendingRequest)
    (m : gmap string PendingRequest) :
  m !! key = Some r -> requestTTL < now - timestamp r ->
  cleanupExpiredRequests now m !! key = None.
Proof.
  intros H Hlate. unfold cleanupExpiredRequests. apply map_lookup_filter_None. right.
  intros x Hx. rewrite H in Hx. inversion Hx; subst x. cbn. lia.
Qed.

(** Settling the promise a key is registered for. *)
Lemma settle_own (key : string) (p : nat) (t1 : Z) (n : nat) (o : Outcome)
    (st : RequestDeduplicator) :
  issued st !! p = Some (key, None) ->
  invocations key st = n ->
  pendingRequests (settle p o st) !! key = None /\
  received p (settle p o st) = Some o /\
  length (issued (settle p o st)) = length (issued st) /\
  invocations key (settle p o st) = n /\
  (forall q, q <> p -> issued (settle p o st) !! q = issued st !! q).
Proof.
  intros Hiss Hinv. unfold settle, received. rewrite Hiss. cbn.
  split; [apply lookup_delete_eq|].
  split.
  - rewrite list_lookup_insert_eq; [reflexivity|]. eapply lookup_lt_Some. exact Hiss.
  - split; [apply length_insert|]. split.
    + unfold invocations. cbn. rewrite (filter_length_update key key None _ _ p Hiss).
      exact Hinv.
    + intros q Hq. apply list_lookup_insert_ne. congruence.
Qed.

(** A call for a key that is not registered. *)
Lemma call_unregistered (now : Z) (key : string) (st : RequestDeduplicator) :
  pendingRequests st !! key = None ->
  fst (deduplicate now key st) = length (issued st) /\
  invocations key (snd (deduplicate now key st)) = S (invocations key st).
Proof.
  intros H.
  destruct (first_call_registers now key st (cleanup_absent now key _ H))
    as (Hp & _ & _ & Hinv).
  split; assumption.
Qed.

End RequestDeduplicatorCompletion.

(** X21: a completed request is not remembered.  Once the promise a key
    is registered for has settled, its callers have the outcome, the key
    is free, and the next call for the key invokes its factory again. *)
Theorem settled_request_is_not_remembered
    (now t1 : Z) (key : string) (p n : nat) (o : RequestDeduplicator.Outcome)
    (st : RequestDeduplicator.RequestDeduplicator) :
  RequestDeduplicator.registered key p t1 n st ->
  let settled := RequestDeduplicator.settle p o st in
  RequestDeduplicator.received p settled = Some o /\
  RequestDeduplicator.pendingRequests settled !! key = None /\
  fst (RequestDeduplicator.deduplicate now key settled) <> p /\
  RequestDeduplicator.invocations key
    (snd (RequestDeduplicator.deduplicate now key settled)) = S n.
Proof.
  intros (Hreg & Hiss & Hinv) settled.
  destruct (settle_own key p t1 n o st Hiss Hinv) as (Hfree & Hrec & Hlen & Hinv' & _).
  fold settled in Hfree, Hrec, Hlen, Hinv'.
  destruct (call_unregistered now key settled Hfree) as (Hp & Hn).
  split; [exact Hrec|]. split; [exact Hfree|]. split.
  - rewrite Hp, Hlen. apply lookup_lt_Some in Hiss. lia.
  - rewrite Hn, Hinv'. reflexivity.
Qed.

Lemma settled_request_is_not_remembered_witness :
  let st := snd (RequestDeduplicator.deduplicate 0 "/a" RequestDeduplicator.empty) in
  let settled := RequestDeduplicator.settle 0 (RequestDeduplicator.Value 7) st in
  RequestDeduplicator.received 0 settled = Some (RequestDeduplicator.Value 7) /\
  RequestDeduplicator.pendingRequests settled !! "/a"%string = None /\
  fst (RequestDeduplicator.deduplicate 10 "/a" settled) <> 0%nat /\
  RequestDeduplicator.invocations "/a"
    (snd (RequestDeduplicator.deduplicate 10 "/a" settled)) = 2%nat.
Proof.
  apply (settled_request_is_not_remembered 10 0 "/a" 0 1).
  repeat split.
Defined.

(** X22: the completion callback deletes by key, not by promise.  When a
    registration has outlived the 30 seconds and a second call has
    registered a new promise for the key, the late completion of the
    first promise removes the registration of the second: a third call
    invokes the factory a third time although the second promise is still
    pending. *)
Theorem late_completion_unregisters_its_successor
    (t1 t2 t3 : Z) (key : string) (p1 n : nat) (o : RequestDeduplicator.Outcome)
    (st : RequestDeduplicator.RequestDeduplicator) :
  RequestDeduplicator.registered key p1 t1 n st ->
  RequestDeduplicator.requestTTL < t2 - t1 ->
  let second := RequestDeduplicator.deduplicate t2 key st in
  let completed := RequestDeduplicator.settle p1 o (snd second) in
  let third := RequestDeduplicator.deduplicate t3 key completed in
  fst second <> p1 /\
  RequestDeduplicator.received (fst second) completed = None /\
  RequestDeduplicator.pendingRequests completed !! key = None /\
  fst third <> fst second /\
  RequestDeduplicator.invocations key (snd third) = S (S n).
Proof.
  intros (Hreg & Hiss & Hinv) Hlate second completed third.
  pose proof (cleanup_drops t2 key _ _ Hreg Hlate) as Hgone.
  destruct (first_call_registers t2 key st Hgone) as (Hp2 & Hreg2 & Hiss2 & Hinv2).
  fold second in Hp2, Hreg2, Hiss2, Hinv2.
  assert (Hlt : (p1 < length (RequestDeduplicator.issued st))%nat)
    by (eapply lookup_lt_Some; exact Hiss).
  assert (Hiss1 : RequestDeduplicator.issued (snd second) !! p1 = Some (key, None)).
  { unfold second, RequestDeduplicator.deduplicate. rewrite Hgone. cbn.
    rewrite lookup_app_l by exact Hlt. exact Hiss. }
  destruct (settle_own key p1 t1 _ o (snd second) Hiss1 Hinv2)
    as (Hfree & _ & Hlen & Hinv3 & Hother).
  fold completed in Hfree, Hlen, Hinv3, Hother.
  destruct (call_unregistered t3 key completed Hfree) as (Hp3 & Hn3).
  fold third in Hp3, Hn3.
  assert (Hne : fst second <> p1) by (rewrite Hp2; lia).
  split; [exact Hne|]. split.
  - unfold RequestDeduplicator.received. rewrite (Hother _ Hne).
    rewrite Hp2, Hiss2. reflexivity.
  - split; [exact Hfree|]. split.
    + rewrite Hp3, Hlen, Hp2. unfold second, RequestDeduplicator.deduplicate.
      rewrite Hgone. cbn. rewrite length_app. cbn. lia.
    + rewrite Hn3, Hinv3, Hinv. reflexivity.
Qed.

Lemma late_completion_unregisters_its_successor_witness :
  let st := snd (RequestDeduplicator.deduplicate 0 "/a" RequestDeduplicator.empty) in
  let second := RequestDeduplicator.deduplicate 30001 "/a" st in
  let completed :=
    RequestDeduplicator.settle 0 (RequestDeduplicator.Value 7) (snd second) in
  let third := RequestDeduplicator.deduplicate 30002 "/a" completed in
  fst second <> 0%nat /\
  RequestDeduplicator.received (fst second) completed = None /\
  RequestDeduplicator.pendingRequests completed !! "/a"%string = None /\
  fst third <> fst second /\
  RequestDeduplicator.invocations "/a" (snd third) = 3%nat.
Proof.
  apply (late_completion_unregisters_its_successor 0 30001 30002 "/a" 0 1).
  - repeat split.
  - vm_compute. reflexivity.
Defined.

(** X23: the sweep is global.  A call for one key decides the fate of the
    registrations of all other keys: each is kept if it is at most 30
    seconds old at the call and dropped otherwise. *)
Theorem call_sweeps_the_registrations_of_other_keys
    (now : Z) (key k : string) (r : RequestDeduplicator.PendingRequest)
    (st : RequestDeduplicator.RequestDeduplicator) :
  k <> key ->
  RequestDeduplicator.pendingRequests st !! k = Some r ->
  RequestDeduplicator.pendingRequests (snd (RequestDeduplicator.deduplicate now key st)) !! k
  = if now - RequestDeduplicator.timestamp r <=? RequestDeduplicator.requestTTL
    then Some r else None.
Proof.
  intros Hne Hk.
  assert (Hsweep :
    RequestDeduplicator.cleanupExpiredRequests now (RequestDeduplicator.pendingRequests st) !! k
    = if now - RequestDeduplicator.timestamp r <=? RequestDeduplicator.requestTTL
      then Some r else None).
  { destruct (now - RequestDeduplicator.timestamp r <=? RequestDeduplicator.requestTTL) eqn:E.
    - apply Z.leb_le in E. unfold RequestDeduplicator.cleanupExpiredRequests.
      apply map_lookup_filter_Some. split; [exact Hk | exact E].
    - apply Z.leb_gt in E. apply (cleanup_drops now k r); assumption. }
  unfold RequestDeduplicator.deduplicate.
  destruct (RequestDeduplicator.cleanupExpiredRequests now
              (RequestDeduplicator.pendingRequests st) !! key); cbn.
  - exact Hsweep.
  - rewrite lookup_insert_ne by congruence. exact Hsweep.
Qed.

Lemma call_sweeps_the_registrations_of_other_keys_witness :
  let st := snd (RequestDeduplicator.deduplicate 0 "/a" RequestDeduplicator.empty) in
  RequestDeduplicator.pendingRequests
    (snd (RequestDeduplicator.deduplicate 30001 "/b" st)) !! "/a"%string
  = None.
Proof.
  apply (call_sweeps_the_registrations_of_other_keys 30001 "/b" "/a"
           {| RequestDeduplicator.promise := 0; RequestDeduplicator.timestamp := 0 |}).
  - discriminate.
  - reflexivity.
Defined.

(* ===================================================================== *)
(** ** APIMonitor: history, rates, pausing *)
(* ===================================================================== *)

Section APIMonitorQueriesFacts.
Import APIMonitor APIMonitorQueries.

Lemma record_history (m : APIMetrics) (r : Recording) :
  requestHistory (record m r) = firstn maxHistorySize (entryOf r :: requestHistory m).
Proof.
  unfold record, recordRequest. cbn [requestHistory]. fold (duration r).
  fold (entryOf r).
  destruct (maxHistorySize <? length (entryOf r :: requestHistory m))%nat eqn:E;
    [reflexivity|].
  apply Nat.ltb_ge in E. symmetry. apply firstn_all2. exact E.
Qed.

Lemma firstn_cons_firstn {A : Type} (k : nat) (x : A) (l : list A) :
  firstn (S k) (x :: firstn (S k) l) = firstn (S k) (x :: l).
Proof.
  cbn [firstn]. f_equal. rewrite firstn_firstn.
  replace (Nat.min k (S k)) with k by lia. reflexivity.
Qed.

(** After at least one recording the history is the newest hundred of the
    recordings and the old history, newest first. *)
Lemma recordAll_history (rs : list Recording) (m : APIMetrics) :
  rs <> [] ->
  requestHistory (recordAll rs m)
  = firstn maxHistorySize (rev (List.map entryOf rs) ++ requestHistory m).
Proof.
  induction rs as [|r rs IH] using rev_ind; [congruence|]. intros _.
  rewrite recordAll_snoc, record_history, map_app, rev_app_distr. cbn [List.map rev app].
  destruct rs as [|r0 rs0]; [reflexivity|].
  rewrite IH by discriminate. apply (firstn_cons_firstn 99).
Qed.

Lemma leadingRateLimits_nonneg (h : list HistoryEntry) : 0 <= leadingRateLimits h.
Proof.
  induction h as [|e h IH]; cbn; [lia|].
  destruct (Status_eqb (h_status e) rate_limited); lia.
Qed.

Lemma leadingRateLimits_prefix (k : nat) (l1 l2 : list HistoryEntry) :
  Forall (fun e => h_status e = rate_limited) l1 ->
  Z.of_nat (Nat.min k (length l1)) <= leadingRateLimits (firstn k (l1 ++ l2)).
Proof.
  intros Hall. revert k. induction Hall as [|e l1 He Hall IH]; intros k.
  - rewrite Nat.min_0_r. apply leadingRateLimits_nonneg.
  - destruct k as [|k]; [cbn; lia|].
    cbn [app firstn leadingRateLimits length]. rewrite He. cbn [Status_eqb].
    specialize (IH k). rewrite <- Nat.succ_min_distr. lia.
Qed.

(** A share [s / t] as a percentage in double arithmetic: within 0 and
    100, and within [200 * 2^-53] of the exact percentage. *)
Lemma rate_bounds (s t : Z) :
  0 < t -> 0 <= s <= t ->
  let rate := Double.mul (Double.div (inject_Z s) (inject_Z t)) 100 in
  (0 <= rate)%Q /\ (rate <= 100)%Q /\
  (Qabs (rate - 100 * inject_Z s / inject_Z t) <= 200 * Double.pow2 (-53))%Q.
Proof.
  intros Ht Hs rate.
  assert (Htq : (0 < inject_Z t)%Q) by (unfold Qlt; cbn; lia).
  assert (Hsq : (0 <= inject_Z s)%Q) by (unfold Qle; cbn; lia).
  assert (Hst : (inject_Z s <= inject_Z t)%Q) by (rewrite <- Zle_Qle; lia).
  set (x := (inject_Z s / inject_Z t)%Q).
  assert (Hx0 : (0 <= x)%Q).
  { unfold x. apply Qle_shift_div_l; [exact Htq|]. rewrite Qmult_0_l. exact Hsq. }
  assert (Hx1 : (x <= 1)%Q).
  { unfold x. apply Qle_shift_div_r; [exact Htq|]. rewrite Qmult_1_l. exact Hst. }
  assert (Hxa : (Qabs x <= inject_Z 1)%Q) by (rewrite Qabs_pos by exact Hx0; exact Hx1).
  destruct (round_within x 1) as [B1 E1]; [lia | exact Hxa |].
  set (q := Double.round x) in *.
  assert (Hq0 : (0 <= q)%Q) by (apply round_nonneg; exact Hx0).
  rewrite Qabs_pos in B1 by exact Hq0. change (inject_Z 1) with 1%Q in B1, E1.
  assert (Hya : (Qabs (q * 100) <= inject_Z 100)%Q).
  { rewrite Qabs_pos by nra. change (inject_Z 100) with 100%Q. nra. }
  destruct (round_within (q * 100) 100) as [B2 E2]; [lia | exact Hya |].
  change (inject_Z 100) with 100%Q in B2, E2.
  assert (Hr0 : (0 <= Double.round (q * 100))%Q) by (apply round_nonneg; nra).
  rewrite Qabs_pos in B2 by exact Hr0.
  change rate with (Double.round (q * 100)).
  split; [exact Hr0|]. split; [exact B2|].
  assert (Edec : (Double.round (q * 100) - 100 * inject_Z s / inject_Z t
                  == (Double.round (q * 100) - q * 100) + 100 * (q - x))%Q).
  { unfold x. field. intros H0. rewrite H0 in Htq. discriminate Htq. }
  rewrite Edec. eapply Qle_trans; [apply Qabs_triangle|].
  rewrite Qabs_Qmult. change (Qabs 100) with 100%Q.
  revert E1 E2. generalize (Qabs (Double.round (q * 100) - q * 100)) (Qabs (q - x))
                           (Double.pow2 (-53)).
  intros c1 c2 u E1 E2. lra.
Qed.

End APIMonitorQueriesFacts.

(** X24: the history holds the newest hundred requests, newest first:
    recording a sequence of requests puts their entries in reverse order
    in front of the old history and keeps the first hundred. *)
Theorem history_is_the_newest_hundred_newest_first
    (rs : list APIMonitor.Recording) (m : APIMonitor.APIMetrics) :
  (length (APIMonitor.requestHistory m) <= APIMonitor.maxHistorySize)%nat ->
  APIMonitor.requestHistory (APIMonitor.recordAll rs m)
  = firstn APIMonitor.maxHistorySize
      (rev (List.map APIMonitorQueries.entryOf rs) ++ APIMonitor.requestHistory m) /\
  (length (APIMonitor.requestHistory (APIMonitor.recordAll rs m))
   <= APIMonitor.maxHistorySize)%nat.
Proof.
  intros Hlen.
  assert (Heq : APIMonitor.requestHistory (APIMonitor.recordAll rs m)
                = firstn APIMonitor.maxHistorySize
                    (rev (List.map APIMonitorQueries.entryOf rs)
                     ++ APIMonitor.requestHistory m)).
  { destruct rs as [|r rs].
    - cbn [APIMonitor.recordAll fold_left List.map rev app].
      symmetry. apply firstn_all2. exact Hlen.
    - apply recordAll_history. discriminate. }
  split; [exact Heq|]. rewrite Heq. apply firstn_le_length.
Qed.

Lemma history_is_the_newest_hundred_newest_first_witness :
  let rs := [APIMonitorQueries.succeeded 10 0; APIMonitorQueries.rateLimited 50 20] in
  APIMonitor.requestHistory (APIMonitor.recordAll rs APIMonitor.zeroed)
  = firstn APIMonitor.maxHistorySize
      (rev (List.map APIMonitorQueries.entryOf rs)
       ++ APIMonitor.requestHistory APIMonitor.zeroed) /\
  (length (APIMonitor.requestHistory (APIMonitor.recordAll rs APIMonitor.zeroed))
   <= APIMonitor.maxHistorySize)%nat.
Proof.
  apply (history_is_the_newest_hundred_newest_first
           [APIMonitorQueries.succeeded 10 0; APIMonitorQueries.rateLimited 50 20]
           APIMonitor.zeroed).
  cbn. lia.
Defined.

(** X25: the rates are percentages.  After any sequence of recordings on
    fresh metrics the success rate and the rate-limit rate lie between 0
    and 100, and with no request both are 0.  The success rate is the
    share of the recordings with status success up to the rounding of the
    quotient and the product: it differs from the exact percentage by at
    most [200 * 2^-53]; the two rates together exceed 100 by no more than
    [400 * 2^-53]. *)
Theorem rates_are_percentages (rs : list APIMonitor.Recording) :
  let m := APIMonitor.recordAll rs APIMonitor.zeroed in
  (0 <= APIMonitorQueries.getSuccessRate m)%Q /\
  (APIMonitorQueries.getSuccessRate m <= 100)%Q /\
  (0 <= APIMonitorQueries.getRateLimitRate m)%Q /\
  (APIMonitorQueries.getRateLimitRate m <= 100)%Q /\
  (rs = [] -> APIMonitorQueries.getSuccessRate m = 0%Q /\
              APIMonitorQueries.getRateLimitRate m = 0%Q) /\
  (rs <> [] ->
     (Qabs (APIMonitorQueries.getSuccessRate m
            - 100 * inject_Z (Z.of_nat (length (APIMonitor.successes rs)))
              / inject_Z (Z.of_nat (length rs)))
      <= 200 * Double.pow2 (-53))%Q) /\
  (APIMonitorQueries.getSuccessRate m + APIMonitorQueries.getRateLimitRate m
   <= 100 + 400 * Double.pow2 (-53))%Q.
Proof.
  intros m.
  destruct (recordAll_invariant rs) as (Htot & Hsucc & Hsum & Hhits).
  fold m in Htot, Hsucc, Hsum, Hhits.
  pose proof (pow2_pos (-53)) as Hu.
  unfold APIMonitorQueries.getSuccessRate, APIMonitorQueries.getRateLimitRate.
  destruct (APIMonitor.totalRequests m =? 0) eqn:E.
  - apply Z.eqb_eq in E.
    split; [apply Qle_refl|]. split; [discriminate|].
    split; [apply Qle_refl|]. split; [discriminate|].
    split; [intros _; split; reflexivity|].
    split.
    + intros Hne. exfalso. apply Hne. apply length_zero_iff_nil. lia.
    + revert Hu. generalize (Double.pow2 (-53)). intros u Hu. lra.
  - apply Z.eqb_neq in E.
    assert (Ht : 0 < APIMonitor.totalRequests m) by lia.
    destruct (rate_bounds (APIMonitor.successfulRequests m) (APIMonitor.totalRequests m))
      as (S0 & S100 & Serr); [exact Ht | lia |].
    destruct (rate_bounds (APIMonitor.rateLimitHits m) (APIMonitor.totalRequests m))
      as (R0 & R100 & Rerr); [exact Ht | lia |].
    cbn zeta in S0, S100, Serr, R0, R100, Rerr.
    split; [exact S0|]. split; [exact S100|]. split; [exact R0|]. split; [exact R100|].
    split; [intros Hnil; exfalso; apply (f_equal (@length _)) in Hnil; cbn in Hnil; lia|].
    split; [intros _; rewrite <- Hsucc, <- Htot; exact Serr|].
    set (s := APIMonitor.successfulRequests m) in *.
    set (h := APIMonitor.rateLimitHits m) in *.
    set (t := APIMonitor.totalRequests m) in *.
    assert (Htq : (0 < inject_Z t)%Q) by (unfold Qlt; cbn; lia).
    assert (Hshare : (100 * inject_Z s / inject_Z t + 100 * inject_Z h / inject_Z t
                      <= 100)%Q).
    { assert (Eq : (100 * inject_Z s / inject_Z t + 100 * inject_Z h / inject_Z t
                    == 100 * inject_Z (s + h) / inject_Z t)%Q).
      { rewrite inject_Z_plus. field. intros H0. rewrite H0 in Htq. discriminate Htq. }
      rewrite Eq. apply Qle_shift_div_r; [exact Htq|].
      apply Qmult_le_l; [reflexivity|]. rewrite <- Zle_Qle. lia. }
    apply Qabs_Qle_condition in Serr. apply Qabs_Qle_condition in Rerr.
    destruct Serr as [_ Serr]. destruct Rerr as [_ Rerr].
    revert Serr Rerr Hshare Hu.
    generalize (Double.mul (Double.div (inject_Z s) (inject_Z t)) 100)
               (Double.mul (Double.div (inject_Z h) (inject_Z t)) 100)
               (100 * inject_Z s / inject_Z t)%Q (100 * inject_Z h / inject_Z t)%Q
               (Double.pow2 (-53)).
    intros c1 c2 c3 c4 u Serr Rerr Hshare Hu. lra.
Qed.

(** The two rates can exceed 100 together: of eleven requests two succeed
    and nine are rate limited; the rates are 18.181818181818183 and
    81.81818181818183. *)
Lemma rates_can_exceed_one_hundred_together :
  let rs := repeat (APIMonitorQueries.succeeded 10 0) 2
            ++ repeat (APIMonitorQueries.rateLimited 10 0) 9 in
  let m := APIMonitor.recordAll rs APIMonitor.zeroed in
  (100 < APIMonitorQueries.getSuccessRate m + APIMonitorQueries.getRateLimitRate m)%Q.
Proof. vm_compute. reflexivity. Qed.

(** X26: three or more rate-limited requests in a row make
    [shouldPauseRequests] true, whatever was recorded before; one request
    with another status brings the count of consecutive rate limits back
    to 0. *)
Theorem three_rate_limits_in_a_row_pause_requests
    (rs : list APIMonitor.Recording) (m : APIMonitor.APIMetrics) :
  Forall (fun r => APIMonitor.r_status r = APIMonitor.rate_limited) rs ->
  (3 <= length rs)%nat ->
  APIMonitorQueries.shouldPauseRequests (APIMonitor.recordAll rs m) = true /\
  (forall r, APIMonitor.r_status r <> APIMonitor.rate_limited ->
     APIMonitorQueries.getConsecutiveRateLimits
       (APIMonitor.record (APIMonitor.recordAll rs m) r) = 0).
Proof.
  intros Hall Hlen. split.
  - unfold APIMonitorQueries.shouldPauseRequests,
      APIMonitorQueries.getConsecutiveRateLimits.
    rewrite recordAll_history by (destruct rs; [cbn in Hlen; lia | discriminate]).
    assert (Hentries : Forall (fun e => APIMonitor.h_status e = APIMonitor.rate_limited)
                         (rev (List.map APIMonitorQueries.entryOf rs))).
    { apply Forall_rev. apply List.Forall_map.
      eapply List.Forall_impl; [|exact Hall]. intros r Hr. exact Hr. }
    pose proof (leadingRateLimits_prefix APIMonitor.maxHistorySize _
                  (APIMonitor.requestHistory m) Hentries) as Hge.
    rewrite length_rev, length_map in Hge.
    apply orb_true_iff. left. apply Z.leb_le.
    unfold APIMonitor.maxHistorySize in *. lia.
  - intros r Hr. unfold APIMonitorQueries.getConsecutiveRateLimits.
    rewrite record_history. cbn [APIMonitor.maxHistorySize firstn].
    cbn [APIMonitorQueries.leadingRateLimits APIMonitorQueries.entryOf APIMonitor.h_status].
    destruct (APIMonitor.r_status r); cbn; [reflexivity | reflexivity | congruence].
Qed.

Lemma three_rate_limits_in_a_row_pause_requests_witness :
  let rs := [APIMonitorQueries.rateLimited 50 20; APIMonitorQueries.rateLimited 90 60;
             APIMonitorQueries.rateLimited 130 100] in
  let m := APIMonitor.recordAll [APIMonitorQueries.succeeded 10 0] APIMonitor.zeroed in
  APIMonitorQueries.shouldPauseRequests (APIMonitor.recordAll rs m) = true /\
  (forall r, APIMonitor.r_status r <> APIMonitor.rate_limited ->
     APIMonitorQueries.getConsecutiveRateLimits
       (APIMonitor.record (APIMonitor.recordAll rs m) r) = 0).
Proof.
  apply (three_rate_limits_in_a_row_pause_requests
           [APIMonitorQueries.rateLimited 50 20; APIMonitorQueries.rateLimited 90 60;
            APIMonitorQueries.rateLimited 130 100]).
  - repeat constructor.
  - cbn. lia.
Defined.

(* ===================================================================== *)
(** ** SportradarAPI: the request body and the shared instance *)
(* ===================================================================== *)

Section SportradarClientFacts.
Import SportradarAPI SportradarClient.

Lemma client_ttl_ge (endpoint : string) : 120000 <= getTTLForEndpoint endpoint.
Proof.
  unfold getTTLForEndpoint.
  repeat match goal with |- context [if ?b then _ else _] => destruct b end; lia.
Qed.

Lemma recordRequest_head (now : Z) (endpoint : string) (start : Z)
    (st : APIMonitor.Status) (err : option APIMonitor.ErrorInfo)
    (m : APIMonitor.APIMetrics) :
  match APIMonitor.requestHistory (APIMonitor.recordRequest now endpoint start st err m) with
  | e :: _ => Some (APIMonitor.h_status e)
  | [] => None
  end = Some st.
Proof.
  unfold APIMonitor.recordRequest. cbn [APIMonitor.requestHistory].
  match goal with |- context [if ?b then _ else _] => destruct b end; reflexivity.
Qed.

Lemma codeIs_true (c : option string) (s : string) :
  codeIs c s = true <-> c = Some s.
Proof.
  unfold codeIs. destruct c as [x|]; [|split; discriminate].
  rewrite String.eqb_eq. split; [intros ->; reflexivity | intros H; inversion H; reflexivity].
Qed.

Lemma accepted_key_only (env : Env) (key : JsString) (u1 u2 : option string) :
  accepted (constructor env key u1) = accepted (constructor env key u2).
Proof.
  unfold accepted, constructor.
  destruct (isEmpty key || isEmpty (trim key))%bool; [reflexivity|].
  destruct (length key <? 20)%nat; reflexivity.
Qed.

End SportradarClientFacts.

(** X27: a response fetched through the limiter is cached under the
    client's own table, whose shortest time to live is two minutes.  A
    second request for the same endpoint that reads the cache at most two
    minutes after the write returns the same data without asking the
    limiter and is recorded as a success, provided the data is truthy; a
    falsy response is cached as well but fails the test [if (cachedData)],
    so the second request asks the limiter again. *)
Theorem second_request_within_two_minutes_is_served_from_the_cache
    (clk1 clk2 : SportradarClient.Clock) (endpoint : string) (data : Z)
    (answer2 : SportradarClient.Thrown + Z) (s : SportradarClient.Services) :
  fst (CacheManagerApi.getCachedApiResponse (SportradarClient.atCacheRead clk1) endpoint
         (SportradarClient.cache s)) = None ->
  SportradarClient.atCacheRead clk2 <= SportradarClient.atCacheWrite clk1 + 120000 ->
  let first := SportradarClient.requestFn clk1 endpoint (inr data) s in
  let second :=
    SportradarClient.requestFn clk2 endpoint answer2 (SportradarClient.services first) in
  SportradarClient.askedLimiter first = true /\
  (SportradarClient.truthy data = true ->
     SportradarClient.result second = inr data /\
     SportradarClient.askedLimiter second = false /\
     SportradarClient.lastRecorded (SportradarClient.services second)
     = Some APIMonitor.success) /\
  (SportradarClient.truthy data = false ->
     SportradarClient.askedLimiter second = true).
Proof.
  intros Hmiss Hsoon first second. subst first second.
  unfold SportradarClient.requestFn.
  destruct (CacheManagerApi.getCachedApiResponse (SportradarClient.atCacheRead clk1)
              endpoint (SportradarClient.cache s)) as [cached cache1].
  cbn [fst] in Hmiss. subst cached.
  cbn [SportradarClient.served SportradarClient.services SportradarClient.cache
       SportradarClient.monitor SportradarClient.askedLimiter SportradarClient.result].
  pose proof (client_ttl_ge endpoint) as Httl.
  assert (Hhit :
    fst (CacheManagerApi.getCachedApiResponse (SportradarClient.atCacheRead clk2) endpoint
           (CacheManagerApi.setCachedApiResponse (SportradarClient.atCacheWrite clk1)
              (SportradarClient.atEviction clk1) endpoint data
              (Some (SportradarClient.getTTLForEndpoint endpoint)) cache1))
    = Some data).
  { unfold CacheManagerApi.getCachedApiResponse, CacheManagerApi.setCachedApiResponse.
    replace (SportradarClient.getTTLForEndpoint endpoint =? 0) with false
      by (symmetry; apply Z.eqb_neq; lia).
    apply get_set_fresh. unfold CacheManagerApi.timeToLiveOf.
    replace (SportradarClient.getTTLForEndpoint endpoint =? 0) with false
      by (symmetry; apply Z.eqb_neq; lia).
    lia. }
  destruct (CacheManagerApi.getCachedApiResponse (SportradarClient.atCacheRead clk2)
              endpoint _) as [cached2 cache2].
  cbn [fst] in Hhit. subst cached2. cbn [SportradarClient.served].
  split; [reflexivity|]. split.
  - intros Htruthy. rewrite Htruthy.
    cbn [SportradarClient.services SportradarClient.cache SportradarClient.monitor
         SportradarClient.askedLimiter SportradarClient.result].
    repeat split. unfold SportradarClient.lastRecorded.
    cbn [SportradarClient.monitor]. apply recordRequest_head.
  - intros Hfalsy. rewrite Hfalsy. destruct answer2; reflexivity.
Qed.

(** Live summaries fetched at 1 s and asked for again at 121 s. *)
Lemma second_request_within_two_minutes_is_served_from_the_cache_witness :
  let endpoint := "/soccer/trial/v4/en/sport_events/live/summaries.json"%string in
  let clk1 := {| SportradarClient.startTime := 0; SportradarClient.atCacheRead := 0;
                 SportradarClient.atCacheWrite := 1000; SportradarClient.atEviction := 1000;
                 SportradarClient.atRecord := 1000 |} in
  let clk2 := {| SportradarClient.startTime := 121000;
                 SportradarClient.atCacheRead := 121000;
                 SportradarClient.atCacheWrite := 121000;
                 SportradarClient.atEviction := 121000;
                 SportradarClient.atRecord := 121000 |} in
  let first := SportradarClient.requestFn clk1 endpoint (inr 7)
                 SportradarClient.idleServices in
  let second := SportradarClient.requestFn clk2 endpoint
                  (inl (SportradarClient.OtherError "not asked"))
                  (SportradarClient.services first) in
  SportradarClient.askedLimiter first = true /\
  SportradarClient.result second = inr 7 /\
  SportradarClient.askedLimiter second = false /\
  SportradarClient.lastRecorded (SportradarClient.services second)
  = Some APIMonitor.success.
Proof.
  cbv zeta.
  destruct (second_request_within_two_minutes_is_served_from_the_cache
           {| SportradarClient.startTime := 0; SportradarClient.atCacheRead := 0;
              SportradarClient.atCacheWrite := 1000; SportradarClient.atEviction := 1000;
              SportradarClient.atRecord := 1000 |}
           {| SportradarClient.startTime := 121000;
              SportradarClient.atCacheRead := 121000;
              SportradarClient.atCacheWrite := 121000;
              SportradarClient.atEviction := 121000;
              SportradarClient.atRecord := 121000 |}
           "/soccer/trial/v4/en/sport_events/live/summaries.json" 7
           (inl (SportradarClient.OtherError "not asked"))
           SportradarClient.idleServices eq_refl) as (Hfirst & Htruthy & _).
  - cbn. lia.
  - split; [exact Hfirst | exact (Htruthy eq_refl)].
Defined.

(** X28: how a failed request is recorded.  When the limiter rejects with
    the error the interceptor made of an answered request, the error is
    passed on unchanged and the monitor records [rate_limited] exactly
    when the status is 429 or the status is none of 401, 403, 404, 500,
    503 and the body carries the code RATE_LIMIT; every other failure,
    also an error that is not an [APIError], is recorded as [error]. *)
Theorem failed_request_is_recorded_by_its_code
    (Number_parseInt : string -> option Z)
    (clk : SportradarClient.Clock) (endpoint : string)
    (e : SportradarAPI.AxiosError) (r : SportradarAPI.AxiosResponse)
    (s : SportradarClient.Services) :
  SportradarAPI.ax_response e = Some r ->
  fst (CacheManagerApi.getCachedApiResponse (SportradarClient.atCacheRead clk) endpoint
         (SportradarClient.cache s)) = None ->
  let thrown := SportradarClient.ApiError (SportradarAPI.onRejected Number_parseInt e) in
  let out := SportradarClient.requestFn clk endpoint (inl thrown) s in
  SportradarClient.result out = inl thrown /\
  SportradarClient.askedLimiter out = true /\
  SportradarClient.lastRecorded (SportradarClient.services out)
  = Some (if (SportradarAPI.resp_status r =? 429)
             || (negb (SportradarClient.fixedCode (SportradarAPI.resp_status r))
                 && SportradarAPI.codeIs (SportradarAPI.resp_data_code r) "RATE_LIMIT")
          then APIMonitor.rate_limited else APIMonitor.error) /\
  (forall text,
     SportradarClient.lastRecorded
       (SportradarClient.services
          (SportradarClient.requestFn clk endpoint
             (inl (SportradarClient.OtherError text)) s))
     = Some APIMonitor.error).
Proof.
  intros Hresp Hmiss thrown out. subst out.
  unfold SportradarClient.requestFn.
  destruct (CacheManagerApi.getCachedApiResponse (SportradarClient.atCacheRead clk)
              endpoint (SportradarClient.cache s)) as [cached cache1].
  cbn [fst] in Hmiss. subst cached.
  cbn [SportradarClient.served SportradarClient.services SportradarClient.cache SportradarClient.monitor
       SportradarClient.askedLimiter SportradarClient.result].
  split; [reflexivity|]. split; [reflexivity|].
  unfold SportradarClient.lastRecorded. cbn [SportradarClient.monitor].
  rewrite recordRequest_head.
  split; [|intros text; rewrite recordRequest_head; reflexivity].
  f_equal. unfold thrown, SportradarClient.isRateLimitError, SportradarAPI.onRejected,
    SportradarClient.fixedCode.
  rewrite Hresp.
  destruct (SportradarAPI.resp_status r =? 401) eqn:E401.
  { apply Z.eqb_eq in E401. rewrite E401. reflexivity. }
  destruct (SportradarAPI.resp_status r =? 403) eqn:E403.
  { apply Z.eqb_eq in E403. rewrite E403. reflexivity. }
  destruct (SportradarAPI.resp_status r =? 429) eqn:E429; [reflexivity|].
  destruct (SportradarAPI.resp_status r =? 404) eqn:E404; [reflexivity|].
  destruct (SportradarAPI.resp_status r =? 500) eqn:E500; [reflexivity|].
  destruct (SportradarAPI.resp_status r =? 503) eqn:E503; reflexivity.
Qed.

(** A 400 answer whose body names RATE_LIMIT is recorded as rate limited. *)
Lemma failed_request_is_recorded_by_its_code_witness :
  SportradarClient.lastRecorded
    (SportradarClient.services
       (SportradarClient.requestFn
          {| SportradarClient.startTime := 0; SportradarClient.atCacheRead := 0;
             SportradarClient.atCacheWrite := 10; SportradarClient.atEviction := 10;
             SportradarClient.atRecord := 10 |}
          "/competitions.json"
          (inl (SportradarClient.ApiError
                  (SportradarAPI.onRejected (fun _ => None)
                     SportradarClient.badRequestWithRateLimitCode)))
          SportradarClient.idleServices))
  = Some APIMonitor.rate_limited.
Proof.
  pose proof (failed_request_is_recorded_by_its_code (fun _ => None)
           {| SportradarClient.startTime := 0; SportradarClient.atCacheRead := 0;
              SportradarClient.atCacheWrite := 10; SportradarClient.atEviction := 10;
              SportradarClient.atRecord := 10 |}
           "/competitions.json" SportradarClient.badRequestWithRateLimitCode _
           SportradarClient.idleServices eq_refl eq_refl) as H.
  destruct H as (_ & _ & H & _). exact H.
Defined.

(** X29: the shared instance is keyed by the API key alone.  After a call
    that built a client, a call with the same key returns that client
    whatever base URL it names, and builds nothing; a call whose key the
    constructor refuses leaves the stored instance as it was. *)
Theorem instance_is_reused_for_the_same_key
    (env : SportradarAPI.Env) (key : SportradarAPI.JsString)
    (baseURL1 baseURL2 : option string) (apiInstance : option SportradarAPI.Client) :
  SportradarAPI.accepted (SportradarAPI.constructor env key baseURL1) = true ->
  let first := SportradarClient.getAPIInstance env key baseURL1 apiInstance in
  let second := SportradarClient.getAPIInstance env key baseURL2
                  (SportradarClient.stored first) in
  (exists c, SportradarClient.returned first = Some c /\
             SportradarAPI.apiKey c = key /\
             SportradarClient.stored first = Some c /\
             SportradarClient.returned second = Some c /\
             SportradarClient.effectsOf second = []) /\
  (forall key' baseURL,
     SportradarAPI.accepted (SportradarAPI.constructor env key' baseURL) = false ->
     SportradarClient.returned
       (SportradarClient.getAPIInstance env key' baseURL (SportradarClient.stored first))
     = None /\
     SportradarClient.stored
       (SportradarClient.getAPIInstance env key' baseURL (SportradarClient.stored first))
     = SportradarClient.stored first).
Proof.
  intros Hok first second.
  assert (Hfirst : exists c, SportradarClient.returned first = Some c /\
                             SportradarAPI.apiKey c = key /\
                             SportradarClient.stored first = Some c).
  { unfold first, SportradarClient.getAPIInstance.
    assert (Hcreate : exists c,
              SportradarAPI.constructor env key baseURL1
              = (fst (SportradarAPI.constructor env key baseURL1), inr c)
              /\ SportradarAPI.apiKey c = key).
    { revert Hok. unfold SportradarAPI.accepted, SportradarAPI.constructor.
      destruct (SportradarAPI.isEmpty key || SportradarAPI.isEmpty (SportradarAPI.trim key))%bool;
        [discriminate|].
      destruct (length key <? 20)%nat; [discriminate|].
      intros _. eexists. split; reflexivity. }
    destruct Hcreate as (c & Hc & Hkey).
    destruct apiInstance as [inst|].
    - destruct (bool_decide (SportradarAPI.apiKey inst = key)) eqn:E.
      + apply bool_decide_eq_true in E. exists inst. repeat split. exact E.
      + rewrite Hc. exists c. repeat split. exact Hkey.
    - rewrite Hc. exists c. repeat split. exact Hkey. }
  destruct Hfirst as (c & Hret & Hkey & Hst).
  split.
  - exists c. split; [exact Hret|]. split; [exact Hkey|]. split; [exact Hst|].
    unfold second. rewrite Hst. unfold SportradarClient.getAPIInstance.
    rewrite bool_decide_eq_true_2 by exact Hkey. split; reflexivity.
  - intros key' baseURL Hbad. rewrite Hst.
    unfold SportradarClient.getAPIInstance.
    destruct (bool_decide (SportradarAPI.apiKey c = key')) eqn:E.
    + apply bool_decide_eq_true in E. rewrite Hkey in E. subst key'.
      rewrite (accepted_key_only env key baseURL baseURL1) in Hbad. congruence.
    + revert Hbad. unfold SportradarAPI.accepted, SportradarClient.returned.
      destruct (SportradarAPI.constructor env key' baseURL) as [effects [err|c']];
        [split; reflexivity | discriminate].
Qed.

Lemma instance_is_reused_for_the_same_key_witness :
  let first := SportradarClient.getAPIInstance SportradarAPI.productionEnv
                 SportradarClient.keyOfTwentyFour None None in
  exists c, SportradarClient.returned first = Some c /\
            SportradarClient.returned
              (SportradarClient.getAPIInstance SportradarAPI.productionEnv
                 SportradarClient.keyOfTwentyFour (Some "/api/other"%string)
                 (SportradarClient.stored first))
            = Some c /\
            SportradarAPI.client_baseURL c = SportradarAPI.fallbackBaseURL.
Proof.
  cbv zeta.
  destruct (instance_is_reused_for_the_same_key SportradarAPI.productionEnv
              SportradarClient.keyOfTwentyFour None (Some "/api/other"%string) None
              eq_refl) as ((c & Hret & _ & _ & Hsecond & _) & _).
  exists c. split; [exact Hret|]. split; [exact Hsecond|].
  vm_compute in Hret. inversion Hret. reflexivity.
Defined.
